(** * Maze game (maze.c): a shallow embedding and its verification

    The C program keeps the maze, the player, the depth-first path and the
    breadth-first queue in global variables.  Each group of globals is a
    record here and every C function is a function on the records it reads
    and writes.  C [int] values are in [Z] (all values stay far below 2^31:
    coordinates are bounded by the grid, counters by the number of cells;
    a number entered at the menu is tested against the range of [int]).
    A fixed-size C array is a total function from its index to its element,
    updated pointwise; an array the C code leaves uninitialised is an
    arbitrary function given by the caller.  Loops that C bounds only by
    its data take a fuel argument and return [None] when it runs out; the
    theorems show that the fuel the callers pass is always enough. *)

From Stdlib Require Import ZArith Ascii String List Bool Lia FinFun Permutation.
Import ListNotations.
Local Open Scope Z_scope.

(** ** Compile-time constants *)

Definition MAXR : Z := 105.
Definition MAXC : Z := 105.
Definition QSIZE : Z := MAXR * MAXC.
Definition MAX_PATHS_TO_SHOW : Z := 20.

(** ** Arrays *)

(** [a[i] = v] on a one-dimensional array. *)
Definition upd {A : Type} (a : Z -> A) (i : Z) (v : A) : Z -> A :=
  fun k => if k =? i then v else a k.

(** [m[i][j] = v] on a two-dimensional array. *)
Definition upd2 {A : Type} (m : Z -> Z -> A) (i j : Z) (v : A) : Z -> Z -> A :=
  fun r c => if (r =? i) && (c =? j) then v else m r c.

(** An array initialised from a brace list, as in [int a[] = { ... }]. *)
Definition arr_of_list (l : list Z) : Z -> Z :=
  fun k => nth (Z.to_nat k) l 0.

(** The indices [0, 1, ..., n-1] of a counting [for] loop. *)
Definition zseq (n : Z) : list Z := map Z.of_nat (seq 0 (Z.to_nat n)).

(** ** Global state *)

(** [maze], [rows], [cols], [sr], [sc], [er], [ec]. *)
Record grid : Type := mkGrid {
  maze : Z -> Z -> ascii;
  rows : Z;
  cols : Z;
  sr : Z;
  sc : Z;
  er : Z;
  ec : Z
}.

(** [pr], [pc]. *)
Record player : Type := mkPlayer { pr : Z; pc : Z }.

(** [dr] and [dc]: up, down, left, right. *)
Definition dr : Z -> Z := arr_of_list [-1; 1; 0; 0].
Definition dc : Z -> Z := arr_of_list [0; 0; -1; 1].

(** A cell is a (row, column) pair. *)
Abbreviation cell := (Z * Z)%type (only parsing).

(** The neighbour of a cell in direction [d]. *)
Definition nbr (p : cell) (d : Z) : cell := (fst p + dr d, snd p + dc d).

(** ** Maze file loading *)

Definition NUL : ascii := "000"%char.
Definition NL : ascii := "010"%char.

(** A stream opened for reading is the list of characters still to come.
    [fgets_chars n s] reads characters into the buffer until [n] have been
    stored, a newline has been stored, or the stream ends; it returns what
    was stored and the rest of the stream. *)
Fixpoint fgets_chars (n : nat) (s : list ascii) : list ascii * list ascii :=
  match n, s with
  | O, _ => ([], s)
  | S _, [] => ([], [])
  | S n', ch :: s' =>
      if Ascii.eqb ch NL then ([ch], s')
      else let (l, rest) := fgets_chars n' s' in (ch :: l, rest)
  end.

(** [fgets(line, size, f)]: [None] is the NULL return at end of file,
    otherwise at most [size - 1] characters are stored (a terminating NUL
    follows them in the buffer). *)
Definition fgets (size : Z) (s : list ascii) : option (list ascii * list ascii) :=
  match s with
  | [] => None
  | _ :: _ => Some (fgets_chars (Z.to_nat (size - 1)) s)
  end.

(** The C string held by a buffer: its characters up to the first NUL. *)
Fixpoint c_string (buf : list ascii) : list ascii :=
  match buf with
  | [] => []
  | ch :: buf' => if Ascii.eqb ch NUL then [] else ch :: c_string buf'
  end.

Definition strlen (line : list ascii) : Z := Z.of_nat (length line).

(** [if (len > 0 && line[len - 1] == '\n') { line[len - 1] = '\0'; len--; }] *)
Definition strip_newline (line : list ascii) : list ascii :=
  let len := strlen line in
  if (len >? 0) && Ascii.eqb (nth (Z.to_nat (len - 1)) line NUL) NL
  then firstn (Z.to_nat (len - 1)) line
  else line.

(** [strcpy(m[r], line)]: the characters of [line] and the terminating NUL
    are written at the start of row [r]. *)
Definition strcpy_row (m : Z -> Z -> ascii) (r : Z) (line : list ascii)
  : Z -> Z -> ascii :=
  fun i j =>
    if (i =? r) && (0 <=? j) && (j <=? strlen line)
    then nth (Z.to_nat j) line NUL
    else m i j.

Definition set_maze (g : grid) (m : Z -> Z -> ascii) : grid :=
  mkGrid m (rows g) (cols g) (sr g) (sc g) (er g) (ec g).
Definition set_rows (g : grid) (n : Z) : grid :=
  mkGrid (maze g) n (cols g) (sr g) (sc g) (er g) (ec g).
Definition set_cols (g : grid) (n : Z) : grid :=
  mkGrid (maze g) (rows g) n (sr g) (sc g) (er g) (ec g).
Definition set_start (g : grid) (r c : Z) : grid :=
  mkGrid (maze g) (rows g) (cols g) r c (er g) (ec g).
Definition set_exit (g : grid) (r c : Z) : grid :=
  mkGrid (maze g) (rows g) (cols g) (sr g) (sc g) r c.

(** How the reading loop of [load_maze] ends. *)
Inductive read_result : Type :=
| ReadRagged (g : grid)   (* a row of another length: return 0 *)
| ReadDone (g : grid).    (* end of file, or MAXR rows stored *)

(** The [while (fgets(line, MAXC, f) != NULL)] loop.  Every iteration
    consumes at least one character of the stream, so [fuel] need not
    exceed the length of the stream. *)
Fixpoint read_rows (fuel : nat) (s : list ascii) (g : grid) : option read_result :=
  match fgets MAXC s with
  | None => Some (ReadDone g)
  | Some (buf, rest) =>
      match fuel with
      | O => None
      | S fuel' =>
          let line := strip_newline (c_string buf) in
          let len := strlen line in
          if len =? 0 then read_rows fuel' rest g
          else
            let g1 := set_maze g (strcpy_row (maze g) (rows g) line) in
            let checked :=
              if rows g1 =? 0 then Some (set_cols g1 len)
              else if negb (len =? cols g1) then None
              else Some g1 in
            match checked with
            | None => Some (ReadRagged g1)
            | Some g2 =>
                let g3 := set_rows g2 (rows g2 + 1) in
                if rows g3 >=? MAXR then Some (ReadDone g3)
                else read_rows fuel' rest g3
            end
      end
  end.

(** The body of the marker scan at cell [(i, j)]. *)
Definition scan_cell (g : grid) (i j : Z) : grid :=
  let g1 := if Ascii.eqb (maze g i j) "S" then set_start g i j else g in
  if Ascii.eqb (maze g1 i j) "E" then set_exit g1 i j else g1.

(** [for (i ...) for (j ...)], row by row. *)
Definition scan_markers (g : grid) : grid :=
  fold_left (fun g1 i => fold_left (fun g2 j => scan_cell g2 i j) (zseq (cols g)) g1)
            (zseq (rows g)) g.

(** The message [load_maze] prints, if any. *)
Inductive load_message : Type :=
| MsgCannotOpen
| MsgRowLength
| MsgEmpty
| MsgNoMarkers.

Record load_outcome : Type := mkLoad {
  load_ret : Z;
  load_msg : option load_message;
  load_grid : grid
}.

(** [load_maze]: [file] is what [fopen] finds ([None] when the file cannot
    be opened), [g] the globals on entry. *)
Definition load_maze (file : option (list ascii)) (g : grid) : option load_outcome :=
  match file with
  | None => Some (mkLoad 0 (Some MsgCannotOpen) g)
  | Some s =>
      match read_rows (length s) s (set_rows g 0) with
      | None => None
      | Some (ReadRagged g1) => Some (mkLoad 0 (Some MsgRowLength) g1)
      | Some (ReadDone g1) =>
          if (rows g1 =? 0) || (cols g1 =? 0)
          then Some (mkLoad 0 (Some MsgEmpty) g1)
          else
            let g2 := scan_markers (set_exit (set_start g1 (-1) (-1)) (-1) (-1)) in
            if (sr g2 =? -1) || (er g2 =? -1)
            then Some (mkLoad 0 (Some MsgNoMarkers) g2)
            else Some (mkLoad 1 None g2)
      end
  end.

(** ** Rendering *)

(** The characters [print_maze(grid, show_player)] prints, row by row
    (colours dropped): the player is drawn as a caret over its cell. *)
Definition print_maze (m : Z -> Z -> ascii) (g : grid) (p : player) (show_player : bool)
  : list (list ascii) :=
  map (fun i =>
         map (fun j =>
                if show_player && (i =? pr p) && (j =? pc p) then "^"%char
                else m i j)
             (zseq (cols g)))
      (zseq (rows g)).

(** ** Movement *)

Definition is_valid (g : grid) (r c : Z) : bool :=
  if (r <? 0) || (r >=? rows g) || (c <? 0) || (c >=? cols g) then false
  else if Ascii.eqb (maze g r c) "#" then false
  else true.

(** What [move_player] prints. *)
Inductive move_outcome : Type :=
| Moved
| InvalidKey
| InvalidMove.

Definition move_player (g : grid) (p : player) (ch : ascii) : player * move_outcome :=
  let finish (nr nc : Z) :=
    if is_valid g nr nc then (mkPlayer nr nc, Moved) else (p, InvalidMove) in
  if Ascii.eqb ch "w" || Ascii.eqb ch "W" then finish (pr p - 1) (pc p)
  else if Ascii.eqb ch "s" || Ascii.eqb ch "S" then finish (pr p + 1) (pc p)
  else if Ascii.eqb ch "a" || Ascii.eqb ch "A" then finish (pr p) (pc p - 1)
  else if Ascii.eqb ch "d" || Ascii.eqb ch "D" then finish (pr p) (pc p + 1)
  else (p, InvalidKey).

(** The searches handle one cell per loop iteration or per level of recursion, so one more
    than the number of cells is fuel enough. *)
Definition cells_fuel (g : grid) : nat := S (Z.to_nat (rows g * cols g)).

(** ** Breadth-first search *)

Module Bfs.

(** The queue operations leave a record of themselves in [history] (most
    recent first): which slot each push wrote and with which cell, which
    slot each pop read.  No function reads [history]. *)
Inductive qevent : Type :=
| Push (slot r c : Z)
| Pop (slot : Z).

(** [qr], [qc], [front], [rear]. *)
Record queue : Type := mkQueue {
  qr : Z -> Z;
  qc : Z -> Z;
  front : Z;
  rear : Z;
  history : list qevent
}.

Definition queue_init (q : queue) : queue :=
  mkQueue (qr q) (qc q) 0 0 [].

Definition queue_empty (q : queue) : bool := front q =? rear q.

Definition queue_push (q : queue) (r c : Z) : queue :=
  mkQueue (upd (qr q) (rear q) r) (upd (qc q) (rear q) c)
          (front q) (Z.rem (rear q + 1) QSIZE)
          (Push (rear q) r c :: history q).

Definition queue_pop (q : queue) : Z * Z * queue :=
  (qr q (front q), qc q (front q),
   mkQueue (qr q) (qc q) (Z.rem (front q + 1) QSIZE) (rear q)
           (Pop (front q) :: history q)).

(** The locals of [bfs_shortest] together with the queue. *)
Record state : Type := mkState {
  q : queue;
  visited : Z -> Z -> Z;
  parent_r : Z -> Z -> Z;
  parent_c : Z -> Z -> Z;
  found : bool
}.

Definition set_q (st : state) (q1 : queue) : state :=
  mkState q1 (visited st) (parent_r st) (parent_c st) (found st).

(** [visited[nr][nc] = 1; parent_r[nr][nc] = cr; parent_c[nr][nc] = cc;
    queue_push(nr, nc);] *)
Definition discover (st : state) (cr cc nr nc : Z) : state :=
  mkState (queue_push (q st) nr nc)
          (upd2 (visited st) nr nc 1)
          (upd2 (parent_r st) nr nc cr)
          (upd2 (parent_c st) nr nc cc)
          (found st).

Definition set_found (st : state) : state :=
  mkState (q st) (visited st) (parent_r st) (parent_c st) true.

(** The [for (d = 0; d < 4; d++)] loop on the cell [(cr, cc)] just
    dequeued; [ds] are the directions still to try. *)
Fixpoint expand (g : grid) (cr cc : Z) (ds : list Z) (st : state) : state :=
  match ds with
  | [] => st
  | d :: ds' =>
      let nr := cr + dr d in
      let nc := cc + dc d in
      if negb (is_valid g nr nc) then expand g cr cc ds' st
      else if negb (visited st nr nc =? 0) then expand g cr cc ds' st
      else
        let st1 := discover st cr cc nr nc in
        if (nr =? er g) && (nc =? ec g) then set_found st1
        else expand g cr cc ds' st1
  end.

(** The [while (!queue_empty() && !found)] loop. *)
Fixpoint bfs_loop (fuel : nat) (g : grid) (st : state) : option state :=
  if negb (queue_empty (q st)) && negb (found st) then
    match fuel with
    | O => None
    | S fuel' =>
        let '(cr, cc, q1) := queue_pop (q st) in
        bfs_loop fuel' g (expand g cr cc (zseq 4) (set_q st q1))
    end
  else Some st.

(** The state of [bfs_shortest] when its loop is entered: [pr0] and [pc0]
    are the uninitialised contents of [parent_r] and [parent_c]. *)
Definition bfs_start (g : grid) (q0 : queue) (pr0 pc0 : Z -> Z -> Z) : state :=
  mkState (queue_push (queue_init q0) (sr g) (sc g))
          (upd2 (fun _ _ => 0) (sr g) (sc g) 1)
          (upd2 pr0 (sr g) (sc g) (-1))
          (upd2 pc0 (sr g) (sc g) (-1))
          false.

(** The [while (cr != sr || cc != sc)] loop of [mark_shortest_path]. *)
Fixpoint mark_loop (fuel : nat) (g : grid) (parent_r parent_c : Z -> Z -> Z)
         (cr cc length : Z) : option (grid * Z) :=
  if negb (cr =? sr g) || negb (cc =? sc g) then
    match fuel with
    | O => None
    | S fuel' =>
        let tempr := parent_r cr cc in
        let tempc := parent_c cr cc in
        let g1 :=
          if negb (Ascii.eqb (maze g cr cc) "S") && negb (Ascii.eqb (maze g cr cc) "E")
          then set_maze g (upd2 (maze g) cr cc "b"%char)
          else g in
        mark_loop fuel' g1 parent_r parent_c tempr tempc (length + 1)
    end
  else Some (g, length).

(** [mark_shortest_path]: the marked maze and the length it prints. *)
Definition mark_shortest_path (fuel : nat) (g : grid) (parent_r parent_c : Z -> Z -> Z)
  : option (grid * Z) :=
  mark_loop fuel g parent_r parent_c (er g) (ec g) 0.

(** The cells [mark_shortest_path] stands on, from the exit backward: the
    values of [(cr, cc)] at each test of its loop condition. *)
Fixpoint parent_walk (fuel : nat) (g : grid) (parent_r parent_c : Z -> Z -> Z)
         (cr cc : Z) : option (list cell) :=
  if negb (cr =? sr g) || negb (cc =? sc g) then
    match fuel with
    | O => None
    | S fuel' =>
        match parent_walk fuel' g parent_r parent_c (parent_r cr cc) (parent_c cr cc) with
        | None => None
        | Some l => Some ((cr, cc) :: l)
        end
    end
  else Some [(cr, cc)].

(** What [bfs_shortest] reports. *)
Inductive report : Type :=
| NoPathExists
| ShortestPath (length : Z).

(** [bfs_shortest]: the report, the maze as marked, and the queue left
    behind. *)
Definition bfs_shortest (g : grid) (q0 : queue) (pr0 pc0 : Z -> Z -> Z)
  : option (report * grid * queue) :=
  match bfs_loop (cells_fuel g) g (bfs_start g q0 pr0 pc0) with
  | None => None
  | Some st =>
      if negb (found st) then Some (NoPathExists, g, q st)
      else
        match mark_shortest_path (cells_fuel g) g (parent_r st) (parent_c st) with
        | None => None
        | Some (g1, length) => Some (ShortestPath length, g1, q st)
        end
  end.

End Bfs.

(** ** Randomised depth-first search *)

Module Dfs.

(** [visited] is the matrix the caller passes, [current_path_r],
    [current_path_c] and [path_len] are the globals, and [rand_calls]
    counts the calls of [rand()] made so far: the [k]-th call returns
    [rand k] for a sequence [rand] fixed by the seed. *)
Record state : Type := mkState {
  visited : Z -> Z -> Z;
  current_path_r : Z -> Z;
  current_path_c : Z -> Z;
  path_len : Z;
  rand_calls : nat
}.

(** [current_path_r[path_len] = r; current_path_c[path_len] = c; path_len++;] *)
Definition path_push (st : state) (r c : Z) : state :=
  mkState (visited st)
          (upd (current_path_r st) (path_len st) r)
          (upd (current_path_c st) (path_len st) c)
          (path_len st + 1)
          (rand_calls st).

Definition set_visited (st : state) (r c v : Z) : state :=
  mkState (upd2 (visited st) r c v) (current_path_r st) (current_path_c st)
          (path_len st) (rand_calls st).

Definition set_rand_calls (st : state) (k : nat) : state :=
  mkState (visited st) (current_path_r st) (current_path_c st) (path_len st) k.

(** [visited[r][c] = 0; path_len--;] *)
Definition backtrack (st : state) (r c : Z) : state :=
  mkState (upd2 (visited st) r c 0) (current_path_r st) (current_path_c st)
          (path_len st - 1) (rand_calls st).

(** The shuffle [for (i = 3; i > 0; i--)], entered with counter [i]. *)
Fixpoint shuffle (rand : nat -> nat) (i : nat) (dirs : Z -> Z) (k : nat)
  : (Z -> Z) * nat :=
  match i with
  | O => (dirs, k)
  | S i' =>
      let j := Z.rem (Z.of_nat (rand k)) (Z.of_nat i + 1) in
      let temp := dirs (Z.of_nat i) in
      let dirs1 := upd dirs (Z.of_nat i) (dirs j) in
      let dirs2 := upd dirs1 j temp in
      shuffle rand i' dirs2 (S k)
  end.

(** The loop [for (i = 0; i < 4; i++)] over the shuffled directions, for
    the indices [idxs] still to come; [call] is the recursive call.  The
    result [false] means that the loop ran to its end. *)
Fixpoint try_dirs (call : Z -> Z -> state -> option (bool * state))
         (g : grid) (r c : Z) (dirs : Z -> Z) (idxs : list Z) (st : state)
  : option (bool * state) :=
  match idxs with
  | [] => Some (false, st)
  | i :: idxs' =>
      let dir_idx := dirs i in
      let nr := r + dr dir_idx in
      let nc := c + dc dir_idx in
      if is_valid g nr nc && (visited st nr nc =? 0) then
        match call nr nc st with
        | None => None
        | Some (true, st') => Some (true, st')
        | Some (false, st') => try_dirs call g r c dirs idxs' st'
        end
      else try_dirs call g r c dirs idxs' st
  end.

(** [dfs_find_one_path(r, c, visited)]; [fuel] bounds the depth of the
    recursion. *)
Fixpoint dfs_find_one_path (fuel : nat) (g : grid) (rand : nat -> nat)
         (r c : Z) (st : state) : option (bool * state) :=
  match fuel with
  | O => None
  | S fuel' =>
      let st1 := path_push st r c in
      if (r =? er g) && (c =? ec g) then Some (true, st1)
      else
        let st2 := set_visited st1 r c 1 in
        let '(dirs, k) := shuffle rand 3 (arr_of_list [0; 1; 2; 3]) (rand_calls st2) in
        let st3 := set_rand_calls st2 k in
        match try_dirs (dfs_find_one_path fuel' g rand) g r c dirs (zseq 4) st3 with
        | None => None
        | Some (true, st') => Some (true, st')
        | Some (false, st') => Some (false, backtrack st' r c)
        end
  end.

(** The cells of the current path, [current_path[0 .. path_len - 1]]. *)
Definition path_cells (st : state) : list cell :=
  map (fun i => (current_path_r st i, current_path_c st i)) (zseq (path_len st)).

(** The call [show_some_solutions] makes: a zeroed [visited], an empty
    path, the search started at the start cell. *)
Definition top_state (st : state) : state :=
  mkState (fun _ _ => 0) (current_path_r st) (current_path_c st) 0 (rand_calls st).

Definition find_from_start (g : grid) (rand : nat -> nat) (st : state)
  : option (bool * state) :=
  dfs_find_one_path (cells_fuel g) g rand (sr g) (sc g) (top_state st).

End Dfs.

(** ** The program *)

(** What the program writes to the console, one constructor per message;
    [OutFrame] is a maze drawn by [print_maze]. *)
Inductive output : Type :=
| OutLoadError (m : load_message)
| OutTerminated
| OutMenu
| OutInvalidOption
| OutAgainMenu
| OutGoodbye
| OutFrame (frame : list (list ascii))
| OutCongratulations
| OutMovePrompt
| OutQuit
| OutMove (o : move_outcome)
| OutSearching
| OutNoMorePaths
| OutPossiblePath (count steps : Z)
| OutMaxPaths
| OutAnotherPrompt
| OutNoPath
| OutShortest (length : Z).

(** All the globals, and the number of [fopen] calls made so far. *)
Record world : Type := mkWorld {
  w_grid : grid;
  w_player : player;
  w_queue : Bfs.queue;
  w_dfs : Dfs.state;
  w_loads : nat
}.

(** Where the C source stops determining the run. *)
Inductive fault : Type :=
| UnassignedRead       (* a local variable is used that no value was assigned to *)
| OutOfBoundsWrite     (* an array is written outside its bounds *)
| ConversionOverflow.  (* [scanf("%d")] meets a number that no [int] holds *)

(** How a run (or a mode) ends: it returns, or it waits in [scanf] for
    input that has not been typed yet, or it reaches a point from which
    the source does not determine what happens. *)
Inductive ending : Type :=
| Returned (code : Z)
| AwaitingInput
| Fault (f : fault).

(** The range of a C [int]. *)
Definition INT_MIN : Z := -2147483648.
Definition INT_MAX : Z := 2147483647.

Definition int_ok (n : Z) : bool := (INT_MIN <=? n) && (n <=? INT_MAX).

(** What [scanf("%d", &x)] finds next in the input: a token that reads as
    the number [n], or something it cannot convert -- a token that is no
    number, or the end of the input.  In the second case nothing is
    consumed and [x] is not assigned.  The program never looks at what
    [scanf] returns. *)
Inductive entry : Type :=
| Number (n : Z)
| NoNumber.

(** The cell indexes the MAXR x MAXC arrays. *)
Definition in_arrays (r c : Z) : bool :=
  (0 <=? r) && (r <? MAXR) && (0 <=? c) && (c <? MAXC).

(** The [while (1)] loop of [play_manual]; [chars] are the characters
    [scanf(" %c")] will deliver.  The output is accumulated most recent
    first. *)
Fixpoint play_manual_loop (g : grid) (p : player) (chars : list ascii)
         (out : list output) : player * list ascii * list output * ending :=
  let out1 := OutFrame (print_maze (maze g) g p true) :: out in
  if (pr p =? er g) && (pc p =? ec g)
  then (p, chars, OutCongratulations :: out1, Returned 0)
  else
    match chars with
    | [] => (p, [], OutMovePrompt :: out1, AwaitingInput)
    | ch :: chars' =>
        if Ascii.eqb ch "q" || Ascii.eqb ch "Q"
        then (p, chars', OutQuit :: OutMovePrompt :: out1, Returned 0)
        else
          let '(p', o) := move_player g p ch in
          let out2 :=
            match o with
            | Moved => OutMovePrompt :: out1
            | _ => OutMove o :: OutMovePrompt :: out1
            end in
          play_manual_loop g p' chars' out2
    end.

Definition play_manual (g : grid) (chars : list ascii) (out : list output)
  : player * list ascii * list output * ending :=
  play_manual_loop g (mkPlayer (sr g) (sc g)) chars out.

(** The C string in row [i] of a maze array. *)
Definition row_string (m : Z -> Z -> ascii) (i : Z) : list ascii :=
  c_string (map (m i) (zseq MAXC)).

(** [temp_maze] of [show_some_solutions]: the rows copied with [strcpy]
    over the uninitialised array [junk], then the inner cells of the
    current path marked. *)
Definition path_overlay (g : grid) (st : Dfs.state) (junk : Z -> Z -> ascii)
  : Z -> Z -> ascii :=
  let copied :=
    fold_left (fun t i => strcpy_row t i (row_string (maze g) i)) (zseq (rows g)) junk in
  fold_left (fun t i => upd2 t (Dfs.current_path_r st i) (Dfs.current_path_c st i) "^"%char)
            (map (fun i => i + 1) (zseq (Dfs.path_len st - 2))) copied.

Section Program.

(** The values [rand()] returns, in order, and the contents of the
    uninitialised local arrays. *)
Variable rand : nat -> nat.
Variable junk_r junk_c : Z -> Z -> Z.
Variable junk_maze : Z -> Z -> ascii.

(** The [while (count < MAX_PATHS_TO_SHOW)] loop of
    [show_some_solutions], entered with [count] paths shown and at most
    [n] more to show. *)
Fixpoint show_loop (n : nat) (count : Z) (g : grid) (p : player) (st : Dfs.state)
         (chars : list ascii) (out : list output)
  : option (Dfs.state * list ascii * list output * ending) :=
  match n with
  | O => Some (st, chars, out, Returned 0)
  | S n' =>
      match Dfs.find_from_start g rand st with
      | None => None
      | Some (false, st1) => Some (st1, chars, OutNoMorePaths :: out, Returned 0)
      | Some (true, st1) =>
          let count1 := count + 1 in
          let out1 :=
            OutFrame (print_maze (path_overlay g st1 junk_maze) g p false)
            :: OutPossiblePath count1 (Dfs.path_len st1 - 1) :: out in
          if count1 >=? MAX_PATHS_TO_SHOW
          then Some (st1, chars, OutMaxPaths :: out1, Returned 0)
          else
            match chars with
            | [] => Some (st1, [], OutAnotherPrompt :: out1, AwaitingInput)
            | user_answer :: chars' =>
                if negb (Ascii.eqb user_answer "y") && negb (Ascii.eqb user_answer "Y")
                then Some (st1, chars', OutAnotherPrompt :: out1, Returned 0)
                else show_loop n' count1 g p st1 chars' (OutAnotherPrompt :: out1)
            end
      end
  end.

Definition show_some_solutions (g : grid) (p : player) (st : Dfs.state)
           (chars : list ascii) (out : list output)
  : option (Dfs.state * list ascii * list output * ending) :=
  show_loop (Z.to_nat MAX_PATHS_TO_SHOW) 0 g p st chars (OutSearching :: out).

(** [bfs_shortest] with what it prints. *)
Definition bfs_mode (g : grid) (p : player) (q0 : Bfs.queue) (out : list output)
  : option (grid * Bfs.queue * list output) :=
  match Bfs.bfs_shortest g q0 junk_r junk_c with
  | None => None
  | Some (Bfs.NoPathExists, g1, q1) => Some (g1, q1, OutNoPath :: out)
  | Some (Bfs.ShortestPath n, g1, q1) =>
      Some (g1, q1, OutFrame (print_maze (maze g1) g1 p false) :: OutShortest n :: out)
  end.

(** [file_at k] is what the [k]-th call of [fopen] finds. *)
Variable file_at : nat -> option (list ascii).

(** One call of [load_maze] from [main], with the message it prints. *)
Definition load_step (w : world) (out : list output)
  : option (Z * world * list output) :=
  match load_maze (file_at (w_loads w)) (w_grid w) with
  | None => None
  | Some o =>
      let w1 := mkWorld (load_grid o) (w_player w) (w_queue w) (w_dfs w) (S (w_loads w)) in
      let out1 := match load_msg o with Some m => OutLoadError m :: out | None => out end in
      Some (load_ret o, w1, out1)
  end.

(** The mode chosen at the menu; [None] for an option that is none of
    1, 2, 3 (4 is handled by the caller).  The searches mark the start
    cell in their [visited] matrix without a check: [bfs_shortest] always
    ([visited[sr][sc] = 1]), [dfs_find_one_path] unless the start is the
    exit ([visited[r][c] = 1]).  After a failed reload that found no 'S'
    the start is (-1, -1), outside the matrix. *)
Definition run_mode (opt : Z) (w : world) (chars : list ascii) (out : list output)
  : option (option (world * list ascii * list output * ending)) :=
  let g := w_grid w in
  if opt =? 1 then
    let '(p1, chars1, out1, e) := play_manual g chars out in
    Some (Some (mkWorld g p1 (w_queue w) (w_dfs w) (w_loads w), chars1, out1, e))
  else if opt =? 2 then
    if negb (in_arrays (sr g) (sc g)) && negb ((sr g =? er g) && (sc g =? ec g))
    then Some (Some (w, chars, OutSearching :: out, Fault OutOfBoundsWrite))
    else
      match show_some_solutions g (w_player w) (w_dfs w) chars out with
      | None => None
      | Some (st1, chars1, out1, e) =>
          Some (Some (mkWorld g (w_player w) (w_queue w) st1 (w_loads w), chars1, out1, e))
      end
  else if opt =? 3 then
    if negb (in_arrays (sr g) (sc g))
    then Some (Some (w, chars, out, Fault OutOfBoundsWrite))
    else
      match bfs_mode g (w_player w) (w_queue w) out with
      | None => None
      | Some (g1, q1, out1) =>
          Some (Some (mkWorld g1 (w_player w) q1 (w_dfs w) (w_loads w), chars, out1, Returned 0))
      end
  else Some None.

(** The [while (1)] loop of [main]; [ints] is what the calls of
    [scanf("%d")] find, in [show_menu] ([int choice;]) and at the end of
    the loop body ([int again;]).  Both variables are declared without
    a value, so after a failed conversion the program goes on with a
    variable nothing was assigned to, and with the same token still to
    be read. *)
Fixpoint main_loop (ints : list entry) (w : world) (chars : list ascii) (out : list output)
  : option (ending * world * list output) :=
  let out0 := OutMenu :: out in
  match ints with
  | [] => Some (AwaitingInput, w, out0)
  | NoNumber :: _ => Some (Fault UnassignedRead, w, out0)
  | Number opt :: ints1 =>
      if negb (int_ok opt) then Some (Fault ConversionOverflow, w, out0)
      else if opt =? 4 then Some (Returned 0, w, OutGoodbye :: out0)
      else
        match run_mode opt w chars out0 with
        | None => None
        | Some None => main_loop ints1 w chars (OutInvalidOption :: out0)
        | Some (Some (w1, chars1, out1, Returned _)) =>
            let out2 := OutAgainMenu :: out1 in
            match ints1 with
            | [] => Some (AwaitingInput, w1, out2)
            | NoNumber :: _ => Some (Fault UnassignedRead, w1, out2)
            | Number again :: ints2 =>
                if negb (int_ok again) then Some (Fault ConversionOverflow, w1, out2)
                else if negb (again =? 1) then Some (Returned 0, w1, OutGoodbye :: out2)
                else
                  match load_step w1 out2 with
                  | None => None
                  | Some (_, w2, out3) => main_loop ints2 w2 chars1 out3
                  end
            end
        | Some (Some (w1, chars1, out1, e)) => Some (e, w1, out1)
        end
  end.

(** [main]: how the run ends, the globals at that point, and everything
    printed, in order. *)
Definition main (w0 : world) (ints : list entry) (chars : list ascii)
  : option (ending * world * list output) :=
  match load_step w0 [] with
  | None => None
  | Some (ret, w1, out1) =>
      if ret =? 0 then Some (Returned 1, w1, rev (OutTerminated :: out1))
      else
        match main_loop ints w1 chars out1 with
        | None => None
        | Some (e, w2, out2) => Some (e, w2, rev out2)
        end
  end.

End Program.

(** ** Specification vocabulary *)

(** The direction a key stands for, as an index into [dr]/[dc]:
    w is up, s is down, a is left, d is right; anything else is no
    direction. *)
Definition key_direction (ch : ascii) : option Z :=
  if Ascii.eqb ch "w" || Ascii.eqb ch "W" then Some 0
  else if Ascii.eqb ch "s" || Ascii.eqb ch "S" then Some 1
  else if Ascii.eqb ch "a" || Ascii.eqb ch "A" then Some 2
  else if Ascii.eqb ch "d" || Ascii.eqb ch "D" then Some 3
  else None.

(** A position is inside the grid. *)
Definition in_bounds (g : grid) (p : cell) : Prop :=
  0 <= fst p < rows g /\ 0 <= snd p < cols g.

(** A passable cell: inside the grid and not a wall. *)
Definition passable (g : grid) (p : cell) : Prop :=
  in_bounds g p /\ maze g (fst p) (snd p) <> "#"%char.

(** Two cells one cardinal move apart. *)
Definition adjacent (a b : cell) : Prop :=
  Z.abs (fst a - fst b) + Z.abs (snd a - snd b) = 1.

(** [walk g a n b]: there are [n] cardinal moves leading from [a] to [b]
    through passable cells only. *)
Inductive walk (g : grid) (a : cell) : nat -> cell -> Prop :=
| walk_here : passable g a -> walk g a 0 a
| walk_step n b c :
    walk g a n b -> adjacent b c -> passable g c -> walk g a (S n) c.

Definition reachable (g : grid) (a b : cell) : Prop := exists n, walk g a n b.

(** [n] is the graph distance from [a] to [b] in the passable subgraph. *)
Definition distance (g : grid) (a b : cell) (n : nat) : Prop :=
  walk g a n b /\ forall m, walk g a m b -> (n <= m)%nat.

(** Consecutive cells of a list are one cardinal move apart. *)
Fixpoint contiguous (l : list cell) : Prop :=
  match l with
  | a :: (b :: _) as l' => adjacent a b /\ contiguous l'
  | _ => True
  end.

Definition start_cell (g : grid) : cell := (sr g, sc g).
Definition exit_cell (g : grid) : cell := (er g, ec g).

(** What a successful [load_maze] establishes about the globals. *)
Record loaded (g : grid) : Prop := mkLoaded {
  loaded_rows : 0 < rows g <= MAXR;
  loaded_cols : 0 < cols g < MAXC;
  loaded_start : in_bounds g (start_cell g);
  loaded_start_S : maze g (sr g) (sc g) = "S"%char;
  loaded_exit : in_bounds g (exit_cell g);
  loaded_exit_E : maze g (er g) (ec g) = "E"%char
}.

(** The queue history in time order: the slot and cell of every push. *)
Fixpoint pushed (h : list Bfs.qevent) : list (Z * cell) :=
  match h with
  | [] => []
  | Bfs.Push s r c :: h' => pushed h' ++ [(s, (r, c))]
  | Bfs.Pop _ :: h' => pushed h'
  end.

(** Replaying a sequence of queue operations, oldest first, from the set
    [live] of slots that hold an entry pushed and not yet popped: no push
    writes to a live slot. *)
Fixpoint no_overwrite (live : list Z) (ops : list Bfs.qevent) : Prop :=
  match ops with
  | [] => True
  | Bfs.Push s _ _ :: ops' => ~ In s live /\ no_overwrite (s :: live) ops'
  | Bfs.Pop s :: ops' => no_overwrite (remove Z.eq_dec s live) ops'
  end.

(** ** Invariants of the breadth-first search *)

(** The cell stored in slot [i] of the queue arrays. *)
Definition qcell (st : Bfs.state) (i : Z) : cell :=
  (Bfs.qr (Bfs.q st) i, Bfs.qc (Bfs.q st) i).

(** The cells enqueued so far: slots [0 .. rear - 1]. *)
Definition discovered (st : Bfs.state) (p : cell) : Prop :=
  exists i, 0 <= i < Bfs.rear (Bfs.q st) /\ qcell st i = p.

(** The neighbour in direction [d] of the cell in slot [i] is discovered
    if it is passable. *)
Definition closed_at (g : grid) (st : Bfs.state) (i d : Z) : Prop :=
  passable g (nbr (qcell st i) d) -> discovered st (nbr (qcell st i) d).

(** What holds at every point of the search; [lab i] is the distance from
    the start of the cell in slot [i]. *)
Record bfs_core (g : grid) (lab : Z -> nat) (st : Bfs.state) : Prop := mkCore {
  core_front : 0 <= Bfs.front (Bfs.q st) <= Bfs.rear (Bfs.q st);
  core_rear : 0 < Bfs.rear (Bfs.q st) <= rows g * cols g;
  core_first : qcell st 0 = start_cell g;
  core_inj : forall i j,
      0 <= i < Bfs.rear (Bfs.q st) -> 0 <= j < Bfs.rear (Bfs.q st) ->
      qcell st i = qcell st j -> i = j;
  core_visited : forall r c, Bfs.visited st r c <> 0 <-> discovered st (r, c);
  core_dist : forall i,
      0 <= i < Bfs.rear (Bfs.q st) ->
      distance g (start_cell g) (qcell st i) (lab i);
  core_mono : forall i j,
      0 <= i <= j -> j < Bfs.rear (Bfs.q st) -> (lab i <= lab j)%nat;
  core_parent : forall i,
      0 < i < Bfs.rear (Bfs.q st) ->
      exists j, 0 <= j < i /\
                (Bfs.parent_r st (fst (qcell st i)) (snd (qcell st i)),
                 Bfs.parent_c st (fst (qcell st i)) (snd (qcell st i))) = qcell st j /\
                adjacent (qcell st j) (qcell st i) /\
                lab i = S (lab j);
  core_found : Bfs.found st = true <-> discovered st (exit_cell g);
  core_history :
    pushed (Bfs.history (Bfs.q st)) =
    map (fun i => (i, qcell st i)) (zseq (Bfs.rear (Bfs.q st)))
}.

(** At the head of the [while] loop. *)
Definition bfs_outer (g : grid) (lab : Z -> nat) (st : Bfs.state) : Prop :=
  bfs_core g lab st /\
  (Bfs.found st = false ->
   (forall i d, 0 <= i < Bfs.front (Bfs.q st) -> 0 <= d < 4 -> closed_at g st i d) /\
   (forall j, Bfs.front (Bfs.q st) < Bfs.rear (Bfs.q st) ->
              0 <= j < Bfs.rear (Bfs.q st) ->
              (lab j <= S (lab (Bfs.front (Bfs.q st))))%nat)).

(** Inside the [for] loop on the cell of slot [k], with the directions
    [ds] still to try. *)
Definition bfs_inner (g : grid) (lab : Z -> nat) (st : Bfs.state) (k : Z) (ds : list Z)
  : Prop :=
  bfs_core g lab st /\
  Bfs.found st = false /\
  Bfs.front (Bfs.q st) = k + 1 /\
  0 <= k /\
  (forall i d, 0 <= i < k -> 0 <= d < 4 -> closed_at g st i d) /\
  (forall d, 0 <= d < 4 -> ~ In d ds -> closed_at g st k d) /\
  (forall j, 0 <= j < Bfs.rear (Bfs.q st) -> (lab j <= S (lab k))%nat).

(** ** Vocabulary for the loader *)

(** The lines of a text: the runs of characters between newlines.  A
    final run without a newline is a line too. *)
Fixpoint lines_of (s : list ascii) : list (list ascii) :=
  match s with
  | [] => []
  | ch :: s' =>
      if Ascii.eqb ch NL then [] :: lines_of s'
      else
        match lines_of s' with
        | [] => [[ch]]
        | l :: ls => (ch :: l) :: ls
        end
  end.

Definition is_empty_line (l : list ascii) : bool :=
  match l with [] => true | _ :: _ => false end.

Definition non_empty_lines (s : list ascii) : list (list ascii) :=
  filter (fun l => negb (is_empty_line l)) (lines_of s).

(** The text made of the given lines, each followed by a newline. *)
Definition unlines (ls : list (list ascii)) : list ascii :=
  concat (map (fun l => l ++ [NL]) ls).

(** One line stored as the next row of the grid; the first row stored
    fixes the number of columns. *)
Definition store_row (g : grid) (l : list ascii) : grid :=
  let g1 := set_maze g (strcpy_row (maze g) (rows g) l) in
  let g2 := if rows g1 =? 0 then set_cols g1 (strlen l) else g1 in
  set_rows g2 (rows g2 + 1).

Definition store_rows (ls : list (list ascii)) (g : grid) : grid :=
  fold_left store_row ls g.

(** The cells of the grid in the order of a row-major scan. *)
Definition row_major (g : grid) : list cell :=
  flat_map (fun i => map (fun j => (i, j)) (zseq (cols g))) (zseq (rows g)).

(** [p] is the last cell holding [ch] in a row-major scan of the grid. *)
Definition last_occurrence (g : grid) (ch : ascii) (p : cell) : Prop :=
  exists before after,
    row_major g = before ++ p :: after /\
    maze g (fst p) (snd p) = ch /\
    forall q, In q after -> maze g (fst q) (snd q) <> ch.

(** Some cell of the grid holds [ch]. *)
Definition occurs (g : grid) (ch : ascii) : Prop :=
  exists p, In p (row_major g) /\ maze g (fst p) (snd p) = ch.

(** The room [fgets(line, MAXC, f)] has for characters. *)
Definition line_room : nat := Z.to_nat (MAXC - 1).

(** The reading loop keeps the row count below the capacity and the
    column count within the line buffer. *)
Definition rows_ok (g : grid) : Prop :=
  0 <= rows g < MAXR /\ (0 < rows g -> 0 < cols g < MAXC).

(** The row and column counts when the reading loop has ended. *)
Definition rows_done (g : grid) : Prop :=
  0 <= rows g <= MAXR /\ (0 < rows g -> 0 < cols g < MAXC).

(** The globals when the marker scan starts. *)
Definition scan_init (g : grid) : grid :=
  set_exit (set_start g (-1) (-1)) (-1) (-1).

(** After the scan of the cells [l], a marker is where the scan last saw
    it, or where it was when no cell of [l] holds it. *)
Definition last_seen (m : Z -> Z -> ascii) (ch : ascii) (l : list cell)
           (before p : cell) : Prop :=
  ((forall q, In q l -> m (fst q) (snd q) <> ch) /\ p = before) \/
  (exists l1 l2, l = l1 ++ p :: l2 /\ m (fst p) (snd p) = ch /\
                 forall q, In q l2 -> m (fst q) (snd q) <> ch).

(** The acceptance condition as the specification words it: the source
    can be opened, it has a non-empty line, the non-empty lines that are
    retained (the first MAXR of them) all have the length of the first
    one, and an 'S' and an 'E' occur among them. *)
Definition load_should_succeed (file : option (list ascii)) : Prop :=
  exists s,
    file = Some s /\
    let kept := firstn (Z.to_nat MAXR) (non_empty_lines s) in
    kept <> [] /\
    (forall l, In l kept -> length l = length (hd [] kept)) /\
    (exists l, In l kept /\ In "S"%char l) /\
    (exists l, In l kept /\ In "E"%char l).

(** A source of one line of MAXC = 105 characters: an 'S', 103 dots and
    an 'E', then a newline. *)
Definition wide_source : list ascii :=
  "S"%char :: repeat "."%char 103 ++ ["E"%char; NL].

(** ** Vocabulary for the depth-first search *)

(** [st'] has the visited matrix and the current path of [st]: the same
    marks, the same length, the same cells up to that length. *)
Definition dfs_same (st st' : Dfs.state) : Prop :=
  (forall i j, Dfs.visited st' i j = Dfs.visited st i j) /\
  Dfs.path_len st' = Dfs.path_len st /\
  (forall i, i < Dfs.path_len st ->
             Dfs.current_path_r st' i = Dfs.current_path_r st i /\
             Dfs.current_path_c st' i = Dfs.current_path_c st i).

(** The cell in slot [i] of the current path. *)
Definition path_cell (st : Dfs.state) (i : Z) : cell :=
  (Dfs.current_path_r st i, Dfs.current_path_c st i).

(** [st'] extends the path of [st] by the cells [seg]. *)
Definition path_extends (st st' : Dfs.state) (seg : list cell) : Prop :=
  Dfs.path_len st' = Dfs.path_len st + Z.of_nat (length seg) /\
  (forall i, i < Dfs.path_len st -> path_cell st' i = path_cell st i) /\
  (forall k, (k < length seg)%nat ->
             path_cell st' (Dfs.path_len st + Z.of_nat k) = nth k seg (0, 0)).

(** A list of cells that leads from [a] to [b] by cardinal moves through
    passable cells, none of them twice. *)
Definition simple_path (g : grid) (a b : cell) (l : list cell) : Prop :=
  hd_error l = Some a /\
  last l a = b /\
  contiguous l /\
  Forall (passable g) l /\
  NoDup l.

(** The number of passable cells not yet marked in [v]. *)
Definition unvisited_count (g : grid) (v : Z -> Z -> Z) : nat :=
  length (filter (fun p => is_valid g (fst p) (snd p) && (v (fst p) (snd p) =? 0))
                 (row_major g)).

(** ** Vocabulary for the program as a whole *)

(** The only thing printed after a load error is the termination
    message: no menu, no maze, no search result. *)
Fixpoint stops_after_load_error (out : list output) : Prop :=
  match out with
  | [] => True
  | OutLoadError _ :: rest => rest = [OutTerminated]
  | _ :: rest => stops_after_load_error rest
  end.

(** ** Sample data *)

(** The text of a maze file, from its lines. *)
Definition source (ls : list string) : list ascii :=
  unlines (map list_ascii_of_string ls).

(** Globals as they are when the program starts: all zero. *)
Definition zero_grid : grid := mkGrid (fun _ _ => NUL) 0 0 0 0 0 0.
Definition zero_queue : Bfs.queue := Bfs.mkQueue (fun _ => 0) (fun _ => 0) 0 0 [].
Definition zero_dfs : Dfs.state := Dfs.mkState (fun _ _ => 0) (fun _ => 0) (fun _ => 0) 0 0.
Definition zero_world : world :=
  mkWorld zero_grid (mkPlayer 0 0) zero_queue zero_dfs 0.

(** What [load_maze] leaves for a source that loads. *)
Definition loaded_from (s : list ascii) : load_outcome :=
  match load_maze (Some s) zero_grid with
  | Some o => o
  | None => mkLoad 0 None zero_grid
  end.

(** A maze with two shortest routes of four steps, and a maze whose exit
    is walled in. *)
Definition open_maze : list ascii := source ["S.#"; "..."; "#.E"]%string.
Definition closed_maze : list ascii := source ["S.#"; ".#."; ".#E"]%string.

(** A maze whose file is replaced, while the program runs, by one with a
    second row of another length. *)
Definition small_maze : list ascii := source ["S.."; "..E"]%string.
Definition ragged_maze : list ascii := source ["S.."; "#"]%string.
Definition replaced_file (k : nat) : option (list ascii) :=
  match k with
  | O => Some small_maze
  | S _ => Some ragged_maze
  end.

(** The state in which the search loop of [bfs_shortest] ends on the
    open maze. *)
Definition open_maze_search : Bfs.state :=
  match Bfs.bfs_loop (cells_fuel (load_grid (loaded_from open_maze)))
                     (load_grid (loaded_from open_maze))
                     (Bfs.bfs_start (load_grid (loaded_from open_maze)) zero_queue
                                    (fun _ _ => 0) (fun _ _ => 0)) with
  | Some st => st
  | None => Bfs.bfs_start zero_grid zero_queue (fun _ _ => 0) (fun _ _ => 0)
  end.

(** The states in which the top-level depth-first call ends on the two
    mazes, with [rand()] returning 0, 1, 2, ... *)
Definition dfs_end (s : list ascii) : Dfs.state :=
  match Dfs.find_from_start (load_grid (loaded_from s)) (fun k => k) zero_dfs with
  | Some (_, st) => st
  | None => zero_dfs
  end.

(** A source of 107 lines: 106 rows of four characters, then a line of
    another length. *)
Definition tall_source : list ascii :=
  source ("S..E" :: repeat "...."%string 105 ++ ["#"])%string.

(** A source of 106 lines whose second line is shorter than the first. *)
Definition ragged_tall_source : list ascii :=
  source ("S..E" :: "#" :: repeat "...."%string 104)%string.

(** A source of 106 lines of MAXC = 105 characters each: an 'S', 103 dots
    and an 'E', then 105 lines of 105 dots. *)
Definition wide_tall_source : list ascii :=
  wide_source ++ concat (repeat (repeat "."%char 105 ++ [NL]) 105).

(** The grid the reading loop retains for a source. *)
Definition retained_from (s : list ascii) : grid :=
  match read_rows (length s) s (set_rows zero_grid 0) with
  | Some (ReadDone g) => g
  | _ => zero_grid
  end.

(** A maze with two 'S' and two 'E'. *)
Definition twin_maze : list ascii := source ["S.E"; "ES."]%string.

(** A line of the given length without NUL, as a boolean test. *)
Definition row_fits (n : Z) (l : list ascii) : bool :=
  (strlen l =? n) && negb (existsb (Ascii.eqb NUL) l).

(** The reading loop as it acts on the non-empty lines of the source,
    when every line fits the line buffer. *)
Fixpoint store_lines (ls : list (list ascii)) (g : grid) : read_result :=
  match ls with
  | [] => ReadDone g
  | l :: ls' =>
      if negb (rows g =? 0) && negb (strlen l =? cols g)
      then ReadRagged (set_maze g (strcpy_row (maze g) (rows g) l))
      else if rows g + 1 >=? MAXR then ReadDone (store_row g l)
      else store_lines ls' (store_row g l)
  end.

(** A line that [fgets] delivers in one piece and [strlen] measures in
    full: fewer than MAXC characters, none of them NUL. *)
Definition line_fits (l : list ascii) : Prop :=
  strlen l < MAXC /\ ~ In NUL l.

(** ** Vocabulary for further properties of the code *)

(** The queue as a circular buffer: [front] and [rear] are slots of the
    arrays, the entries are the cells from [front] up to, not including,
    [rear], around the end of the arrays. *)
Definition queue_wf (q : Bfs.queue) : Prop :=
  0 <= Bfs.front q < QSIZE /\ 0 <= Bfs.rear q < QSIZE.

Definition queue_size (q : Bfs.queue) : Z :=
  (Bfs.rear q - Bfs.front q) mod QSIZE.

Definition queue_cells (q : Bfs.queue) : list cell :=
  map (fun k => (Bfs.qr q ((Bfs.front q + k) mod QSIZE),
                 Bfs.qc q ((Bfs.front q + k) mod QSIZE)))
      (zseq (queue_size q)).

(** Arithmetic modulo the size of the queue arrays. *)
Ltac qsize_arith :=
  change QSIZE with 11025 in *; Z.to_euclidean_division_equations; lia.

(** Lines that can be the rows of a maze of [n] columns: [n] characters
    each, no newline and no NUL among them. *)
Definition maze_rows (n : Z) (ls : list (list ascii)) : Prop :=
  forall l, In l ls -> strlen l = n /\ ~ In NL l /\ ~ In NUL l.

(** Some line holds the character. *)
Definition holds (ls : list (list ascii)) (ch : ascii) : Prop :=
  exists l, In l ls /\ In ch l.

(** Two sets of globals that hold the same maze: the same size, the same
    start and exit, the same character in every cell of the grid. *)
Definition same_maze (g g' : grid) : Prop :=
  rows g = rows g' /\ cols g = cols g' /\
  start_cell g = start_cell g' /\ exit_cell g = exit_cell g' /\
  forall i j, 0 <= i < rows g -> 0 <= j < cols g -> maze g i j = maze g' i j.

(** Two runs of the reading loop are in step: the same number of rows,
    the same rows, including their terminators. *)
Definition rows_in_step (g g' : grid) : Prop :=
  rows g = rows g' /\
  (rows g <> 0 -> cols g = cols g') /\
  forall i j, 0 <= i < rows g -> 0 <= j <= cols g -> maze g i j = maze g' i j.

(** The position of the player as a cell. *)
Definition player_cell (p : player) : cell := (pr p, pc p).

(** A key that moves in direction [d]. *)
Definition direction_key (d : Z) : ascii :=
  if d =? 0 then "w"%char
  else if d =? 1 then "s"%char
  else if d =? 2 then "a"%char
  else "d"%char.

(** The direction opposite to [d]: up and down, left and right. *)
Definition opposite (d : Z) : Z := arr_of_list [1; 0; 3; 2] d.

(** The last thing printed. *)
Definition last_output (out : list output) : option output := hd_error out.

(** Equality of cells, and membership of a cell in a list of cells, as
    tests. *)
Definition cell_eqb (a b : cell) : bool := (fst a =? fst b) && (snd a =? snd b).

Definition on_path (l : list cell) (i j : Z) : bool := existsb (cell_eqb (i, j)) l.

(** The maze with the cells of [l] marked 'b', except those that hold
    'S' or 'E'. *)
Definition marked (g : grid) (l : list cell) (i j : Z) : ascii :=
  if on_path l i j
     && negb (Ascii.eqb (maze g i j) "S") && negb (Ascii.eqb (maze g i j) "E")
  then "b"%char
  else maze g i j.

(** The number of cardinal moves between two cells when nothing is in
    the way. *)
Definition manhattan (a b : cell) : Z :=
  Z.abs (fst a - fst b) + Z.abs (snd a - snd b).

(** No cell of [l] is marked in [v]. *)
Definition unmarked (v : Z -> Z -> Z) (l : list cell) : Prop :=
  forall p, In p l -> v (fst p) (snd p) = 0.

(** Exchanging the entries [i] and [j] of an array, as the shuffle of
    [dfs_find_one_path] does with [dirs]. *)
Definition swap (dirs : Z -> Z) (i j : Z) : Z -> Z :=
  upd (upd dirs i (dirs j)) j (dirs i).

(** The paths an output announces, most recent first: the number and the
    count of steps of each "Possible Path" line. *)
Definition shown (out : list output) : list (Z * Z) :=
  flat_map (fun o => match o with OutPossiblePath c s => [(c, s)] | _ => [] end) out.

(** Every row of the grid is a C string of [cols] characters: no NUL
    before column [cols], a NUL there. *)
Definition rows_terminated (g : grid) : Prop :=
  forall i, 0 <= i < rows g ->
            (forall j, 0 <= j < cols g -> maze g i j <> NUL) /\ maze g i (cols g) = NUL.

(** The cells of a path other than its first and its last. *)
Definition inner_cells (l : list cell) : list cell := removelast (tl l).

(** A maze with the cells of [l] drawn as carets. *)
Definition with_carets (m : Z -> Z -> ascii) (l : list cell) (i j : Z) : ascii :=
  if on_path l i j then "^"%char else m i j.

(** The lines [load_maze] retains: the first MAXR non-empty lines. *)
Definition kept_lines (s : list ascii) : list (list ascii) :=
  firstn (Z.to_nat MAXR) (non_empty_lines s).

(** All lines are as long as the first. *)
Definition uniform (ls : list (list ascii)) : Prop :=
  forall l, In l ls -> strlen l = strlen (hd [] ls).

(** Two parent matrices agree on the cells marked in [v]. *)
Definition parents_agree (v p p' : Z -> Z -> Z) : Prop :=
  forall r c, v r c <> 0 -> p r c = p' r c.

(** Two states of [bfs_shortest] that differ at most in what the parent
    matrices hold for cells not yet discovered. *)
Definition bfs_agree (st st' : Bfs.state) : Prop :=
  Bfs.q st = Bfs.q st' /\
  Bfs.visited st = Bfs.visited st' /\
  Bfs.found st = Bfs.found st' /\
  parents_agree (Bfs.visited st) (Bfs.parent_r st) (Bfs.parent_r st') /\
  parents_agree (Bfs.visited st) (Bfs.parent_c st) (Bfs.parent_c st').

(** ** Sample data for the further properties *)

(** Evaluation of a closed statement made of equations and comparisons. *)
Ltac by_eval := vm_compute; repeat split; solve [reflexivity | discriminate].

(** A queue with one entry, and a queue whose QSIZE - 1 entries fill the
    arrays: [front] is one slot past [rear]. *)
Definition one_entry_queue : Bfs.queue := Bfs.queue_push zero_queue 1 2.
Definition full_queue : Bfs.queue := Bfs.mkQueue (fun _ => 0) (fun _ => 0) 1 0 [].

(** The rows of the open maze, and the globals after loading the open
    and the closed maze. *)
Definition open_rows : list (list ascii) :=
  map list_ascii_of_string ["S.#"; "..."; "#.E"]%string.
Definition open_grid : grid := load_grid (loaded_from open_maze).
Definition closed_grid : grid := load_grid (loaded_from closed_maze).

(** The open maze loaded over the globals the closed maze has left. *)
Definition reloaded_open : load_outcome :=
  match load_maze (Some open_maze) closed_grid with
  | Some o => o
  | None => mkLoad 0 None zero_grid
  end.

(** A file of two empty lines. *)
Definition blank_source : list ascii := [NL; NL].

(** What [bfs_shortest] returns on the two mazes. *)
Definition shortest_of (g : grid) : Bfs.report * grid * Bfs.queue :=
  match Bfs.bfs_shortest g zero_queue (fun _ _ => 0) (fun _ _ => 0) with
  | Some r => r
  | None => (Bfs.NoPathExists, zero_grid, zero_queue)
  end.

(** Four keys that win the open maze, and manual play with them on the
    two mazes. *)
Definition winning_keys : list ascii := ["s"; "d"; "d"; "s"]%char.
Definition play_of (g : grid) : player * list ascii * list output * ending :=
  play_manual g winning_keys [].

(** A file that holds a maze at the first load and a text without
    markers afterwards. *)
Definition bare_maze : list ascii := source ["..."; "..."]%string.
Definition emptied_file (k : nat) : option (list ascii) :=
  match k with
  | O => Some small_maze
  | S _ => Some bare_maze
  end.

(** * Homework 1 (increasing_subsequence_len.c)

    The program reads integers until it reads -1 and prints the length
    of the longest run of strictly increasing consecutive numbers.  All
    its variables are C [int]s, every one initialised at its declaration
    ([max_len = 0, current_len = 1, prev = 0, num = 0]).  What the calls
    of [scanf_s("%d", &num)] find is a list of entries; the program never
    looks at what [scanf_s] returns. *)

Module Homework01.

(** How a run ends. *)
Inductive outcome : Type :=
| Printed (max_len : Z)   (* the loop is left and [max_len] is printed *)
| AwaitsInput             (* [scanf_s] waits for a number not entered yet *)
| NeverEnds               (* the loop is never left *)
| Undefined.              (* a value no [int] holds: the C source decides nothing *)

(** The body of the [while (num != -1)] loop up to [prev = num]: the new
    values of [max_len] and [current_len]; [None] when [current_len++]
    would leave the range of [int]. *)
Definition step (max_len current_len prev num : Z) : option (Z * Z) :=
  if num >? prev then
    if current_len <? INT_MAX then
      let current_len1 := current_len + 1 in
      Some (if current_len1 >? max_len then current_len1 else max_len, current_len1)
    else None
  else
    Some (if current_len >? max_len then current_len else max_len, 1).

(** The loop, entered with [num] just read and [nums] still to come.
    When [scanf_s] cannot convert what comes next, [num] keeps its value,
    which is not -1 inside the loop, and the entry stays where it is: the
    body is repeated for ever with [num = prev] (so [current_len] is set
    back to 1 each time). *)
Fixpoint loop (nums : list entry) (max_len current_len prev num : Z) : outcome :=
  if negb (num =? -1) then
    match step max_len current_len prev num with
    | None => Undefined
    | Some (max_len1, current_len1) =>
        match nums with
        | [] => AwaitsInput
        | NoNumber :: _ => NeverEnds
        | Number next :: nums' =>
            if int_ok next then loop nums' max_len1 current_len1 num next
            else Undefined
        end
    end
  else Printed max_len.

(** [main]: the first read, then the loop.  When the first read converts
    nothing, [num] is still the 0 of its declaration. *)
Definition main (nums : list entry) : outcome :=
  match nums with
  | [] => AwaitsInput
  | NoNumber :: _ => loop nums 0 1 0 0
  | Number num :: nums' =>
      if int_ok num then loop nums' 0 1 num num else Undefined
  end.

(** Each number is less than the next. *)
Fixpoint increasing (l : list Z) : Prop :=
  match l with
  | a :: (b :: _) as l' => a < b /\ increasing l'
  | _ => True
  end.

(** [r] is a run of [l]: consecutive elements of it. *)
Definition run_of (l r : list Z) : Prop :=
  exists before after, l = before ++ r ++ after.

(** [r] ends [l]: it is a suffix of it. *)
Definition ends (l r : list Z) : Prop := exists before, l = before ++ r.

(** What the loop has established when the numbers [done] have been
    processed: [current_len] is the length of the longest increasing run
    that ends [done], [max_len] the length of the longest increasing run
    of [done]. *)
Record processed (done : list Z) (max_len current_len prev : Z) : Prop := mkProcessed {
  proc_last : last done 0 = prev;
  proc_nonempty : done <> [];
  proc_current : exists r, ends done r /\ increasing r /\ r <> [] /\
                           Z.of_nat (length r) = current_len;
  proc_current_max : forall r, ends done r -> increasing r ->
                               Z.of_nat (length r) <= current_len;
  proc_max : exists r, run_of done r /\ increasing r /\ Z.of_nat (length r) = max_len;
  proc_max_max : forall r, run_of done r -> increasing r -> Z.of_nat (length r) <= max_len
}.

End Homework01.

(** * Proofs *)

(** ** Arrays and index ranges *)

Lemma upd_same {A} (a : Z -> A) i v : upd a i v i = v.
Proof. unfold upd. now rewrite Z.eqb_refl. Qed.

Lemma upd_other {A} (a : Z -> A) i v k : k <> i -> upd a i v k = a k.
Proof. unfold upd. intros H. apply Z.eqb_neq in H. now rewrite H. Qed.

Lemma upd2_same {A} (m : Z -> Z -> A) i j v : upd2 m i j v i j = v.
Proof. unfold upd2. now rewrite !Z.eqb_refl. Qed.

Lemma upd2_other {A} (m : Z -> Z -> A) i j v r c :
  (r, c) <> (i, j) -> upd2 m i j v r c = m r c.
Proof.
  unfold upd2. intros H.
  destruct (Z.eqb_spec r i); destruct (Z.eqb_spec c j); simpl; subst; congruence.
Qed.

Lemma upd2_cases {A} (m : Z -> Z -> A) i j v r c :
  ((r, c) = (i, j) /\ upd2 m i j v r c = v) \/
  ((r, c) <> (i, j) /\ upd2 m i j v r c = m r c).
Proof.
  destruct (Z.eq_dec r i) as [-> | N1]; [destruct (Z.eq_dec c j) as [-> | N2] | ].
  - left. split; [reflexivity | apply upd2_same].
  - right. split; [congruence | apply upd2_other; congruence].
  - right. split; [congruence | apply upd2_other; congruence].
Qed.

Lemma cell_eq_dec (a b : cell) : a = b \/ a <> b.
Proof.
  destruct a as [r c], b as [r' c'].
  destruct (Z.eq_dec r r'); destruct (Z.eq_dec c c'); subst;
    (left; reflexivity) || (right; congruence).
Qed.

Lemma in_zseq n i : In i (zseq n) <-> 0 <= i < n.
Proof.
  unfold zseq. rewrite in_map_iff. split.
  - intros (k & <- & H). apply in_seq in H. lia.
  - intros H. exists (Z.to_nat i). split; [lia | apply in_seq; lia].
Qed.

Lemma zseq_length n : length (zseq n) = Z.to_nat n.
Proof. unfold zseq. now rewrite length_map, length_seq. Qed.

Lemma zseq_succ n : 0 <= n -> zseq (n + 1) = zseq n ++ [n].
Proof.
  intros H. unfold zseq.
  replace (Z.to_nat (n + 1)) with (S (Z.to_nat n)) by lia.
  rewrite seq_S, map_app. simpl. f_equal. f_equal. lia.
Qed.

Lemma zseq_nonpos n : n <= 0 -> zseq n = [].
Proof. intros H. unfold zseq. now replace (Z.to_nat n) with O by lia. Qed.

Lemma zseq_NoDup n : NoDup (zseq n).
Proof.
  unfold zseq. apply Injective_map_NoDup.
  - intros a b H. lia.
  - apply seq_NoDup.
Qed.

Lemma zseq_4 : zseq 4 = [0; 1; 2; 3].
Proof. reflexivity. Qed.

Lemma map_ext_zseq {A} (f h : Z -> A) n :
  (forall i, 0 <= i < n -> f i = h i) -> map f (zseq n) = map h (zseq n).
Proof. intros H. apply map_ext_in. intros i Hi. apply H. now apply in_zseq. Qed.

Lemma last_default {A} (l : list A) (d d' : A) :
  l <> [] -> last l d = last l d'.
Proof.
  induction l as [ | a l IH]; intros H; [congruence | ].
  destruct l as [ | b l']; [reflexivity | ].
  change (last (b :: l') d = last (b :: l') d'). apply IH. discriminate.
Qed.

Lemma in_firstn {A} n (l : list A) x : In x (firstn n l) -> In x l.
Proof. intros H. rewrite <- (firstn_skipn n l). apply in_or_app. now left. Qed.

(** ** Cells, neighbours, validity *)

Lemma dr_0 : dr 0 = -1. Proof. reflexivity. Qed.
Lemma dr_1 : dr 1 = 1. Proof. reflexivity. Qed.
Lemma dr_2 : dr 2 = 0. Proof. reflexivity. Qed.
Lemma dr_3 : dr 3 = 0. Proof. reflexivity. Qed.
Lemma dc_0 : dc 0 = 0. Proof. reflexivity. Qed.
Lemma dc_1 : dc 1 = 0. Proof. reflexivity. Qed.
Lemma dc_2 : dc 2 = -1. Proof. reflexivity. Qed.
Lemma dc_3 : dc 3 = 1. Proof. reflexivity. Qed.

Lemma dir_cases d : 0 <= d < 4 -> d = 0 \/ d = 1 \/ d = 2 \/ d = 3.
Proof. lia. Qed.

Lemma is_valid_spec g r c :
  is_valid g r c = true <-> passable g (r, c).
Proof.
  unfold is_valid, passable, in_bounds. simpl.
  destruct (Z.ltb_spec r 0); destruct (Z.geb_spec r (rows g));
    destruct (Z.ltb_spec c 0); destruct (Z.geb_spec c (cols g)); simpl;
    try (split; [discriminate | intros ((? & ?) & ?); lia]).
  destruct (Ascii.eqb_spec (maze g r c) "#") as [E | E].
  - split; [discriminate | intros (_ & N); contradiction].
  - split; [intros _; repeat split; try lia; assumption | reflexivity].
Qed.

Lemma is_valid_false g r c :
  is_valid g r c = false <-> ~ passable g (r, c).
Proof.
  rewrite <- is_valid_spec. destruct (is_valid g r c); split; congruence.
Qed.

Lemma adjacent_nbr p d : 0 <= d < 4 -> adjacent p (nbr p d).
Proof.
  intros H. unfold adjacent, nbr. simpl.
  destruct (dir_cases d H) as [-> | [-> | [-> | ->]]];
    rewrite ?dr_0, ?dr_1, ?dr_2, ?dr_3, ?dc_0, ?dc_1, ?dc_2, ?dc_3; lia.
Qed.

Lemma adjacent_is_nbr a b : adjacent a b -> exists d, 0 <= d < 4 /\ b = nbr a d.
Proof.
  destruct a as [r c], b as [r' c']. unfold adjacent, nbr. simpl. intros H.
  assert (C : (r' = r - 1 /\ c' = c) \/ (r' = r + 1 /\ c' = c) \/
              (r' = r /\ c' = c - 1) \/ (r' = r /\ c' = c + 1)) by lia.
  destruct C as [[-> ->] | [[-> ->] | [[-> ->] | [-> ->]]]].
  - exists 0. rewrite dr_0, dc_0. split; [lia | f_equal; lia].
  - exists 1. rewrite dr_1, dc_1. split; [lia | f_equal; lia].
  - exists 2. rewrite dr_2, dc_2. split; [lia | f_equal; lia].
  - exists 3. rewrite dr_3, dc_3. split; [lia | f_equal; lia].
Qed.

Lemma adjacent_sym a b : adjacent a b -> adjacent b a.
Proof. unfold adjacent. lia. Qed.

Lemma adjacent_neq a b : adjacent a b -> a <> b.
Proof. unfold adjacent. intros H ->. lia. Qed.

(** ** Manual play *)

(** C9.  For every input character: when the character names no direction,
    or the cell one cardinal step away in the named direction is out of
    bounds or a wall, [move_player] leaves (pr, pc) as it was; when that
    cell is in bounds and passable, the new position is the old one plus
    exactly the delta of that direction. *)
Theorem move_player_position (g : grid) (p : player) (ch : ascii) :
  fst (move_player g p ch) =
  match key_direction ch with
  | None => p
  | Some d =>
      if is_valid g (pr p + dr d) (pc p + dc d)
      then mkPlayer (pr p + dr d) (pc p + dc d)
      else p
  end.
Proof.
  unfold move_player, key_direction.
  destruct (Ascii.eqb ch "w" || Ascii.eqb ch "W");
    [ | destruct (Ascii.eqb ch "s" || Ascii.eqb ch "S");
        [ | destruct (Ascii.eqb ch "a" || Ascii.eqb ch "A");
            [ | destruct (Ascii.eqb ch "d" || Ascii.eqb ch "D") ] ] ];
    rewrite ?dr_0, ?dr_1, ?dr_2, ?dr_3, ?dc_0, ?dc_1, ?dc_2, ?dc_3,
      ?Z.add_0_r;
    change (pr p + -1) with (pr p - 1);
    change (pc p + -1) with (pc p - 1);
    try reflexivity;
    match goal with
    | |- context [is_valid ?g ?a ?b] => destruct (is_valid g a b); reflexivity
    end.
Qed.

(** ** Reading lines *)

Lemma fgets_chars_split n : forall s,
  fst (fgets_chars n s) ++ snd (fgets_chars n s) = s.
Proof.
  induction n as [ | n IH]; intros s; [reflexivity | ].
  destruct s as [ | ch s]; [reflexivity | ]. simpl.
  destruct (Ascii.eqb ch NL); [reflexivity | ].
  specialize (IH s). destruct (fgets_chars n s) as [l rest]. simpl in *.
  now rewrite IH.
Qed.

Lemma fgets_chars_length n : forall s,
  (length (fst (fgets_chars n s)) <= n)%nat.
Proof.
  induction n as [ | n IH]; intros s; [simpl; lia | ].
  destruct s as [ | ch s]; [simpl; lia | ]. simpl.
  destruct (Ascii.eqb ch NL); [simpl; lia | ].
  specialize (IH s). destruct (fgets_chars n s) as [l rest]. simpl in *. lia.
Qed.

Lemma fgets_chars_progress n s :
  (0 < n)%nat -> s <> [] ->
  (length (snd (fgets_chars n s)) < length s)%nat.
Proof.
  intros Hn Hs. destruct n as [ | n]; [lia | ].
  destruct s as [ | ch s]; [congruence | ].
  pose proof (fgets_chars_split (S n) (ch :: s)) as H.
  apply (f_equal (@length ascii)) in H. rewrite length_app in H.
  cbn [fgets_chars] in *. destruct (Ascii.eqb ch NL); [simpl in *; lia | ].
  destruct (fgets_chars n s) as [l rest]. simpl in *. lia.
Qed.

Lemma line_room_val : line_room = 104%nat.
Proof. reflexivity. Qed.

Lemma fgets_unfold s :
  fgets MAXC s = match s with [] => None | _ :: _ => Some (fgets_chars line_room s) end.
Proof. reflexivity. Qed.

Global Opaque line_room.

Lemma fgets_progress s buf rest :
  fgets MAXC s = Some (buf, rest) ->
  (length rest < length s)%nat /\ (length buf <= 104)%nat.
Proof.
  rewrite fgets_unfold. destruct s as [ | ch s]; [discriminate | ].
  intros H. injection H as E. pose proof line_room_val as Hroom.
  split.
  - replace rest with (snd (fgets_chars line_room (ch :: s))) by now rewrite E.
    apply fgets_chars_progress; [lia | discriminate].
  - replace buf with (fst (fgets_chars line_room (ch :: s))) by now rewrite E.
    rewrite <- Hroom. apply fgets_chars_length.
Qed.

Lemma c_string_length buf : (length (c_string buf) <= length buf)%nat.
Proof.
  induction buf as [ | ch buf IH]; simpl; [lia | ].
  destruct (Ascii.eqb ch NUL); simpl; lia.
Qed.

Lemma strip_newline_length l : (length (strip_newline l) <= length l)%nat.
Proof.
  unfold strip_newline.
  destruct ((strlen l >? 0) && _); [ | lia].
  rewrite length_firstn. lia.
Qed.

(** ** The reading loop *)

Lemma rows_store_row g l : rows (store_row g l) = rows g + 1.
Proof. unfold store_row. simpl. destruct (rows g =? 0); reflexivity. Qed.

Lemma cols_store_row g l :
  cols (store_row g l) = if rows g =? 0 then strlen l else cols g.
Proof. unfold store_row. simpl. destruct (rows g =? 0); reflexivity. Qed.

Lemma maze_store_row g l :
  maze (store_row g l) = strcpy_row (maze g) (rows g) l.
Proof. unfold store_row. simpl. destruct (rows g =? 0); reflexivity. Qed.

(** One iteration of the reading loop. *)
Lemma read_rows_step fuel s g buf rest :
  fgets MAXC s = Some (buf, rest) ->
  read_rows (S fuel) s g =
  let line := strip_newline (c_string buf) in
  if strlen line =? 0 then read_rows fuel rest g
  else if negb (rows g =? 0) && negb (strlen line =? cols g)
  then Some (ReadRagged (set_maze g (strcpy_row (maze g) (rows g) line)))
  else if rows g + 1 >=? MAXR then Some (ReadDone (store_row g line))
  else read_rows fuel rest (store_row g line).
Proof.
  intros Hget. cbn [read_rows]. rewrite Hget. cbv zeta.
  destruct (strlen (strip_newline (c_string buf)) =? 0); [reflexivity | ].
  unfold store_row. cbn [set_maze rows cols].
  destruct (rows g =? 0); cbn [negb andb set_cols set_rows rows cols].
  - reflexivity.
  - destruct (strlen (strip_newline (c_string buf)) =? cols g); reflexivity.
Qed.

Lemma read_rows_eof fuel g : read_rows fuel [] g = Some (ReadDone g).
Proof. destruct fuel; reflexivity. Qed.

Lemma read_rows_total : forall fuel s g,
  (length s <= fuel)%nat -> rows_ok g ->
  exists r, read_rows fuel s g = Some r /\
            match r with
            | ReadRagged g1 => rows_done g1
            | ReadDone g1 => rows_done g1
            end.
Proof.
  induction fuel as [ | fuel IH]; intros s g Hfuel Hok.
  - destruct s; [ | simpl in Hfuel; lia]. simpl. exists (ReadDone g).
    split; [reflexivity | ]. destruct Hok. split; [lia | assumption].
  - destruct (fgets MAXC s) as [[buf rest] | ] eqn:Hget.
    2: { destruct s; [ | discriminate]. rewrite read_rows_eof.
         exists (ReadDone g). split; [reflexivity | ].
         destruct Hok. split; [lia | assumption]. }
    rewrite (read_rows_step _ _ _ _ _ Hget). cbv zeta.
    destruct (fgets_progress _ _ _ Hget) as [Hprog Hbuf].
    set (line := strip_newline (c_string buf)).
    assert (Hlen : strlen line <= 104).
    { unfold strlen, line. pose proof (strip_newline_length (c_string buf)).
      pose proof (c_string_length buf). lia. }
    destruct (Z.eqb_spec (strlen line) 0) as [Hz | Hnz].
    { apply IH; [lia | assumption]. }
    assert (Hpos : 0 < strlen line) by (unfold strlen in *; lia).
    destruct Hok as [Hr Hc].
    assert (Hstored : rows_done (store_row g line) /\
                      (rows g + 1 < MAXR -> rows_ok (store_row g line))).
    { unfold rows_done, rows_ok. rewrite rows_store_row, cols_store_row.
      destruct (Z.eqb_spec (rows g) 0); unfold MAXC, MAXR in *; lia. }
    destruct (Z.eqb_spec (rows g) 0) as [Hr0 | Hr0]; cbn [negb andb].
    + destruct (Z.geb_spec (rows g + 1) MAXR) as [Hcap | Hcap].
      * eexists. split; [reflexivity | ]. apply Hstored.
      * apply IH; [lia | ]. apply Hstored. lia.
    + destruct (Z.eqb_spec (strlen line) (cols g)) as [He | He]; cbn [negb].
      * destruct (Z.geb_spec (rows g + 1) MAXR) as [Hcap | Hcap].
        -- eexists. split; [reflexivity | ]. apply Hstored.
        -- apply IH; [lia | ]. apply Hstored. lia.
      * eexists. split; [reflexivity | ]. unfold rows_done. simpl. lia.
Qed.

(** ** The marker scan *)

Lemma in_row_major g p : In p (row_major g) <-> in_bounds g p.
Proof.
  unfold row_major, in_bounds. rewrite in_flat_map. split.
  - intros (i & Hi & Hp). apply in_map_iff in Hp. destruct Hp as (j & <- & Hj).
    apply in_zseq in Hi, Hj. simpl. lia.
  - intros [Hr Hc]. exists (fst p). split; [now apply in_zseq | ].
    apply in_map_iff. exists (snd p). split; [now destruct p | now apply in_zseq].
Qed.

Lemma fold_left_flat_map {A B C} (f : A -> C -> A) (h : B -> list C) (l : list B) :
  forall a,
    fold_left f (flat_map h l) a = fold_left (fun a x => fold_left f (h x) a) l a.
Proof.
  induction l as [ | x l IH]; intros a; [reflexivity | ].
  simpl. now rewrite fold_left_app, IH.
Qed.

Lemma fold_left_map {A B C} (f : A -> C -> A) (h : B -> C) (l : list B) :
  forall a, fold_left f (map h l) a = fold_left (fun a x => f a (h x)) l a.
Proof. induction l as [ | x l IH]; intros a; [reflexivity | simpl; apply IH]. Qed.

Lemma fold_left_pointwise {A B} (f h : A -> B -> A) (l : list B) :
  (forall a x, f a x = h a x) ->
  forall a, fold_left f l a = fold_left h l a.
Proof.
  intros H. induction l as [ | x l IH]; intros a; [reflexivity | ].
  simpl. now rewrite H, IH.
Qed.

(** The two nested loops visit the cells in row-major order. *)
Lemma scan_markers_fold g :
  scan_markers g =
  fold_left (fun g1 p => scan_cell g1 (fst p) (snd p)) (row_major g) g.
Proof.
  unfold scan_markers, row_major. rewrite fold_left_flat_map.
  apply fold_left_pointwise. intros g1 i. now rewrite fold_left_map.
Qed.

Lemma scan_cell_frame g i j :
  maze (scan_cell g i j) = maze g /\ rows (scan_cell g i j) = rows g /\
  cols (scan_cell g i j) = cols g.
Proof.
  unfold scan_cell.
  destruct (Ascii.eqb (maze g i j) "S"); simpl;
    destruct (Ascii.eqb (maze g i j) "E"); simpl; auto.
Qed.

Lemma scan_cell_start g i j :
  (sr (scan_cell g i j), sc (scan_cell g i j)) =
  if Ascii.eqb (maze g i j) "S" then (i, j) else (sr g, sc g).
Proof.
  unfold scan_cell.
  destruct (Ascii.eqb (maze g i j) "S"); simpl;
    destruct (Ascii.eqb (maze g i j) "E"); reflexivity.
Qed.

Lemma scan_cell_exit g i j :
  (er (scan_cell g i j), ec (scan_cell g i j)) =
  if Ascii.eqb (maze g i j) "E" then (i, j) else (er g, ec g).
Proof.
  unfold scan_cell.
  destruct (Ascii.eqb (maze g i j) "S"); simpl;
    destruct (Ascii.eqb (maze g i j) "E"); reflexivity.
Qed.

Lemma last_seen_snoc m ch l before p q :
  last_seen m ch l before p ->
  last_seen m ch (l ++ [q]) before
            (if Ascii.eqb (m (fst q) (snd q)) ch then q else p).
Proof.
  intros H. destruct (Ascii.eqb_spec (m (fst q) (snd q)) ch) as [E | N].
  - right. exists l, []. split; [reflexivity | ]. split; [assumption | intros ? []].
  - destruct H as [[Hnone ->] | (l1 & l2 & -> & Hp & Hafter)].
    + left. split; [ | reflexivity]. intros x Hx. apply in_app_iff in Hx.
      destruct Hx as [Hx | [<- | []]]; [now apply Hnone | assumption].
    + right. exists l1, (l2 ++ [q]). split; [now rewrite <- app_assoc | ].
      split; [assumption | ]. intros x Hx. apply in_app_iff in Hx.
      destruct Hx as [Hx | [<- | []]]; [now apply Hafter | assumption].
Qed.

Lemma scan_fold_spec g : forall l,
  let g' := fold_left (fun g1 p => scan_cell g1 (fst p) (snd p)) l g in
  maze g' = maze g /\ rows g' = rows g /\ cols g' = cols g /\
  last_seen (maze g) "S" l (sr g, sc g) (sr g', sc g') /\
  last_seen (maze g) "E" l (er g, ec g) (er g', ec g').
Proof.
  induction l as [ | q l IH] using rev_ind.
  - simpl. repeat split; left; split; auto; intros ? [].
  - rewrite fold_left_app. cbn [fold_left]. destruct q as [qi qj].
    set (g1 := fold_left _ l g) in *. cbv zeta in IH. cbn [fst snd].
    destruct IH as (Hm & Hr & Hc & HS & HE).
    destruct (scan_cell_frame g1 qi qj) as (Hm1 & Hr1 & Hc1).
    cbv zeta. rewrite Hm1, Hr1, Hc1, scan_cell_start, scan_cell_exit, Hm.
    repeat split; try assumption.
    + apply (last_seen_snoc (maze g) "S" l _ _ (qi, qj)). assumption.
    + apply (last_seen_snoc (maze g) "E" l _ _ (qi, qj)). assumption.
Qed.

Lemma scan_markers_spec g :
  let g' := scan_markers g in
  maze g' = maze g /\ rows g' = rows g /\ cols g' = cols g /\
  last_seen (maze g) "S" (row_major g) (sr g, sc g) (sr g', sc g') /\
  last_seen (maze g) "E" (row_major g) (er g, ec g) (er g', ec g').
Proof. rewrite scan_markers_fold. apply scan_fold_spec. Qed.

(** ** [load_maze] *)

Lemma rows_ok_reset g : rows_ok (set_rows g 0).
Proof. unfold rows_ok, MAXR. simpl. lia. Qed.

(** The reading loop always ends within the fuel [load_maze] gives it. *)
Lemma read_phase_total s g :
  exists r, read_rows (length s) s (set_rows g 0) = Some r /\
            match r with
            | ReadRagged g1 => rows_done g1
            | ReadDone g1 => rows_done g1
            end.
Proof. apply read_rows_total; [lia | apply rows_ok_reset]. Qed.

Lemma load_maze_total file g : exists o, load_maze file g = Some o.
Proof.
  unfold load_maze. destruct file as [s | ]; [ | eexists; reflexivity].
  destruct (read_phase_total s g) as (r & -> & _).
  destruct r as [g1 | g1]; [eexists; reflexivity | ].
  destruct ((rows g1 =? 0) || (cols g1 =? 0)); [eexists; reflexivity | ].
  destruct ((sr _ =? -1) || (er _ =? -1)); eexists; reflexivity.
Qed.

(** What a return value of 1 means. *)
Lemma load_maze_success file g o :
  load_maze file g = Some o -> load_ret o = 1 ->
  exists s g1,
    file = Some s /\
    read_rows (length s) s (set_rows g 0) = Some (ReadDone g1) /\
    rows g1 <> 0 /\ cols g1 <> 0 /\
    load_grid o = scan_markers (scan_init g1) /\
    sr (load_grid o) <> -1 /\ er (load_grid o) <> -1 /\
    load_msg o = None.
Proof.
  unfold load_maze. destruct file as [s | ].
  2: { intros H. injection H as <-. discriminate. }
  destruct (read_rows (length s) s (set_rows g 0)) as [[g1 | g1] | ] eqn:Hread;
    try discriminate.
  { intros H. injection H as <-. discriminate. }
  destruct (Z.eqb_spec (rows g1) 0) as [Hr | Hr]; cbn [orb].
  { intros H. injection H as <-. discriminate. }
  destruct (Z.eqb_spec (cols g1) 0) as [Hc | Hc]; cbn [orb].
  { intros H. injection H as <-. discriminate. }
  fold (scan_init g1).
  destruct (Z.eqb_spec (sr (scan_markers (scan_init g1))) (-1)) as [Hs | Hs]; cbn [orb].
  { intros H. injection H as <-. discriminate. }
  destruct (Z.eqb_spec (er (scan_markers (scan_init g1))) (-1)) as [He | He].
  { intros H. injection H as <-. discriminate. }
  intros H _. injection H as <-. exists s, g1. simpl. auto 10.
Qed.

Lemma last_seen_found g ch p :
  last_seen (maze g) ch (row_major g) (-1, -1) p ->
  fst p <> -1 \/ occurs g ch ->
  last_occurrence g ch p /\ in_bounds g p.
Proof.
  intros [[Hnone ->] | (l1 & l2 & Hl & Hp & Hafter)] Hocc.
  - exfalso. destruct Hocc as [Hocc | (q & Hq & Hm)]; [now apply Hocc | ].
    now apply (Hnone q).
  - split; [now exists l1, l2 | ].
    apply in_row_major. rewrite Hl. apply in_elt.
Qed.

Lemma row_major_scan_init g : row_major (scan_init g) = row_major g.
Proof. reflexivity. Qed.

(** A successful load leaves a well-formed grid. *)
Lemma load_maze_loaded file g o :
  load_maze file g = Some o -> load_ret o = 1 -> loaded (load_grid o).
Proof.
  intros Hload Hret.
  destruct (load_maze_success _ _ _ Hload Hret)
    as (s & g1 & -> & Hread & Hr & Hc & Hg & Hs & He & _).
  destruct (read_phase_total s g) as (r & Hr' & Hdone).
  rewrite Hread in Hr'. injection Hr' as <-.
  destruct Hdone as [Hrows Hcols].
  destruct (scan_markers_spec (scan_init g1)) as (Hm & Hrw & Hcl & HS & HE).
  rewrite <- Hg in *. change (maze (scan_init g1)) with (maze g1) in *.
  change (rows (scan_init g1)) with (rows g1) in *.
  change (cols (scan_init g1)) with (cols g1) in *.
  destruct (last_seen_found (scan_init g1) "S" _ HS) as [(b1 & a1 & _ & HmS & _) HbS];
    [left; exact Hs | ].
  destruct (last_seen_found (scan_init g1) "E" _ HE) as [(b2 & a2 & _ & HmE & _) HbE];
    [left; exact He | ].
  constructor; unfold in_bounds, start_cell, exit_cell in *; cbn [fst snd] in *;
    rewrite ?Hrw, ?Hcl, ?Hm; try assumption; lia.
Qed.

(** C8.  When the grid retained by the reading loop holds at least one
    'S' and at least one 'E' -- possibly several of either --
    [load_maze] succeeds, the grid it leaves is the retained one, and the
    start and exit coordinates are those of the last 'S' and of the last
    'E' met in a row-major scan of that grid. *)
Theorem load_maze_last_markers (s : list ascii) (g g1 : grid) :
  read_rows (length s) s (set_rows g 0) = Some (ReadDone g1) ->
  rows g1 <> 0 -> cols g1 <> 0 ->
  occurs g1 "S" -> occurs g1 "E" ->
  exists o,
    load_maze (Some s) g = Some o /\
    load_ret o = 1 /\ load_msg o = None /\
    maze (load_grid o) = maze g1 /\
    rows (load_grid o) = rows g1 /\ cols (load_grid o) = cols g1 /\
    last_occurrence g1 "S" (start_cell (load_grid o)) /\
    last_occurrence g1 "E" (exit_cell (load_grid o)).
Proof.
  intros Hread Hr Hc HoS HoE.
  destruct (scan_markers_spec (scan_init g1)) as (Hm & Hrw & Hcl & HS & HE).
  destruct (last_seen_found (scan_init g1) "S" _ HS) as [HlS HbS];
    [right; exact HoS | ].
  destruct (last_seen_found (scan_init g1) "E" _ HE) as [HlE HbE];
    [right; exact HoE | ].
  exists (mkLoad 1 None (scan_markers (scan_init g1))).
  split.
  - unfold load_maze. rewrite Hread.
    destruct (Z.eqb_spec (rows g1) 0) as [? | _]; [contradiction | ].
    destruct (Z.eqb_spec (cols g1) 0) as [? | _]; [contradiction | ].
    cbn [orb]. fold (scan_init g1).
    destruct HbS as [HbS _]. destruct HbE as [HbE _]. cbn [fst] in HbS, HbE.
    destruct (Z.eqb_spec (sr (scan_markers (scan_init g1))) (-1)); [lia | ].
    destruct (Z.eqb_spec (er (scan_markers (scan_init g1))) (-1)); [lia | ].
    reflexivity.
  - cbn [load_ret load_msg load_grid].
    repeat (split; [assumption || reflexivity | ]). assumption.
Qed.

(** ** Lines of the source and rows of the grid *)

Lemma NL_not_NUL : NL <> NUL.
Proof. discriminate. Qed.

Lemma lines_of_line l s :
  ~ In NL l -> lines_of (l ++ NL :: s) = l :: lines_of s.
Proof.
  induction l as [ | ch l IH]; intros Hl.
  - reflexivity.
  - simpl. destruct (Ascii.eqb_spec ch NL) as [-> | _].
    + exfalso. apply Hl. now left.
    + rewrite IH; [reflexivity | ]. intros H. apply Hl. now right.
Qed.

Lemma lines_of_unterminated l :
  ~ In NL l -> l <> [] -> lines_of l = [l].
Proof.
  induction l as [ | ch l IH]; intros Hl Hne; [congruence | ].
  simpl. destruct (Ascii.eqb_spec ch NL) as [-> | _].
  - exfalso. apply Hl. now left.
  - destruct l as [ | ch' l']; [reflexivity | ].
    rewrite IH; [reflexivity | | discriminate]. intros H. apply Hl. now right.
Qed.

(** A text starts with a line that a newline ends, or holds no newline. *)
Lemma first_line s :
  (exists l s', s = l ++ NL :: s' /\ ~ In NL l) \/ ~ In NL s.
Proof.
  induction s as [ | ch s IH]; [right; intros [] | ].
  destruct (Ascii.eqb_spec ch NL) as [-> | Hne].
  - left. exists [], s. split; [reflexivity | intros []].
  - destruct IH as [(l & s' & -> & Hl) | Hno].
    + left. exists (ch :: l), s'. split; [reflexivity | ].
      intros [E | H]; [now apply Hne | now apply Hl].
    + right. intros [E | H]; [now apply Hne | now apply Hno].
Qed.

Lemma lines_of_no_newline s : forall l, In l (lines_of s) -> ~ In NL l.
Proof.
  induction s as [ | ch s IH]; intros l Hin; [destruct Hin | ].
  simpl in Hin. destruct (Ascii.eqb_spec ch NL) as [-> | Hne].
  - destruct Hin as [<- | Hin]; [intros [] | now apply IH].
  - destruct (lines_of s) as [ | l0 ls].
    + destruct Hin as [<- | []]. intros [E | []]. now apply Hne.
    + destruct Hin as [<- | Hin].
      * intros [E | H]; [now apply Hne | ]. apply (IH l0); [now left | assumption].
      * apply IH. now right.
Qed.

Lemma fgets_chars_short n : forall l rest,
  ~ In NL l -> (length l < n)%nat ->
  fgets_chars n (l ++ NL :: rest) = (l ++ [NL], rest).
Proof.
  induction n as [ | n IH]; intros l rest Hl Hlen; [lia | ].
  destruct l as [ | ch l]; simpl.
  - reflexivity.
  - destruct (Ascii.eqb_spec ch NL) as [-> | _].
    + exfalso. apply Hl. now left.
    + rewrite IH; [reflexivity | | simpl in Hlen; lia].
      intros H. apply Hl. now right.
Qed.

Lemma fgets_chars_full n : forall l rest,
  ~ In NL l -> length l = n ->
  fgets_chars n (l ++ rest) = (l, rest).
Proof.
  induction n as [ | n IH]; intros l rest Hl Hlen.
  - destruct l; [ | discriminate]. simpl. now destruct rest.
  - destruct l as [ | ch l]; [discriminate | ]. simpl.
    destruct (Ascii.eqb_spec ch NL) as [-> | _].
    + exfalso. apply Hl. now left.
    + rewrite IH; [reflexivity | | simpl in Hlen; lia].
      intros H. apply Hl. now right.
Qed.

Lemma fgets_chars_eof n : forall l,
  ~ In NL l -> (length l <= n)%nat -> fgets_chars n l = (l, []).
Proof.
  induction n as [ | n IH]; intros l Hl Hlen.
  - destruct l; [reflexivity | simpl in Hlen; lia].
  - destruct l as [ | ch l]; [reflexivity | ]. simpl.
    destruct (Ascii.eqb_spec ch NL) as [-> | _].
    + exfalso. apply Hl. now left.
    + rewrite IH; [reflexivity | | simpl in Hlen; lia].
      intros H. apply Hl. now right.
Qed.

Lemma c_string_clean l : ~ In NUL l -> c_string l = l.
Proof.
  induction l as [ | ch l IH]; intros Hl; [reflexivity | ]. simpl.
  destruct (Ascii.eqb_spec ch NUL) as [-> | _].
  - exfalso. apply Hl. now left.
  - rewrite IH; [reflexivity | ]. intros H. apply Hl. now right.
Qed.

Lemma strip_newline_terminated l : strip_newline (l ++ [NL]) = l.
Proof.
  unfold strip_newline, strlen. rewrite length_app. simpl.
  replace (Z.to_nat (Z.of_nat (length l + 1) - 1)) with (length l) by lia.
  rewrite nth_middle. change (Ascii.eqb NL NL) with true.
  destruct (Z.gtb_spec (Z.of_nat (length l + 1)) 0); [ | lia]. simpl.
  rewrite firstn_app, Nat.sub_diag, firstn_all. simpl. now rewrite app_nil_r.
Qed.

Lemma strip_newline_unterminated l : ~ In NL l -> strip_newline l = l.
Proof.
  intros Hl. unfold strip_newline, strlen.
  destruct (Z.gtb_spec (Z.of_nat (length l)) 0) as [Hpos | ]; [ | reflexivity].
  simpl. destruct (Ascii.eqb_spec (nth (Z.to_nat (Z.of_nat (length l) - 1)) l NUL) NL)
    as [E | _]; [ | reflexivity].
  exfalso. apply Hl. rewrite <- E. apply nth_In. lia.
Qed.

Lemma non_empty_lines_blank s :
  non_empty_lines (NL :: s) = non_empty_lines s.
Proof. reflexivity. Qed.

Lemma non_empty_lines_line l s :
  ~ In NL l -> l <> [] ->
  non_empty_lines (l ++ NL :: s) = l :: non_empty_lines s.
Proof.
  intros Hl Hne. unfold non_empty_lines. rewrite lines_of_line by assumption.
  simpl. destruct l; [congruence | reflexivity].
Qed.

Lemma non_empty_lines_unterminated l :
  ~ In NL l -> l <> [] -> non_empty_lines l = [l].
Proof.
  intros Hl Hne. unfold non_empty_lines. rewrite lines_of_unterminated by assumption.
  simpl. destruct l; [congruence | reflexivity].
Qed.

(** Reading a line that fits the buffer: [fgets] delivers it, with its
    newline if there is room, and what is left of the stream holds the
    same non-empty lines as the text after the line. *)
Lemma fgets_line l tail :
  ~ In NL l -> ~ In NUL l -> (0 < length l <= line_room)%nat ->
  tail = [] \/ (exists s', tail = NL :: s') ->
  exists buf rest,
    fgets MAXC (l ++ tail) = Some (buf, rest) /\
    strip_newline (c_string buf) = l /\
    non_empty_lines rest = non_empty_lines tail /\
    (length rest < length (l ++ tail))%nat.
Proof.
  intros Hnl Hnul Hlen Htail. rewrite fgets_unfold.
  destruct (l ++ tail) as [ | ch0 s0] eqn:Es.
  { destruct l; [simpl in Hlen; lia | discriminate]. }
  rewrite <- Es. clear ch0 s0 Es.
  destruct Htail as [-> | (s' & ->)].
  - rewrite app_nil_r. exists l, []. rewrite fgets_chars_eof by (assumption || lia).
    split; [reflexivity | ]. rewrite c_string_clean by assumption.
    split; [now apply strip_newline_unterminated | ]. split; [reflexivity | simpl; lia].
  - destruct (Nat.eq_dec (length l) line_room) as [Hfull | Hshort].
    + exists l, (NL :: s'). rewrite fgets_chars_full by assumption.
      split; [reflexivity | ]. rewrite c_string_clean by assumption.
      split; [now apply strip_newline_unterminated | ].
      split; [reflexivity | rewrite length_app; lia].
    + exists (l ++ [NL]), s'. rewrite fgets_chars_short by (assumption || lia).
      split; [reflexivity | ]. rewrite c_string_clean.
      * split; [apply strip_newline_terminated | ].
        split; [now rewrite non_empty_lines_blank | rewrite length_app; simpl; lia].
      * intros H. apply in_app_iff in H. destruct H as [H | [H | []]];
          [now apply Hnul | now apply NL_not_NUL].
Qed.

Lemma fgets_blank s :
  fgets MAXC (NL :: s) = Some ([NL], s).
Proof.
  rewrite fgets_unfold. pose proof line_room_val as H.
  destruct line_room as [ | n]; [discriminate | ].
  reflexivity.
Qed.

(** The reading loop stores the first non-empty lines of the text as the
    rows of the grid, up to the row capacity, when those lines all have
    the same length, fit the line buffer and hold no NUL. *)
Lemma read_rows_lines (n : Z) : forall fuel s g,
  (length s <= fuel)%nat ->
  0 < n < MAXC ->
  0 <= rows g < MAXR ->
  (rows g <> 0 -> cols g = n) ->
  (forall l, In l (firstn (Z.to_nat (MAXR - rows g)) (non_empty_lines s)) ->
             strlen l = n /\ ~ In NUL l) ->
  read_rows fuel s g =
  Some (ReadDone (store_rows (firstn (Z.to_nat (MAXR - rows g)) (non_empty_lines s)) g)).
Proof.
  induction fuel as [ | fuel IH]; intros s g Hfuel Hn Hrows Hcols Hfit.
  { destruct s; [ | simpl in Hfuel; lia].
    change (non_empty_lines []) with (@nil (list ascii)).
    rewrite firstn_nil. reflexivity. }
  assert (Hroom : exists k, Z.to_nat (MAXR - rows g) = S k /\
                            Z.to_nat (MAXR - (rows g + 1)) = k).
  { exists (Z.to_nat (MAXR - rows g - 1)). lia. }
  destruct Hroom as (k & Hk & Hk').
  assert (Hstep : forall l tail,
             s = l ++ tail -> ~ In NL l -> l <> [] ->
             tail = [] \/ (exists s', tail = NL :: s') ->
             non_empty_lines s = l :: non_empty_lines tail ->
             read_rows (S fuel) s g =
             Some (ReadDone (store_rows (firstn (S k) (non_empty_lines s)) g))).
  { intros l tail -> Hnl Hne Htail Hlines.
    rewrite Hk, Hlines in Hfit. rewrite Hlines.
    destruct (Hfit l (or_introl eq_refl)) as [Hlen Hnul].
    pose proof line_room_val as Hlr. unfold strlen, MAXC in *.
    destruct (fgets_line l tail) as (buf & rest & Hget & Hline & Hrest & Hprog);
      try assumption.
    { destruct l; [congruence | simpl in *; lia]. }
    rewrite (read_rows_step _ _ _ _ _ Hget). cbv zeta. rewrite Hline.
    unfold strlen.
    destruct (Z.eqb_spec (Z.of_nat (length l)) 0) as [? | _]; [lia | ].
    replace (negb (rows g =? 0) && negb (Z.of_nat (length l) =? cols g)) with false.
    2: { destruct (Z.eqb_spec (rows g) 0); [reflexivity | ].
         rewrite Hcols by assumption. rewrite Hlen, Z.eqb_refl. reflexivity. }
    cbn [firstn store_rows fold_left].
    destruct (Z.geb_spec (rows g + 1) MAXR) as [Hcap | Hcap].
    - replace k with O by lia. reflexivity.
    - rewrite (IH rest (store_row g l)).
      + rewrite rows_store_row, Hk', Hrest. reflexivity.
      + lia.
      + unfold MAXC. lia.
      + rewrite rows_store_row. lia.
      + intros _. rewrite cols_store_row.
        destruct (Z.eqb_spec (rows g) 0); [assumption | now apply Hcols].
      + rewrite rows_store_row, Hk', Hrest. intros l' Hl'. apply Hfit. now right. }
  rewrite Hk.
  destruct (first_line s) as [(l & s' & Es & Hnl) | Hnl].
  - destruct l as [ | ch l].
    + simpl in Es. subst s.
      rewrite (read_rows_step _ _ _ _ _ (fgets_blank s')).
      change (strip_newline (c_string [NL])) with (@nil ascii). cbv zeta.
      change (strlen [] =? 0) with true. cbv iota.
      rewrite non_empty_lines_blank in *. rewrite <- Hk.
      apply IH; try assumption. simpl in Hfuel. lia.
    + apply (Hstep (ch :: l) (NL :: s')); try assumption.
      * discriminate.
      * right. now exists s'.
      * subst s. rewrite non_empty_lines_line by (assumption || discriminate).
        now rewrite non_empty_lines_blank.
  - destruct s as [ | ch s].
    + rewrite read_rows_eof. reflexivity.
    + apply (Hstep (ch :: s) []); try assumption.
      * now rewrite app_nil_r.
      * discriminate.
      * now left.
      * now apply non_empty_lines_unterminated.
Qed.

(** ** Rows stored from lines *)

Lemma strcpy_row_other m r l i j : i <> r -> strcpy_row m r l i j = m i j.
Proof.
  intros H. unfold strcpy_row. destruct (Z.eqb_spec i r); [contradiction | reflexivity].
Qed.

Lemma strcpy_row_same m r l j :
  0 <= j < strlen l -> strcpy_row m r l r j = nth (Z.to_nat j) l NUL.
Proof.
  intros H. unfold strcpy_row. rewrite Z.eqb_refl.
  destruct (Z.leb_spec 0 j); [ | lia]. destruct (Z.leb_spec j (strlen l)); [ | lia].
  reflexivity.
Qed.

Lemma store_rows_rows : forall ls g,
  rows (store_rows ls g) = rows g + Z.of_nat (length ls).
Proof.
  induction ls as [ | l ls IH]; intros g; [simpl; lia | ].
  unfold store_rows in *. cbn [fold_left]. rewrite IH, rows_store_row.
  cbn [length]. lia.
Qed.

Lemma store_rows_cols n : forall ls g,
  0 <= rows g ->
  (rows g <> 0 -> cols g = n) ->
  (forall l, In l ls -> strlen l = n) ->
  ls <> [] ->
  cols (store_rows ls g) = n.
Proof.
  induction ls as [ | l ls IH]; intros g Hr Hc Hls Hne; [congruence | ].
  unfold store_rows in *. cbn [fold_left].
  assert (Hc1 : cols (store_row g l) = n).
  { rewrite cols_store_row. destruct (Z.eqb_spec (rows g) 0).
    - apply Hls. now left.
    - now apply Hc. }
  destruct ls as [ | l' ls']; [exact Hc1 | ].
  apply IH.
  - rewrite rows_store_row. lia.
  - intros _. exact Hc1.
  - intros x Hx. apply Hls. now right.
  - discriminate.
Qed.

Lemma store_rows_maze_before : forall ls g i j,
  i < rows g -> maze (store_rows ls g) i j = maze g i j.
Proof.
  induction ls as [ | l ls IH]; intros g i j Hi; [reflexivity | ].
  unfold store_rows in *. cbn [fold_left]. rewrite IH.
  - rewrite maze_store_row. apply strcpy_row_other. lia.
  - rewrite rows_store_row. lia.
Qed.

Lemma store_rows_maze : forall ls g k j,
  (k < length ls)%nat ->
  0 <= j < strlen (nth k ls []) ->
  maze (store_rows ls g) (rows g + Z.of_nat k) j =
  nth (Z.to_nat j) (nth k ls []) NUL.
Proof.
  induction ls as [ | l ls IH]; intros g k j Hk Hj; [simpl in Hk; lia | ].
  unfold store_rows in *. cbn [fold_left].
  destruct k as [ | k].
  - cbn [nth] in *. rewrite Z.add_0_r.
    rewrite (store_rows_maze_before ls) by (rewrite rows_store_row; lia).
    rewrite maze_store_row. now apply strcpy_row_same.
  - cbn [nth] in *. specialize (IH (store_row g l) k j).
    rewrite rows_store_row in IH.
    replace (rows g + Z.of_nat (S k)) with (rows g + 1 + Z.of_nat k) by lia.
    apply IH; [simpl in Hk; lia | assumption].
Qed.

Lemma non_empty_lines_unlines : forall ls,
  (forall l, In l ls -> ~ In NL l /\ l <> []) ->
  non_empty_lines (unlines ls) = ls.
Proof.
  induction ls as [ | l ls IH]; intros H; [reflexivity | ].
  unfold unlines in *. cbn [map concat]. rewrite <- app_assoc. cbn [app].
  destruct (H l (or_introl eq_refl)) as [Hnl Hne].
  rewrite non_empty_lines_line by assumption.
  rewrite IH; [reflexivity | ]. intros l' Hl'. apply H. now right.
Qed.

Lemma non_empty_lines_spec s l :
  In l (non_empty_lines s) -> ~ In NL l /\ l <> [].
Proof.
  unfold non_empty_lines. rewrite filter_In. intros [Hin Hne].
  split; [now apply (lines_of_no_newline s) | ]. now destruct l.
Qed.

Lemma occurs_frame g g' ch :
  maze g' = maze g -> rows g' = rows g -> cols g' = cols g ->
  occurs g' ch <-> occurs g ch.
Proof.
  intros Hm Hr Hc. unfold occurs, row_major. now rewrite Hm, Hr, Hc.
Qed.

Lemma last_seen_marker g ch p :
  last_seen (maze g) ch (row_major g) (-1, -1) p ->
  fst p <> -1 <-> occurs g ch.
Proof.
  intros H. split.
  - intros Hp. destruct (last_seen_found g ch p H (or_introl Hp)) as [(l1 & l2 & Hl & Hm & _) _].
    exists p. split; [rewrite Hl; apply in_elt | assumption].
  - intros Ho. destruct (last_seen_found g ch p H (or_intror Ho)) as [_ [Hb _]]. lia.
Qed.

(** What [load_maze] does once the reading loop has ended with a grid
    that is not empty. *)
Lemma load_maze_done s g g1 :
  read_rows (length s) s (set_rows g 0) = Some (ReadDone g1) ->
  rows g1 <> 0 -> cols g1 <> 0 ->
  exists o,
    load_maze (Some s) g = Some o /\
    load_grid o = scan_markers (scan_init g1) /\
    (load_ret o = 1 /\ load_msg o = None \/
     load_ret o = 0 /\ load_msg o = Some MsgNoMarkers) /\
    (load_ret o = 1 <-> occurs g1 "S" /\ occurs g1 "E").
Proof.
  intros Hread Hr Hc.
  destruct (scan_markers_spec (scan_init g1)) as (Hm & Hrw & Hcl & HS & HE).
  pose proof (last_seen_marker (scan_init g1) "S" _ HS) as HoS.
  pose proof (last_seen_marker (scan_init g1) "E" _ HE) as HoE.
  cbn [fst] in HoS, HoE.
  unfold load_maze. rewrite Hread.
  destruct (Z.eqb_spec (rows g1) 0) as [? | _]; [contradiction | ].
  destruct (Z.eqb_spec (cols g1) 0) as [? | _]; [contradiction | ].
  cbn [orb]. fold (scan_init g1).
  change (occurs (scan_init g1) "S") with (occurs g1 "S") in HoS.
  change (occurs (scan_init g1) "E") with (occurs g1 "E") in HoE.
  destruct (Z.eqb_spec (sr (scan_markers (scan_init g1))) (-1)) as [Es | Ns]; cbn [orb].
  { eexists. split; [reflexivity | ]. cbn [load_ret load_msg load_grid].
    split; [reflexivity | ]. split; [right; auto | ].
    split; [discriminate | ]. intros [Ho _]. apply HoS in Ho. contradiction. }
  destruct (Z.eqb_spec (er (scan_markers (scan_init g1))) (-1)) as [Ee | Ne].
  { eexists. split; [reflexivity | ]. cbn [load_ret load_msg load_grid].
    split; [reflexivity | ]. split; [right; auto | ].
    split; [discriminate | ]. intros [_ Ho]. apply HoE in Ho. contradiction. }
  eexists. split; [reflexivity | ]. cbn [load_ret load_msg load_grid].
  split; [reflexivity | ]. split; [left; auto | ].
  split; [intros _; split; [now apply HoS | now apply HoE] | reflexivity].
Qed.

(** C7 (amended).  When the source has more than MAXR = 105 non-empty
    lines and the first 105 of them are rows the loader accepts -- one
    common length that fits the line buffer (at most 104 characters), no
    NUL character -- [load_maze] keeps
    exactly those 105 lines as the rows of the grid, behaves as on the
    text cut after them (so nothing further is read), and prints no
    row-length or empty-maze error; it succeeds exactly when the kept
    rows hold an 'S' and an 'E'. *)
Theorem load_maze_row_capacity (s : list ascii) (g : grid) (n : Z) :
  (Z.to_nat MAXR < length (non_empty_lines s))%nat ->
  0 < n < MAXC ->
  (forall l, In l (firstn (Z.to_nat MAXR) (non_empty_lines s)) ->
             strlen l = n /\ ~ In NUL l) ->
  exists o,
    load_maze (Some s) g = Some o /\
    load_maze (Some (unlines (firstn (Z.to_nat MAXR) (non_empty_lines s)))) g = Some o /\
    rows (load_grid o) = MAXR /\
    cols (load_grid o) = n /\
    (forall i j,
        0 <= i < MAXR -> 0 <= j < n ->
        maze (load_grid o) i j =
        nth (Z.to_nat j)
            (nth (Z.to_nat i) (firstn (Z.to_nat MAXR) (non_empty_lines s)) []) NUL) /\
    load_msg o <> Some MsgRowLength /\
    load_msg o <> Some MsgEmpty /\
    (load_ret o = 1 <-> occurs (load_grid o) "S" /\ occurs (load_grid o) "E").
Proof.
  intros Hmore Hn Hfit.
  set (kept := firstn (Z.to_nat MAXR) (non_empty_lines s)) in *.
  assert (Hlen : length kept = Z.to_nat MAXR).
  { unfold kept. rewrite length_firstn. lia. }
  assert (Hkept : forall l, In l kept -> ~ In NL l /\ l <> []).
  { intros l Hl. apply (non_empty_lines_spec s). unfold kept in Hl.
    now apply in_firstn in Hl. }
  set (g1 := store_rows kept (set_rows g 0)).
  assert (Hread : forall s1, firstn (Z.to_nat MAXR) (non_empty_lines s1) = kept ->
                             read_rows (length s1) s1 (set_rows g 0) = Some (ReadDone g1)).
  { intros s1 Hs1.
    rewrite (read_rows_lines n); cbn [rows set_rows]; rewrite ?Z.sub_0_r, ?Hs1;
      try reflexivity; try lia; try assumption.
    unfold MAXR. lia. }
  assert (Hrows : rows g1 = MAXR).
  { unfold g1. rewrite store_rows_rows, Hlen. simpl. reflexivity. }
  assert (Hcols : cols g1 = n).
  { unfold g1. apply store_rows_cols.
    - simpl. lia.
    - simpl. congruence.
    - intros l Hl. now apply Hfit.
    - intros E. rewrite E in Hlen. discriminate. }
  destruct (load_maze_done s g g1) as (o & Hload & Hgrid & Hmsg & Hret).
  { now apply Hread. }
  { rewrite Hrows. discriminate. }
  { lia. }
  destruct (scan_markers_spec (scan_init g1)) as (Hm & Hrw & Hcl & _ & _).
  rewrite <- Hgrid in Hm, Hrw, Hcl.
  change (maze (scan_init g1)) with (maze g1) in Hm.
  change (rows (scan_init g1)) with (rows g1) in Hrw.
  change (cols (scan_init g1)) with (cols g1) in Hcl.
  exists o. split; [exact Hload | ]. split; [ | split; [congruence | split; [congruence | ]]].
  - destruct (load_maze_done (unlines kept) g g1) as (o' & Hload' & Hgrid' & Hmsg' & Hret').
    { apply Hread. rewrite non_empty_lines_unlines by assumption.
      rewrite <- Hlen. apply firstn_all. }
    { rewrite Hrows. discriminate. }
    { lia. }
    rewrite Hload'. f_equal. destruct o as [r m gr], o' as [r' m' gr'].
    cbn [load_ret load_msg load_grid] in *. subst gr gr'.
    assert (r = r').
    { destruct Hmsg as [[-> _] | [-> _]], Hmsg' as [[-> _] | [-> _]]; try reflexivity;
        exfalso; intuition congruence. }
    subst r'.
    destruct Hmsg as [[E1 ->] | [E1 ->]], Hmsg' as [[E2 ->] | [E2 ->]];
      try reflexivity; congruence.
  - split; [ | split; [ | split]].
    + intros i j Hi Hj. rewrite Hm. unfold g1.
      replace i with (rows (set_rows g 0) + Z.of_nat (Z.to_nat i)) at 1 by (simpl; lia).
      apply store_rows_maze; [lia | ].
      destruct (Hfit (nth (Z.to_nat i) kept [])) as [-> _]; [ | lia].
      apply nth_In. lia.
    + destruct Hmsg as [[_ ->] | [_ ->]]; discriminate.
    + destruct Hmsg as [[_ ->] | [_ ->]]; discriminate.
    + rewrite Hret. now rewrite !(occurs_frame g1 (load_grid o)).
Qed.

(** ** A row as wide as MAXC *)

(** C6 (the code departs from it).  A source whose only line has
    MAXC = 105 characters, among them an 'S' and an 'E', meets every
    condition of the specification, yet [load_maze] returns 0 with the
    row-length message: [fgets] delivers the line in two pieces of 104
    and 1 characters, which the loop takes for two rows. *)
Theorem load_maze_rejects_wide_row (g : grid) :
  load_should_succeed (Some wide_source) /\
  exists o,
    load_maze (Some wide_source) g = Some o /\
    load_ret o = 0 /\
    load_msg o = Some MsgRowLength /\
    rows (load_grid o) = 1 /\
    cols (load_grid o) = 104.
Proof.
  split.
  - exists wide_source. split; [reflexivity | ].
    assert (E : firstn (Z.to_nat MAXR) (non_empty_lines wide_source)
                = ["S"%char :: repeat "."%char 103 ++ ["E"%char]]) by reflexivity.
    cbv zeta. rewrite E. split; [discriminate | ].
    split; [intros l [<- | []]; reflexivity | ].
    split; eexists; (split; [left; reflexivity | ]).
    + now left.
    + right. apply in_or_app. right. now left.
  - eexists. split; [vm_compute; reflexivity | ]. repeat split.
Qed.

(** ** Sources whose lines fit the line buffer *)

(** On such a source the reading loop handles one non-empty line per row:
    it is [store_lines] on the non-empty lines. *)
Lemma read_rows_store_lines : forall fuel s g,
  (length s <= fuel)%nat ->
  (forall l, In l (non_empty_lines s) -> line_fits l) ->
  read_rows fuel s g = Some (store_lines (non_empty_lines s) g).
Proof.
  induction fuel as [ | fuel IH]; intros s g Hfuel Hfit.
  { destruct s; [reflexivity | simpl in Hfuel; lia]. }
  assert (Hstep : forall l tail,
             s = l ++ tail -> ~ In NL l -> l <> [] ->
             tail = [] \/ (exists s', tail = NL :: s') ->
             non_empty_lines s = l :: non_empty_lines tail ->
             read_rows (S fuel) s g = Some (store_lines (non_empty_lines s) g)).
  { intros l tail -> Hnl Hne Htail Hlines.
    rewrite Hlines in Hfit. rewrite Hlines.
    destruct (Hfit l (or_introl eq_refl)) as [Hlen Hnul].
    pose proof line_room_val as Hlr. unfold strlen, MAXC in Hlen.
    destruct (fgets_line l tail) as (buf & rest & Hget & Hline & Hrest & Hprog);
      try assumption.
    { destruct l; [congruence | simpl in *; lia]. }
    rewrite (read_rows_step _ _ _ _ _ Hget). cbv zeta. rewrite Hline.
    assert (Hpos : (strlen l =? 0) = false).
    { apply Z.eqb_neq. unfold strlen. destruct l; [congruence | simpl; lia]. }
    rewrite Hpos. cbn [store_lines].
    destruct (negb (rows g =? 0) && negb (strlen l =? cols g)); [reflexivity | ].
    destruct (rows g + 1 >=? MAXR); [reflexivity | ].
    rewrite <- Hrest. apply IH; [lia | ].
    rewrite Hrest. intros l' Hl'. apply Hfit. now right. }
  destruct (first_line s) as [(l & s' & Es & Hnl) | Hnl].
  - destruct l as [ | ch l].
    + simpl in Es. subst s.
      rewrite (read_rows_step _ _ _ _ _ (fgets_blank s')).
      change (strip_newline (c_string [NL])) with (@nil ascii). cbv zeta.
      change (strlen [] =? 0) with true. cbv iota.
      rewrite non_empty_lines_blank in *.
      apply IH; try assumption. simpl in Hfuel. lia.
    + apply (Hstep (ch :: l) (NL :: s')); try assumption.
      * discriminate.
      * right. now exists s'.
      * subst s. rewrite non_empty_lines_line by (assumption || discriminate).
        now rewrite non_empty_lines_blank.
  - destruct s as [ | ch s].
    + rewrite read_rows_eof. reflexivity.
    + apply (Hstep (ch :: s) []); try assumption.
      * now rewrite app_nil_r.
      * discriminate.
      * now left.
      * now apply non_empty_lines_unterminated.
Qed.

(** [store_lines] ends without a row-length error exactly when the lines
    it reaches, up to the row capacity, all have the length of the first
    row; it then leaves those lines stored. *)
Lemma store_lines_done : forall ls g,
  0 <= rows g < MAXR ->
  (forall l, In l ls -> l <> []) ->
  (exists g1, store_lines ls g = ReadDone g1) <->
  (forall l, In l (firstn (Z.to_nat (MAXR - rows g)) ls) ->
             strlen l = if rows g =? 0 then strlen (hd [] ls) else cols g).
Proof.
  induction ls as [ | l ls IH]; intros g Hr Hne.
  { rewrite firstn_nil. split; [intros _ ? [] | intros _; now exists g]. }
  assert (Hk : exists k, Z.to_nat (MAXR - rows g) = S k /\
                         Z.to_nat (MAXR - (rows g + 1)) = k).
  { exists (Z.to_nat (MAXR - rows g - 1)). lia. }
  destruct Hk as (k & Hk & Hk'). rewrite Hk. cbn [firstn store_lines hd].
  assert (Hl : 0 < strlen l).
  { unfold strlen. specialize (Hne l (or_introl eq_refl)). destruct l; [congruence | simpl; lia]. }
  assert (Hcols1 : cols (store_row g l) = if rows g =? 0 then strlen l else cols g)
    by apply cols_store_row.
  destruct (Z.eqb_spec (rows g) 0) as [Hr0 | Hr0]; cbn [negb andb].
  - destruct (Z.geb_spec (rows g + 1) MAXR) as [Hcap | Hcap]; [unfold MAXR in *; lia | ].
    rewrite IH; [ | rewrite rows_store_row; lia | intros; apply Hne; now right].
    rewrite rows_store_row, Hk', Hcols1.
    destruct (Z.eqb_spec (rows g + 1) 0); [lia | ].
    split.
    + intros H l' [<- | Hl']; [reflexivity | now apply H].
    + intros H l' Hl'. apply H. now right.
  - destruct (Z.eqb_spec (strlen l) (cols g)) as [He | He]; cbn [negb].
    + destruct (Z.geb_spec (rows g + 1) MAXR) as [Hcap | Hcap].
      * replace k with O by lia. cbn [firstn]. split.
        -- intros _ l' [<- | []]. exact He.
        -- intros _. eexists. reflexivity.
      * rewrite IH; [ | rewrite rows_store_row; lia | intros; apply Hne; now right].
        rewrite rows_store_row, Hk', Hcols1.
        destruct (Z.eqb_spec (rows g + 1) 0); [lia | ].
        split.
        -- intros H l' [<- | Hl']; [exact He | now apply H].
        -- intros H l' Hl'. apply H. now right.
    + split; [intros (g1 & Hg1); discriminate | ].
      intros H. exfalso. apply He. apply H. now left.
Qed.

Lemma store_lines_result : forall ls g g1,
  0 <= rows g < MAXR ->
  store_lines ls g = ReadDone g1 ->
  g1 = store_rows (firstn (Z.to_nat (MAXR - rows g)) ls) g.
Proof.
  induction ls as [ | l ls IH]; intros g g1 Hr Hrun.
  { rewrite firstn_nil. simpl in Hrun. now injection Hrun as <-. }
  assert (Hk : exists k, Z.to_nat (MAXR - rows g) = S k /\
                         Z.to_nat (MAXR - (rows g + 1)) = k).
  { exists (Z.to_nat (MAXR - rows g - 1)). lia. }
  destruct Hk as (k & Hk & Hk'). rewrite Hk. cbn [firstn store_rows fold_left].
  cbn [store_lines] in Hrun.
  destruct (negb (rows g =? 0) && negb (strlen l =? cols g)); [discriminate | ].
  destruct (Z.geb_spec (rows g + 1) MAXR) as [Hcap | Hcap].
  - injection Hrun as <-. replace k with O by lia. reflexivity.
  - apply IH in Hrun; [ | rewrite rows_store_row; lia].
    rewrite rows_store_row, Hk' in Hrun. exact Hrun.
Qed.

Lemma occurs_store_rows ls g n ch :
  rows g = 0 -> ls <> [] -> 0 < n ->
  (forall l, In l ls -> strlen l = n) ->
  occurs (store_rows ls g) ch <-> exists l, In l ls /\ In ch l.
Proof.
  intros Hr Hne Hn Hlen.
  assert (Hrows : rows (store_rows ls g) = Z.of_nat (length ls)).
  { rewrite store_rows_rows. lia. }
  assert (Hcols : cols (store_rows ls g) = n).
  { apply store_rows_cols; try assumption; lia. }
  unfold occurs. split.
  - intros ([i j] & Hin & Hm). apply in_row_major in Hin.
    destruct Hin as [Hi Hj]. cbn [fst snd] in *. rewrite Hrows in Hi. rewrite Hcols in Hj.
    assert (Hl : In (nth (Z.to_nat i) ls []) ls) by (apply nth_In; lia).
    exists (nth (Z.to_nat i) ls []). split; [exact Hl | ].
    replace i with (rows g + Z.of_nat (Z.to_nat i)) in Hm by lia.
    rewrite store_rows_maze in Hm; [ | lia | rewrite (Hlen _ Hl); lia].
    rewrite <- Hm. apply nth_In. specialize (Hlen _ Hl). unfold strlen in Hlen. lia.
  - intros (l & Hl & Hch).
    destruct (In_nth _ _ [] Hl) as (i & Hi & Ei).
    destruct (In_nth _ _ NUL Hch) as (j & Hj & Ej).
    pose proof (Hlen _ Hl) as Hll. unfold strlen in Hll.
    exists (Z.of_nat i, Z.of_nat j). split.
    + apply in_row_major. unfold in_bounds. cbn [fst snd]. rewrite Hrows, Hcols. lia.
    + cbn [fst snd].
      replace (Z.of_nat i) with (rows g + Z.of_nat i) by lia.
      rewrite store_rows_maze; [ | exact Hi | rewrite Ei; unfold strlen; lia].
      now rewrite Ei, Nat2Z.id.
Qed.

(** For sources whose lines fit the line buffer the loader decides as
    the specification says: when every non-empty line has fewer than
    MAXC characters and no NUL, [load_maze] succeeds exactly when the
    retained lines are not none, have one length, and hold an 'S' and an
    'E'. *)
Lemma load_maze_accepts_narrow_sources (s : list ascii) (g : grid) :
  (forall l, In l (non_empty_lines s) -> line_fits l) ->
  exists o,
    load_maze (Some s) g = Some o /\
    (load_ret o = 1 <-> load_should_succeed (Some s)).
Proof.
  intros Hfit.
  pose proof (read_rows_store_lines (length s) s (set_rows g 0) (le_n _) Hfit) as Hread.
  set (ls := non_empty_lines s) in *.
  set (kept := firstn (Z.to_nat MAXR) ls).
  assert (Hne : forall l, In l ls -> l <> []).
  { intros l Hl. apply (non_empty_lines_spec s l Hl). }
  assert (Hshould : load_should_succeed (Some s) <->
                    kept <> [] /\
                    (forall l, In l kept -> length l = length (hd [] kept)) /\
                    (exists l, In l kept /\ In "S"%char l) /\
                    (exists l, In l kept /\ In "E"%char l)).
  { unfold load_should_succeed. split.
    - intros (s1 & E & H). injection E as <-. exact H.
    - intros H. exists s. split; [reflexivity | exact H]. }
  assert (Hhd : hd [] kept = hd [] ls).
  { unfold kept. destruct ls; reflexivity. }
  pose proof (store_lines_done ls (set_rows g 0)) as Hdone.
  cbn [rows set_rows] in Hdone. rewrite Z.sub_0_r in Hdone. fold kept in Hdone.
  change (0 =? 0) with true in Hdone. cbv iota in Hdone.
  specialize (Hdone ltac:(unfold MAXR; lia) Hne).
  destruct (store_lines ls (set_rows g 0)) as [g1 | g1] eqn:Hst.
  - exists (mkLoad 0 (Some MsgRowLength) g1). split.
    + unfold load_maze. now rewrite Hread.
    + cbn [load_ret]. split; [discriminate | ].
      intros Hs. apply Hshould in Hs. destruct Hs as (_ & Huni & _).
      destruct Hdone as [_ Hdone]. destruct Hdone as (g2 & Hg2); [ | discriminate].
      intros l Hl. unfold strlen. rewrite (Huni l Hl), Hhd. reflexivity.
  - destruct Hdone as [Hdone _]. specialize (Hdone (ex_intro _ g1 eq_refl)).
    apply store_lines_result in Hst; [ | cbn [rows set_rows]; unfold MAXR; lia].
    cbn [rows set_rows] in Hst. rewrite Z.sub_0_r in Hst. fold kept in Hst.
    destruct kept as [ | l0 kept'] eqn:Ekept.
    + exists (mkLoad 0 (Some MsgEmpty) g1). split.
      * unfold load_maze. rewrite Hread. subst g1. reflexivity.
      * cbn [load_ret]. split; [discriminate | ].
        intros Hs. apply Hshould in Hs. destruct Hs as (Hk & _). congruence.
    + assert (Hl0 : ls = l0 :: tl ls).
      { unfold kept in Ekept. destruct ls; [discriminate | ].
        cbn [firstn] in Ekept. change (Z.to_nat MAXR) with 105%nat in Ekept.
        cbn [firstn] in Ekept. injection Ekept as -> _. reflexivity. }
      assert (Hn : 0 < strlen l0).
      { unfold strlen. specialize (Hne l0). rewrite Hl0 in Hne.
        specialize (Hne (or_introl eq_refl)). destruct l0; [congruence | simpl; lia]. }
      assert (Huni : forall l, In l (l0 :: kept') -> strlen l = strlen l0).
      { intros l Hl. rewrite (Hdone l Hl), Hl0. reflexivity. }
      assert (Hrows : rows g1 = Z.of_nat (length (l0 :: kept'))).
      { subst g1. rewrite store_rows_rows. simpl rows. lia. }
      assert (Hcols : cols g1 = strlen l0).
      { subst g1. apply store_rows_cols; try assumption.
        - simpl. lia.
        - simpl. congruence.
        - discriminate. }
      destruct (load_maze_done s g g1) as (o & Hload & _ & _ & Hret).
      { exact Hread. }
      { rewrite Hrows. simpl. lia. }
      { lia. }
      exists o. split; [exact Hload | ]. rewrite Hret, Hshould.
      subst g1.
      rewrite !(occurs_store_rows (l0 :: kept') (set_rows g 0) (strlen l0))
        by (reflexivity || discriminate || assumption).
      split.
      * intros [HS HE]. split; [discriminate | ]. split; [ | split; assumption].
        intros l Hl. specialize (Huni l Hl). unfold strlen in Huni. cbn [hd]. lia.
      * intros (_ & _ & HS & HE). split; assumption.
Qed.

(** A source that cannot be opened fails and leaves the globals alone. *)
Lemma load_maze_unopened g :
  load_maze None g = Some (mkLoad 0 (Some MsgCannotOpen) g) /\
  ~ load_should_succeed None.
Proof.
  split; [reflexivity | ]. intros (s & E & _). discriminate.
Qed.

(** ** Walks and distances *)

Lemma walk_end_passable g a n b : walk g a n b -> passable g b.
Proof. intros H. destruct H; assumption. Qed.

Lemma walk_start_passable g a n b : walk g a n b -> passable g a.
Proof. intros H. induction H; assumption. Qed.

Lemma distance_start g a : passable g a -> distance g a a 0.
Proof. intros H. split; [now constructor | intros; lia]. Qed.

Lemma distance_unique g a b n m : distance g a b n -> distance g a b m -> n = m.
Proof.
  intros [W1 M1] [W2 M2]. apply M1 in W2. apply M2 in W1. lia.
Qed.

Lemma walk_zero g a b : walk g a 0 b -> a = b.
Proof. intros H. inversion H. reflexivity. Qed.

(** ** Counting cells *)

Lemma NoDup_map_inj_on {A B} (f : A -> B) (l : list A) :
  NoDup l -> (forall x y, In x l -> In y l -> f x = f y -> x = y) ->
  NoDup (map f l).
Proof.
  induction 1 as [ | x l Hx Hl IH]; intros Hinj; simpl; constructor.
  - intros Hin. apply in_map_iff in Hin. destruct Hin as (y & Hy & Hin).
    assert (y = x) by (apply Hinj; simpl; auto).
    subst. contradiction.
  - apply IH. intros a b Ha Hb. apply Hinj; simpl; auto.
Qed.

Lemma cells_in_bounds_count g (l : list cell) :
  l <> [] -> NoDup l -> (forall p, In p l -> in_bounds g p) ->
  Z.of_nat (length l) <= rows g * cols g.
Proof.
  intros Hne Hnd Hin.
  assert (Hincl : incl l (list_prod (zseq (rows g)) (zseq (cols g)))).
  { intros [r c] Hp. apply in_prod_iff. apply Hin in Hp.
    destruct Hp as [Hr Hc]. simpl in *. split; now apply in_zseq. }
  apply NoDup_incl_length in Hincl; [ | assumption].
  rewrite length_prod, !zseq_length in Hincl.
  destruct l as [ | p l']; [congruence | ].
  specialize (Hin p (or_introl eq_refl)). destruct Hin as [Hr Hc].
  apply Nat2Z.inj_le in Hincl. rewrite Nat2Z.inj_mul, !Z2Nat.id in Hincl by lia.
  exact Hincl.
Qed.

(** ** The search invariant *)

Section BfsInvariant.

Variable g : grid.
Hypothesis Hcap : rows g * cols g < QSIZE.

Lemma discovered_passable lab st p :
  bfs_core g lab st -> discovered st p -> passable g p.
Proof.
  intros C (i & Hi & <-).
  eapply walk_end_passable. apply (core_dist _ _ _ C i Hi).
Qed.

Lemma discovered_start lab st : bfs_core g lab st -> discovered st (start_cell g).
Proof.
  intros C. exists 0. split; [ | apply (core_first _ _ _ C)].
  pose proof (core_rear _ _ _ C). lia.
Qed.

Lemma room_for_one lab st v :
  bfs_core g lab st -> passable g v -> ~ discovered st v ->
  Bfs.rear (Bfs.q st) + 1 <= rows g * cols g.
Proof.
  intros C Hv Hnew.
  pose proof (core_rear _ _ _ C) as Hr.
  assert (H : Z.of_nat (length (v :: map (qcell st) (zseq (Bfs.rear (Bfs.q st)))))
              <= rows g * cols g).
  { apply cells_in_bounds_count.
    - discriminate.
    - constructor.
      + intros Hin. apply in_map_iff in Hin. destruct Hin as (i & Hi & Hin).
        apply in_zseq in Hin. apply Hnew. now exists i.
      + apply NoDup_map_inj_on; [apply zseq_NoDup | ].
        intros i j Hi Hj. apply in_zseq in Hi, Hj.
        now apply (core_inj _ _ _ C).
    - intros p [<- | Hin]; [apply Hv | ].
      apply in_map_iff in Hin. destruct Hin as (i & <- & Hin).
      apply in_zseq in Hin.
      apply (discovered_passable lab st); [assumption | now exists i]. }
  simpl in H. rewrite length_map, zseq_length in H. lia.
Qed.

(** Every cell within [lab k] moves of the start is discovered once the
    cells of the slots before [k] have all their neighbours discovered. *)
Lemma closed_walk lab st k :
  bfs_core g lab st ->
  0 <= k < Bfs.rear (Bfs.q st) ->
  (forall i d, 0 <= i < k -> 0 <= d < 4 -> closed_at g st i d) ->
  forall m x, walk g (start_cell g) m x -> (m <= lab k)%nat -> discovered st x.
Proof.
  intros C Hk Hclosed m x W. induction W as [Hs | n b c W IH Hadj Hc]; intros Hm.
  - now apply (discovered_start lab).
  - destruct IH as (i & Hi & Hb); [lia | ].
    pose proof (core_dist _ _ _ C i Hi) as [_ Hmin].
    rewrite Hb in Hmin. apply Hmin in W.
    assert (i < k).
    { destruct (Z_lt_le_dec i k) as [? | Hge]; [assumption | exfalso].
      pose proof (core_mono _ _ _ C k i). lia. }
    destruct (adjacent_is_nbr _ _ Hadj) as (d & Hd & ->).
    rewrite <- Hb. apply Hclosed; try lia. rewrite Hb. assumption.
Qed.

(** When every discovered cell has all its neighbours discovered, every
    reachable cell is discovered. *)
Lemma closed_walk_all lab st :
  bfs_core g lab st ->
  (forall i d, 0 <= i < Bfs.rear (Bfs.q st) -> 0 <= d < 4 -> closed_at g st i d) ->
  forall m x, walk g (start_cell g) m x -> discovered st x.
Proof.
  intros C Hclosed m x W. induction W as [Hs | n b c W IH Hadj Hc].
  - now apply (discovered_start lab).
  - destruct IH as (i & Hi & Hb).
    destruct (adjacent_is_nbr _ _ Hadj) as (d & Hd & ->).
    rewrite <- Hb. apply Hclosed; try lia. rewrite Hb. assumption.
Qed.

Lemma rear_push st r c :
  0 <= Bfs.rear (Bfs.q st) -> Bfs.rear (Bfs.q st) + 1 < QSIZE ->
  Bfs.rear (Bfs.queue_push (Bfs.q st) r c) = Bfs.rear (Bfs.q st) + 1.
Proof. intros H0 H1. simpl. apply Z.rem_small. lia. Qed.

(** The state after a discovery: one more slot, everything else as
    before. *)
Lemma discover_core lab st k v st2 :
  bfs_core g lab st ->
  Bfs.found st = false ->
  0 <= k < Bfs.rear (Bfs.q st) ->
  (forall i d, 0 <= i < k -> 0 <= d < 4 -> closed_at g st i d) ->
  (forall j, 0 <= j < Bfs.rear (Bfs.q st) -> (lab j <= S (lab k))%nat) ->
  adjacent (qcell st k) v ->
  passable g v ->
  ~ discovered st v ->
  Bfs.q st2 = Bfs.queue_push (Bfs.q st) (fst v) (snd v) ->
  Bfs.visited st2 = upd2 (Bfs.visited st) (fst v) (snd v) 1 ->
  Bfs.parent_r st2 = upd2 (Bfs.parent_r st) (fst v) (snd v) (fst (qcell st k)) ->
  Bfs.parent_c st2 = upd2 (Bfs.parent_c st) (fst v) (snd v) (snd (qcell st k)) ->
  (Bfs.found st2 = true <-> v = exit_cell g) ->
  let lab1 := fun i => if i =? Bfs.rear (Bfs.q st) then S (lab k) else lab i in
  bfs_core g lab1 st2 /\
  Bfs.rear (Bfs.q st2) = Bfs.rear (Bfs.q st) + 1 /\
  Bfs.front (Bfs.q st2) = Bfs.front (Bfs.q st) /\
  (forall i, 0 <= i < Bfs.rear (Bfs.q st) -> qcell st2 i = qcell st i) /\
  qcell st2 (Bfs.rear (Bfs.q st)) = v.
Proof.
  intros C Hnf Hk Hclosed Hspan Hadj Hv Hnew Eq Evis Epr Epc Efound lab1.
  pose proof (core_rear _ _ _ C) as Hr.
  pose proof (core_front _ _ _ C) as Hf.
  pose proof (room_for_one lab st v C Hv Hnew) as Hroom.
  set (n := Bfs.rear (Bfs.q st)) in *.
  assert (Hrear : Bfs.rear (Bfs.q st2) = n + 1).
  { rewrite Eq. apply rear_push; fold n; lia. }
  assert (Hfront : Bfs.front (Bfs.q st2) = Bfs.front (Bfs.q st)).
  { rewrite Eq. reflexivity. }
  assert (Hold : forall i, 0 <= i < n -> qcell st2 i = qcell st i).
  { intros i Hi. unfold qcell. rewrite Eq. simpl. fold n.
    rewrite !upd_other by lia. reflexivity. }
  assert (Hlast : qcell st2 n = v).
  { unfold qcell. rewrite Eq. simpl. fold n. rewrite !upd_same.
    now destruct v. }
  assert (Hlab_old : forall i, 0 <= i < n -> lab1 i = lab i).
  { intros i Hi. unfold lab1. destruct (Z.eqb_spec i n); [lia | reflexivity]. }
  assert (Hlab_last : lab1 n = S (lab k)).
  { unfold lab1. now rewrite Z.eqb_refl. }
  assert (Hdisc : forall p, discovered st2 p <-> discovered st p \/ p = v).
  { intros p. unfold discovered. rewrite Hrear. fold n. split.
    - intros (i & Hi & <-). destruct (Z.eq_dec i n) as [-> | Hne].
      + right. assumption.
      + left. exists i. split; [lia | ]. symmetry. apply Hold. lia.
    - intros [(i & Hi & <-) | ->].
      + exists i. split; [lia | now apply Hold].
      + exists n. split; [lia | assumption]. }
  assert (Hdistv : distance g (start_cell g) v (S (lab k))).
  { pose proof (core_dist _ _ _ C k Hk) as [Wk _]. split.
    - eapply walk_step; eassumption.
    - intros m W. destruct (Nat.le_gt_cases (S (lab k)) m) as [? | Hlt]; [assumption | ].
      exfalso. apply Hnew. eapply (closed_walk lab st k); eauto. lia. }
  split; [ | repeat split; assumption].
  constructor.
  - rewrite Hrear, Hfront. fold n. lia.
  - rewrite Hrear. lia.
  - rewrite Hold by lia. apply (core_first _ _ _ C).
  - rewrite Hrear. intros i j Hi Hj E.
    destruct (Z.eq_dec i n) as [-> | Ni]; destruct (Z.eq_dec j n) as [-> | Nj];
      try reflexivity.
    + exfalso. apply Hnew. exists j. split; [fold n; lia | ].
      rewrite <- Hold by lia. now rewrite <- E.
    + exfalso. apply Hnew. exists i. split; [fold n; lia | ].
      rewrite <- Hold by lia. now rewrite E.
    + rewrite !Hold in E by lia. apply (core_inj _ _ _ C); fold n; try lia. assumption.
  - intros r c. rewrite Hdisc, Evis.
    destruct (upd2_cases (Bfs.visited st) (fst v) (snd v) 1 r c) as [[E ->] | [N ->]].
    + split; [intros _; right; now destruct v | intros _; lia].
    + rewrite (core_visited _ _ _ C). split; [tauto | ].
      intros [? | E]; [assumption | ]. exfalso. apply N. rewrite E. now destruct v.
  - rewrite Hrear. intros i Hi.
    destruct (Z.eq_dec i n) as [-> | Ni].
    + now rewrite Hlast, Hlab_last.
    + rewrite Hold, Hlab_old by lia. apply (core_dist _ _ _ C). fold n. lia.
  - rewrite Hrear. intros i j Hij Hj.
    destruct (Z.eq_dec j n) as [-> | Nj].
    + rewrite Hlab_last. destruct (Z.eq_dec i n) as [-> | Ni].
      * now rewrite Hlab_last.
      * rewrite Hlab_old by lia. apply Hspan. fold n. lia.
    + rewrite !Hlab_old by lia. apply (core_mono _ _ _ C); fold n; lia.
  - rewrite Hrear. intros i Hi.
    destruct (Z.eq_dec i n) as [-> | Ni].
    + exists k. rewrite Hlast, Hlab_last, Hlab_old, Hold by lia.
      rewrite Epr, Epc, !upd2_same. split; [lia | ].
      split; [now destruct (qcell st k) | ]. split; [assumption | reflexivity].
    + destruct (core_parent _ _ _ C i) as (j & Hj & Ep & Ha & El); [fold n; lia | ].
      exists j. rewrite !Hold, !Hlab_old by lia. split; [lia | ].
      rewrite Epr, Epc, !upd2_other; [tauto | | ].
      * intros E. apply Hnew. exists i. split; [fold n; lia | ].
        destruct (qcell st i), v. simpl in *. congruence.
      * intros E. apply Hnew. exists i. split; [fold n; lia | ].
        destruct (qcell st i), v. simpl in *. congruence.
  - rewrite Efound, Hdisc. split; [now right | ].
    intros [Hd | E]; [ | now rewrite E].
    apply (core_found _ _ _ C) in Hd. congruence.
  - rewrite Hrear, Eq. simpl. rewrite (core_history _ _ _ C). fold n.
    rewrite zseq_succ, map_app by lia. simpl. rewrite Hlast.
    f_equal; [ | now destruct v]. apply map_ext_zseq.
    intros i Hi. now rewrite Hold.
Qed.

Lemma discovered_mono st st2 :
  Bfs.rear (Bfs.q st) <= Bfs.rear (Bfs.q st2) ->
  (forall i, 0 <= i < Bfs.rear (Bfs.q st) -> qcell st2 i = qcell st i) ->
  forall p, discovered st p -> discovered st2 p.
Proof.
  intros Hr Hold p (i & Hi & <-). exists i. split; [lia | now apply Hold].
Qed.

Lemma closed_at_mono st st2 i d :
  Bfs.rear (Bfs.q st) <= Bfs.rear (Bfs.q st2) ->
  (forall i, 0 <= i < Bfs.rear (Bfs.q st) -> qcell st2 i = qcell st i) ->
  0 <= i < Bfs.rear (Bfs.q st) ->
  closed_at g st i d -> closed_at g st2 i d.
Proof.
  intros Hr Hold Hi Hc. unfold closed_at in *. rewrite Hold by assumption.
  intros Hp. eapply discovered_mono; eauto.
Qed.

Lemma exit_test r c :
  (r =? er g) && (c =? ec g) = true <-> (r, c) = exit_cell g.
Proof.
  unfold exit_cell. rewrite andb_true_iff, !Z.eqb_eq. split.
  - intros [-> ->]. reflexivity.
  - intros E. inversion E. auto.
Qed.

(** The [for] loop keeps the invariant. *)
Lemma expand_inner : forall ds lab st k cr cc,
  bfs_inner g lab st k ds ->
  (forall d, In d ds -> 0 <= d < 4) ->
  qcell st k = (cr, cc) ->
  exists lab',
    bfs_core g lab' (Bfs.expand g cr cc ds st) /\
    Bfs.front (Bfs.q (Bfs.expand g cr cc ds st)) = k + 1 /\
    (Bfs.found (Bfs.expand g cr cc ds st) = false ->
     bfs_inner g lab' (Bfs.expand g cr cc ds st) k []).
Proof.
  induction ds as [ | d ds IH]; intros lab st k cr cc Hin Hds Ek.
  - exists lab. destruct Hin as (C & Hnf & Hf & Hk & Hcl & Hpart & Hspan).
    split; [exact C | ]. split; [exact Hf | ]. intros _.
    unfold bfs_inner. tauto.
  - destruct Hin as (C & Hnf & Hf & Hk & Hcl & Hpart & Hspan).
    pose proof (core_front _ _ _ C) as Hfr.
    assert (Hd : 0 <= d < 4) by (apply Hds; now left).
    assert (Hds' : forall d', In d' ds -> 0 <= d' < 4) by (intros; apply Hds; now right).
    assert (Ev : (cr + dr d, cc + dc d) = nbr (qcell st k) d) by (now rewrite Ek).
    cbn [Bfs.expand].
    destruct (is_valid g (cr + dr d) (cc + dc d)) eqn:Hval; cbn [negb].
    2: { apply (IH lab st k); [ | assumption | assumption].
         split; [exact C | ]. split; [exact Hnf | ]. split; [exact Hf | ].
         split; [exact Hk | ]. split; [exact Hcl | ]. split; [ | exact Hspan].
         intros d' Hd' Hnin. destruct (Z.eq_dec d' d) as [-> | Hne].
         - intros Hp. rewrite <- Ev in Hp. apply is_valid_spec in Hp. congruence.
         - apply Hpart; [assumption | ]. simpl. intros [? | ?]; [congruence | contradiction]. }
    apply is_valid_spec in Hval.
    destruct (Z.eqb_spec (Bfs.visited st (cr + dr d) (cc + dc d)) 0) as [Hz | Hnz]; cbn [negb].
    2: { apply (IH lab st k); [ | assumption | assumption].
         split; [exact C | ]. split; [exact Hnf | ]. split; [exact Hf | ].
         split; [exact Hk | ]. split; [exact Hcl | ]. split; [ | exact Hspan].
         intros d' Hd' Hnin. destruct (Z.eq_dec d' d) as [-> | Hne].
         - intros _. rewrite <- Ev. now apply (core_visited _ _ _ C).
         - apply Hpart; [assumption | ]. simpl. intros [? | ?]; [congruence | contradiction]. }
    assert (Hnew : ~ discovered st (cr + dr d, cc + dc d)).
    { intros Hdisc. apply (core_visited _ _ _ C) in Hdisc. contradiction. }
    assert (Hadj : adjacent (qcell st k) (cr + dr d, cc + dc d)).
    { rewrite Ev. now apply adjacent_nbr. }
    set (st1 := Bfs.discover st cr cc (cr + dr d) (cc + dc d)).
    set (lab1 := fun i => if i =? Bfs.rear (Bfs.q st) then S (lab k) else lab i).
    destruct (((cr + dr d) =? er g) && ((cc + dc d) =? ec g)) eqn:Hexit.
    + apply exit_test in Hexit.
      destruct (discover_core lab st k (cr + dr d, cc + dc d) (Bfs.set_found st1))
        as (C1 & Hr1 & Hf1 & Hold & Hlast);
        try assumption; try (rewrite Ek; reflexivity); try reflexivity; try lia.
      { simpl. tauto. }
      exists lab1. split; [assumption | ]. split; [simpl in *; lia | ].
      simpl. discriminate.
    + assert (Hnx : (cr + dr d, cc + dc d) <> exit_cell g).
      { intros E. apply exit_test in E. congruence. }
      destruct (discover_core lab st k (cr + dr d, cc + dc d) st1)
        as (C1 & Hr1 & Hf1 & Hold & Hlast);
        try assumption; try (rewrite Ek; reflexivity); try reflexivity; try lia.
      { simpl. rewrite Hnf. split; [discriminate | intros; contradiction]. }
      assert (Hk1 : qcell st1 k = qcell st k) by (apply Hold; lia).
      apply (IH lab1 st1 k); [ | assumption | congruence].
      split; [assumption | ]. split; [exact Hnf | ]. split; [lia | ].
      split; [assumption | ]. split; [ | split].
      * intros i d' Hi Hd'. apply (closed_at_mono st); try lia; try assumption.
        now apply Hcl.
      * intros d' Hd' Hnin. destruct (Z.eq_dec d' d) as [-> | Hne].
        -- intros _. rewrite Hk1, <- Ev.
           exists (Bfs.rear (Bfs.q st)). split; [lia | assumption].
        -- apply (closed_at_mono st); try lia; try assumption.
           apply Hpart; [assumption | ]. simpl. intros [? | ?]; [congruence | contradiction].
      * rewrite Hr1. intros j Hj. unfold lab1.
        destruct (Z.eqb_spec k (Bfs.rear (Bfs.q st))); [lia | ].
        destruct (Z.eqb_spec j (Bfs.rear (Bfs.q st))); [lia | ].
        apply Hspan. lia.
Qed.

(** Dequeuing the front cell starts its [for] loop. *)
Lemma pop_inner lab st :
  bfs_outer g lab st ->
  Bfs.found st = false ->
  Bfs.front (Bfs.q st) <> Bfs.rear (Bfs.q st) ->
  let k := Bfs.front (Bfs.q st) in
  let st1 := Bfs.set_q st (snd (Bfs.queue_pop (Bfs.q st))) in
  bfs_inner g lab st1 k (zseq 4) /\
  fst (Bfs.queue_pop (Bfs.q st)) = qcell st1 k /\
  Bfs.rear (Bfs.q st1) = Bfs.rear (Bfs.q st).
Proof.
  intros (C & Hout) Hnf Hne k st1.
  destruct (Hout Hnf) as (Hcl & Hspan).
  pose proof (core_front _ _ _ C) as Hfr.
  pose proof (core_rear _ _ _ C) as Hr.
  assert (Hf1 : Bfs.front (Bfs.q st1) = k + 1).
  { simpl. apply Z.rem_small. fold k. lia. }
  split; [ | split; reflexivity].
  split; [ | split; [exact Hnf | split; [exact Hf1 | split; [lia | split; [ | split]]]]].
  - destruct C. constructor; try assumption.
    rewrite Hf1. change (Bfs.rear (Bfs.q st1)) with (Bfs.rear (Bfs.q st)). fold k in Hfr. lia.
  - intros i d Hi Hd. apply Hcl; assumption.
  - intros d Hd Hnin. exfalso. apply Hnin. rewrite zseq_4. simpl. lia.
  - intros j Hj. apply Hspan; [fold k; lia | exact Hj].
Qed.

(** The [while] loop keeps the invariant and stops within the fuel. *)
Lemma bfs_loop_outer : forall fuel lab st,
  bfs_outer g lab st ->
  (Z.to_nat (rows g * cols g - Bfs.front (Bfs.q st)) < fuel)%nat ->
  exists st' lab',
    Bfs.bfs_loop fuel g st = Some st' /\
    bfs_outer g lab' st' /\
    (Bfs.found st' = true \/ Bfs.front (Bfs.q st') = Bfs.rear (Bfs.q st')).
Proof.
  induction fuel as [ | fuel IH]; intros lab st Hout Hfuel; [lia | ].
  cbn [Bfs.bfs_loop]. unfold Bfs.queue_empty.
  destruct (Z.eqb_spec (Bfs.front (Bfs.q st)) (Bfs.rear (Bfs.q st))) as [He | Hne];
    cbn [negb andb].
  { exists st, lab. auto. }
  destruct (Bfs.found st) eqn:Hnf; cbn [negb].
  { exists st, lab. auto. }
  destruct (pop_inner lab st Hout Hnf Hne) as (Hin & Ecell & Hrear).
  destruct (Bfs.queue_pop (Bfs.q st)) as [[cr cc] q1] eqn:Epop.
  cbn [fst snd] in *.
  destruct (expand_inner (zseq 4) lab (Bfs.set_q st q1) (Bfs.front (Bfs.q st)) cr cc)
    as (lab1 & C1 & Hf1 & Hin1); [assumption | | congruence | ].
  { intros d Hd. now apply in_zseq in Hd. }
  set (st2 := Bfs.expand g cr cc (zseq 4) (Bfs.set_q st q1)) in *.
  destruct (IH lab1 st2) as (st' & lab' & Hrun & Hout' & Hend).
  - split; [exact C1 | ]. intros Hnf2.
    destruct (Hin1 Hnf2) as (_ & _ & _ & Hk & Hcl & Hpart & Hspan).
    rewrite Hf1. split.
    + intros i d Hi Hd.
      destruct (Z.eq_dec i (Bfs.front (Bfs.q st))) as [-> | Hni].
      * apply Hpart; [assumption | intros []].
      * apply Hcl; [lia | assumption].
    + intros j Hlt Hj.
      pose proof (core_mono _ _ _ C1 (Bfs.front (Bfs.q st)) (Bfs.front (Bfs.q st) + 1)) as Hm.
      specialize (Hspan j Hj). lia.
  - destruct Hout as (C & _). pose proof (core_front _ _ _ C).
    pose proof (core_rear _ _ _ C). rewrite Hf1. lia.
  - exists st', lab'. auto.
Qed.

Hypothesis Hstart : passable g (start_cell g).
Hypothesis Hdiff : start_cell g <> exit_cell g.

(** The state in which the loop is entered. *)
Lemma bfs_start_outer q0 pr0 pc0 :
  bfs_outer g (fun _ => O) (Bfs.bfs_start g q0 pr0 pc0).
Proof.
  assert (Hrows : 1 <= rows g * cols g).
  { destruct Hstart as [[H1 H2] _]. simpl in *. nia. }
  assert (Hq : 1 < QSIZE) by reflexivity.
  set (st := Bfs.bfs_start g q0 pr0 pc0).
  assert (Hr : Bfs.rear (Bfs.q st) = 1) by reflexivity.
  assert (H0 : qcell st 0 = start_cell g) by reflexivity.
  split.
  - constructor.
    + rewrite Hr. simpl. lia.
    + rewrite Hr. lia.
    + exact H0.
    + rewrite Hr. intros. lia.
    + intros r c. unfold discovered. rewrite Hr. simpl Bfs.visited.
      destruct (upd2_cases (fun _ _ : Z => 0) (sr g) (sc g) 1 r c) as [[E ->] | [N ->]].
      * split; [ | lia]. intros _. exists 0. split; [lia | ]. now rewrite H0.
      * split; [lia | ]. intros (i & Hi & E). exfalso. apply N.
        assert (i = 0) by lia. subst i. rewrite H0 in E. now symmetry.
    + rewrite Hr. intros i Hi. assert (i = 0) by lia. subst i.
      rewrite H0. now apply distance_start.
    + intros. lia.
    + rewrite Hr. intros. lia.
    + unfold discovered. rewrite Hr. simpl Bfs.found. split; [discriminate | ].
      intros (i & Hi & E). assert (i = 0) by lia. subst i. rewrite H0 in E.
      contradiction.
    + reflexivity.
  - intros _. split.
    + simpl. intros. lia.
    + rewrite Hr. intros. lia.
Qed.

(** The search ends, in a state that satisfies the invariant. *)
Lemma bfs_loop_result q0 pr0 pc0 :
  exists st lab,
    Bfs.bfs_loop (cells_fuel g) g (Bfs.bfs_start g q0 pr0 pc0) = Some st /\
    bfs_outer g lab st /\
    (Bfs.found st = true \/ Bfs.front (Bfs.q st) = Bfs.rear (Bfs.q st)).
Proof.
  apply (bfs_loop_outer _ (fun _ => O)).
  - apply bfs_start_outer.
  - unfold cells_fuel. simpl. lia.
Qed.

End BfsInvariant.

(** ** Walking the parent links back *)

Lemma start_test g cr cc :
  negb (cr =? sr g) || negb (cc =? sc g) = false <-> (cr, cc) = start_cell g.
Proof.
  unfold start_cell.
  destruct (Z.eqb_spec cr (sr g)); destruct (Z.eqb_spec cc (sc g)); simpl;
    split; intros H; try discriminate; try reflexivity; try congruence.
Qed.

(** [parent_walk] lists the cells the loop of [mark_shortest_path] stands
    on: both stop together, and the length printed is the number of
    links followed. *)
Lemma mark_loop_parent_walk P Q g : forall fuel g1 cr cc len,
  sr g1 = sr g -> sc g1 = sc g ->
  match Bfs.mark_loop fuel g1 P Q cr cc len, Bfs.parent_walk fuel g P Q cr cc with
  | Some (g2, n), Some l => n = len + Z.of_nat (length l) - 1
  | None, None => True
  | _, _ => False
  end.
Proof.
  induction fuel as [ | fuel IH]; intros g1 cr cc len Hr Hc; simpl; rewrite Hr, Hc.
  - destruct (negb (cr =? sr g) || negb (cc =? sc g)); simpl; [trivial | lia].
  - destruct (negb (cr =? sr g) || negb (cc =? sc g)); simpl; [ | lia].
    match goal with
    | |- context [Bfs.mark_loop fuel ?g2 P Q ?a ?b ?n] =>
        specialize (IH g2 a b n)
    end.
    destruct (Bfs.parent_walk fuel g P Q (P cr cc) (Q cr cc)) as [l | ].
    + match type of IH with
      | _ -> _ -> match ?m with _ => _ end =>
          destruct m as [[g2 n] | ]
      end.
      * rewrite IH; [simpl length; lia | | ];
          destruct (negb (Ascii.eqb (maze g1 cr cc) "S") && negb (Ascii.eqb (maze g1 cr cc) "E"));
          assumption.
      * apply IH;
          destruct (negb (Ascii.eqb (maze g1 cr cc) "S") && negb (Ascii.eqb (maze g1 cr cc) "E"));
          assumption.
    + match type of IH with
      | _ -> _ -> match ?m with _ => _ end =>
          destruct m as [[g2 n] | ]
      end.
      * apply IH;
          destruct (negb (Ascii.eqb (maze g1 cr cc) "S") && negb (Ascii.eqb (maze g1 cr cc) "E"));
          assumption.
      * trivial.
Qed.

Section BfsResults.

Variable g : grid.
Hypothesis Hcap : rows g * cols g < QSIZE.
Hypothesis Hstart : passable g (start_cell g).
Hypothesis Hdiff : start_cell g <> exit_cell g.

Lemma lab_first lab st : bfs_core g lab st -> lab 0 = O.
Proof.
  intros C. pose proof (core_rear _ _ _ C) as Hr.
  pose proof (core_dist _ _ _ C 0) as Hd. rewrite (core_first _ _ _ C) in Hd.
  eapply distance_unique; [apply Hd; lia | now apply distance_start].
Qed.

(** From the cell of slot [i] the parent links lead to the start in
    [lab i] steps, through distinct discovered cells. *)
Lemma parent_walk_slot lab st :
  bfs_core g lab st ->
  forall fuel i,
    0 <= i < Bfs.rear (Bfs.q st) ->
    (lab i < fuel)%nat ->
    exists l,
      Bfs.parent_walk fuel g (Bfs.parent_r st) (Bfs.parent_c st)
                      (fst (qcell st i)) (snd (qcell st i)) = Some l /\
      length l = S (lab i) /\
      hd (start_cell g) l = qcell st i /\
      last l (qcell st i) = start_cell g /\
      contiguous l /\
      NoDup l /\
      (forall p, In p l -> exists j, 0 <= j <= i /\ qcell st j = p).
Proof.
  intros C. induction fuel as [ | fuel IH]; intros i Hi Hfuel; [lia | ].
  cbn [Bfs.parent_walk].
  destruct (negb (fst (qcell st i) =? sr g) || negb (snd (qcell st i) =? sc g)) eqn:Htest.
  - assert (Hi0 : i <> 0).
    { intros ->. rewrite (core_first _ _ _ C) in Htest.
      assert (negb (sr g =? sr g) || negb (sc g =? sc g) = false) by now apply start_test.
      simpl in Htest. congruence. }
    destruct (core_parent _ _ _ C i) as (j & Hj & Ep & Hadj & Hlab); [lia | ].
    pose proof (f_equal fst Ep) as Epr. pose proof (f_equal snd Ep) as Epc.
    cbn [fst snd] in Epr, Epc. rewrite Epr, Epc.
    destruct (IH j) as (l & Hrun & Hlen & Hhd & Hlast & Hcont & Hnd & Hall); [lia | lia | ].
    rewrite Hrun. exists (qcell st i :: l).
    destruct l as [ | p l']; [discriminate | ]. simpl in Hhd. subst p.
    split; [now destruct (qcell st i) | ].
    split; [simpl in *; lia | ]. split; [reflexivity | ].
    split; [ | split; [ | split]].
    + change (last (qcell st j :: l') (qcell st i) = start_cell g).
      rewrite (last_default _ _ (qcell st j)); [exact Hlast | discriminate].
    + split; [now apply adjacent_sym | assumption].
    + constructor; [ | assumption]. intros Hin.
      destruct (Hall _ Hin) as (j' & Hj' & E).
      apply (core_inj _ _ _ C) in E; lia.
    + intros p [<- | Hin]; [exists i; split; [lia | reflexivity] | ].
      destruct (Hall _ Hin) as (j' & Hj' & E). exists j'. split; [lia | assumption].
  - assert (Hst : qcell st i = start_cell g).
    { apply start_test in Htest. now destruct (qcell st i). }
    assert (i = 0).
    { pose proof (core_rear _ _ _ C).
      apply (core_inj _ _ _ C); try lia.
      now rewrite (core_first _ _ _ C). }
    subst i. exists [qcell st 0].
    split; [now destruct (qcell st 0) | ].
    rewrite (lab_first lab st C).
    split; [reflexivity | ]. split; [reflexivity | ]. split; [simpl; assumption | ].
    split; [exact I | ]. split; [repeat constructor; intros [] | ].
    intros p [<- | []]. exists 0. split; [lia | reflexivity].
Qed.

Lemma lab_le_slot lab st :
  bfs_core g lab st ->
  forall i, 0 <= i < Bfs.rear (Bfs.q st) -> Z.of_nat (lab i) <= i.
Proof.
  intros C.
  assert (H : forall n i, (Z.to_nat i < n)%nat -> 0 <= i < Bfs.rear (Bfs.q st) ->
                          Z.of_nat (lab i) <= i).
  { induction n as [ | n IH]; intros i Hn Hi; [lia | ].
    destruct (Z.eq_dec i 0) as [-> | Hne].
    - rewrite (lab_first lab st C). simpl. lia.
    - destruct (core_parent _ _ _ C i) as (j & Hj & _ & _ & Hlab); [lia | ].
      specialize (IH j). rewrite Hlab. lia. }
  intros i Hi. apply (H (S (Z.to_nat i))); [lia | assumption].
Qed.

(** When the loop ends with the queue empty, the exit is out of reach. *)
Lemma not_found_unreachable lab st :
  bfs_outer g lab st ->
  Bfs.found st = false ->
  Bfs.front (Bfs.q st) = Bfs.rear (Bfs.q st) ->
  ~ reachable g (start_cell g) (exit_cell g).
Proof.
  intros (C & Hout) Hnf Hempty (m & W).
  destruct (Hout Hnf) as (Hcl & _).
  assert (Hd : discovered st (exit_cell g)).
  { apply (closed_walk_all g lab st C) with (m := m); [ | assumption].
    intros i d Hi Hd. apply Hcl; [lia | assumption]. }
  apply (core_found _ _ _ C) in Hd. congruence.
Qed.

(** When the loop ends with the exit found, the parent links from the
    exit give a shortest path. *)
Lemma found_parent_walk lab st :
  bfs_core g lab st ->
  Bfs.found st = true ->
  exists l n,
    Bfs.parent_walk (cells_fuel g) g (Bfs.parent_r st) (Bfs.parent_c st) (er g) (ec g)
    = Some l /\
    length l = S n /\
    distance g (start_cell g) (exit_cell g) n /\
    hd (start_cell g) l = exit_cell g /\
    last l (exit_cell g) = start_cell g /\
    contiguous l /\
    NoDup l /\
    (forall p, In p l -> passable g p).
Proof.
  intros C Hf. apply (core_found _ _ _ C) in Hf. destruct Hf as (e & He & Ee).
  destruct (parent_walk_slot lab st C (cells_fuel g) e He)
    as (l & Hrun & Hlen & Hhd & Hlast & Hcont & Hnd & Hall).
  { pose proof (lab_le_slot lab st C e He). pose proof (core_rear _ _ _ C).
    unfold cells_fuel. lia. }
  rewrite Ee in Hrun, Hhd, Hlast. cbn [fst snd exit_cell] in Hrun.
  exists l, (lab e). repeat (split; [assumption | ]).
  split; [rewrite <- Ee; now apply (core_dist _ _ _ C) | ].
  repeat (split; [assumption | ]).
  intros p Hin. destruct (Hall p Hin) as (j & Hj & <-).
  apply (discovered_passable g lab st _ C). exists j. split; [lia | reflexivity].
Qed.

End BfsResults.

(** ** The queue history *)

Lemma pushed_app h1 h2 : pushed (h1 ++ h2) = pushed h2 ++ pushed h1.
Proof.
  induction h1 as [ | e h1 IH]; simpl.
  - now rewrite app_nil_r.
  - destruct e; rewrite IH; [now rewrite app_assoc | reflexivity].
Qed.

Lemma NoDup_remove_left (x : Z) : forall l r,
  NoDup (l ++ r) -> NoDup (remove Z.eq_dec x l ++ r).
Proof.
  induction l as [ | a l IH]; intros r H; [assumption | ].
  simpl in H. inversion H as [ | ? ? Hnotin Hnd]; subst.
  simpl. destruct (Z.eq_dec x a) as [-> | Hne]; [now apply IH | ].
  simpl. constructor; [ | now apply IH].
  intros Hin. apply Hnotin. apply in_app_iff in Hin. apply in_app_iff.
  destruct Hin as [Hin | Hin]; [ | now right].
  left. now apply in_remove in Hin.
Qed.

(** Operations whose pushes all go to distinct slots, none of them live,
    never overwrite a live slot. *)
Lemma no_overwrite_fresh : forall ops live,
  NoDup (live ++ map fst (pushed (rev ops))) -> no_overwrite live ops.
Proof.
  induction ops as [ | e ops IH]; intros live H; [exact I | ].
  simpl rev in H. rewrite pushed_app in H. destruct e as [s r c | s].
  - cbn [pushed app map fst] in H. cbn [no_overwrite].
    pose proof (NoDup_remove _ _ _ H) as [Hnd Hnotin]. split.
    + intros Hin. apply Hnotin. apply in_app_iff. now left.
    + apply IH. simpl. constructor; assumption.
  - cbn [pushed app] in H. cbn [no_overwrite]. apply IH.
    now apply NoDup_remove_left.
Qed.

(** What the invariant says about the history: every push went to a slot
    of its own and enqueued a cell of its own, marked visited. *)
Lemma core_history_facts g lab st :
  bfs_core g lab st ->
  NoDup (map snd (pushed (Bfs.history (Bfs.q st)))) /\
  (forall p, In p (map snd (pushed (Bfs.history (Bfs.q st)))) ->
             Bfs.visited st (fst p) (snd p) <> 0) /\
  Z.of_nat (length (pushed (Bfs.history (Bfs.q st)))) <= rows g * cols g /\
  no_overwrite [] (rev (Bfs.history (Bfs.q st))).
Proof.
  intros C. rewrite (core_history _ _ _ C).
  pose proof (core_rear _ _ _ C) as Hr.
  rewrite !map_map. cbn [snd].
  split; [ | split; [ | split]].
  - apply NoDup_map_inj_on; [apply zseq_NoDup | ].
    intros i j Hi Hj. apply in_zseq in Hi, Hj. now apply (core_inj _ _ _ C).
  - intros p Hin. apply in_map_iff in Hin. destruct Hin as (i & <- & Hi).
    apply in_zseq in Hi. apply (core_visited _ _ _ C). rewrite <- surjective_pairing.
    now exists i.
  - rewrite length_map, zseq_length. lia.
  - apply no_overwrite_fresh. rewrite rev_involutive, (core_history _ _ _ C).
    rewrite map_map. cbn [fst app]. rewrite map_id. apply zseq_NoDup.
Qed.

(** ** Depth-first search: backtracking *)

Lemma dfs_same_refl st : dfs_same st st.
Proof. unfold dfs_same. auto. Qed.

Lemma dfs_same_trans st1 st2 st3 :
  dfs_same st1 st2 -> dfs_same st2 st3 -> dfs_same st1 st3.
Proof.
  intros (Hv1 & Hl1 & Hp1) (Hv2 & Hl2 & Hp2). split; [ | split].
  - intros i j. now rewrite Hv2, Hv1.
  - congruence.
  - intros i Hi. destruct (Hp2 i) as [-> ->]; [lia | ]. now apply Hp1.
Qed.

Section DfsFrame.

Variable g : grid.
Variable rand : nat -> nat.

(** The loop over the directions ends with [false] only when every call
    it made returned [false]; if those calls restore the state, so does
    the loop. *)
Lemma try_dirs_failure call r c dirs :
  (forall nr nc s s',
      call nr nc s = Some (false, s') -> Dfs.visited s nr nc = 0 -> dfs_same s s') ->
  forall idxs st st',
    Dfs.try_dirs call g r c dirs idxs st = Some (false, st') -> dfs_same st st'.
Proof.
  intros Hcall. induction idxs as [ | i idxs IH]; intros st st' Hrun.
  - simpl in Hrun. injection Hrun as <-. apply dfs_same_refl.
  - cbn [Dfs.try_dirs] in Hrun.
    destruct (is_valid g (r + dr (dirs i)) (c + dc (dirs i))); cbn [andb] in Hrun;
      [ | now apply IH].
    destruct (Z.eqb_spec (Dfs.visited st (r + dr (dirs i)) (c + dc (dirs i))) 0)
      as [Hz | Hnz]; [ | now apply IH].
    destruct (call (r + dr (dirs i)) (c + dc (dirs i)) st) as [[[ | ] s1] | ] eqn:Ecall;
      try discriminate.
    apply (dfs_same_trans st s1 st'); [ | now apply IH].
    now apply (Hcall _ _ _ _ Ecall).
Qed.

Lemma dfs_failure_same : forall fuel r c st st',
  Dfs.dfs_find_one_path fuel g rand r c st = Some (false, st') ->
  Dfs.visited st r c = 0 ->
  dfs_same st st'.
Proof.
  induction fuel as [ | fuel IH]; intros r c st st' Hrun Hunv; [discriminate | ].
  cbn [Dfs.dfs_find_one_path] in Hrun.
  destruct ((r =? er g) && (c =? ec g)); [discriminate | ].
  destruct (Dfs.shuffle rand 3 (arr_of_list [0; 1; 2; 3])
                        (Dfs.rand_calls (Dfs.set_visited (Dfs.path_push st r c) r c 1)))
    as [dirs k].
  set (st3 := Dfs.set_rand_calls (Dfs.set_visited (Dfs.path_push st r c) r c 1) k) in *.
  destruct (Dfs.try_dirs (Dfs.dfs_find_one_path fuel g rand) g r c dirs (zseq 4) st3)
    as [[[ | ] s1] | ] eqn:Etry; try discriminate.
  injection Hrun as <-.
  destruct (try_dirs_failure _ r c dirs (IH) _ _ _ Etry) as (Hv & Hl & Hp).
  split; [ | split].
  - intros i j. cbn [Dfs.backtrack Dfs.visited].
    destruct (upd2_cases (Dfs.visited s1) r c 0 i j) as [[E ->] | [N ->]].
    + inversion E. subst. now rewrite Hunv.
    + rewrite Hv. unfold st3. cbn [Dfs.set_rand_calls Dfs.set_visited Dfs.path_push Dfs.visited].
      now apply upd2_other.
  - cbn [Dfs.backtrack Dfs.path_len]. rewrite Hl. simpl. lia.
  - intros i Hi. cbn [Dfs.backtrack Dfs.current_path_r Dfs.current_path_c].
    destruct (Hp i) as [-> ->]; [simpl; lia | ].
    simpl. rewrite !upd_other by lia. auto.
Qed.

End DfsFrame.

(** C5.  Whenever a call of [dfs_find_one_path] on a cell that is not
    marked -- as the guard before every recursive call and the zeroed
    matrix of the top-level call ensure -- returns failure, the visited
    matrix is entry by entry what it was before the call, [path_len] is
    what it was, and [current_path_r] and [current_path_c] hold the same
    cells up to [path_len]. *)
Theorem dfs_failure_restores (fuel : nat) (g : grid) (rand : nat -> nat)
        (r c : Z) (st st' : Dfs.state) :
  Dfs.dfs_find_one_path fuel g rand r c st = Some (false, st') ->
  Dfs.visited st r c = 0 ->
  (forall i j, Dfs.visited st' i j = Dfs.visited st i j) /\
  Dfs.path_len st' = Dfs.path_len st /\
  (forall i, 0 <= i < Dfs.path_len st ->
             Dfs.current_path_r st' i = Dfs.current_path_r st i /\
             Dfs.current_path_c st' i = Dfs.current_path_c st i).
Proof.
  intros Hrun Hunv.
  destruct (dfs_failure_same g rand fuel r c st st' Hrun Hunv) as (Hv & Hl & Hp).
  split; [exact Hv | ]. split; [exact Hl | ]. intros i Hi. apply Hp. lia.
Qed.

(** ** Depth-first search: the path found *)

Lemma shuffle_range rand : forall i dirs k,
  (i <= 3)%nat ->
  (forall x, 0 <= x < 4 -> 0 <= dirs x < 4) ->
  forall x, 0 <= x < 4 -> 0 <= fst (Dfs.shuffle rand i dirs k) x < 4.
Proof.
  induction i as [ | i IH]; intros dirs k Hi Hdirs x Hx; [now apply Hdirs | ].
  cbn [Dfs.shuffle]. apply IH; [lia | | assumption].
  intros y Hy.
  assert (Hj : 0 <= Z.rem (Z.of_nat (rand k)) (Z.of_nat (S i) + 1) < 4).
  { pose proof (Z.rem_bound_pos (Z.of_nat (rand k)) (Z.of_nat (S i) + 1)). lia. }
  unfold upd.
  destruct (y =? Z.rem (Z.of_nat (rand k)) (Z.of_nat (S i) + 1)); [apply Hdirs; lia | ].
  destruct (y =? Z.of_nat (S i)); apply Hdirs; lia.
Qed.

Lemma shuffled_dirs_range rand k x :
  0 <= x < 4 ->
  0 <= fst (Dfs.shuffle rand 3 (arr_of_list [0; 1; 2; 3]) k) x < 4.
Proof.
  apply shuffle_range; [lia | ].
  intros y Hy. assert (C : y = 0 \/ y = 1 \/ y = 2 \/ y = 3) by lia.
  destruct C as [-> | [-> | [-> | ->]]]; cbv; split; congruence.
Qed.

Section DfsPath.

Variable g : grid.
Variable rand : nat -> nat.

(** The loop over the directions ends with [true] when one of its calls
    returned [true]; the calls before it had all returned [false]. *)
Lemma try_dirs_success call r c dirs :
  (forall nr nc s s',
      call nr nc s = Some (false, s') -> Dfs.visited s nr nc = 0 -> dfs_same s s') ->
  forall idxs st st',
    Dfs.try_dirs call g r c dirs idxs st = Some (true, st') ->
    exists i s,
      In i idxs /\ dfs_same st s /\
      is_valid g (r + dr (dirs i)) (c + dc (dirs i)) = true /\
      Dfs.visited s (r + dr (dirs i)) (c + dc (dirs i)) = 0 /\
      call (r + dr (dirs i)) (c + dc (dirs i)) s = Some (true, st').
Proof.
  intros Hcall. induction idxs as [ | i idxs IH]; intros st st' Hrun; [discriminate | ].
  cbn [Dfs.try_dirs] in Hrun.
  assert (Hnext : Dfs.try_dirs call g r c dirs idxs st = Some (true, st') ->
                  exists i0 s, In i0 (i :: idxs) /\ dfs_same st s /\
                    is_valid g (r + dr (dirs i0)) (c + dc (dirs i0)) = true /\
                    Dfs.visited s (r + dr (dirs i0)) (c + dc (dirs i0)) = 0 /\
                    call (r + dr (dirs i0)) (c + dc (dirs i0)) s = Some (true, st')).
  { intros H. destruct (IH _ _ H) as (i0 & s & Hin & Hrest).
    exists i0, s. split; [now right | assumption]. }
  destruct (is_valid g (r + dr (dirs i)) (c + dc (dirs i))) eqn:Hval; cbn [andb] in Hrun;
    [ | now apply Hnext].
  destruct (Z.eqb_spec (Dfs.visited st (r + dr (dirs i)) (c + dc (dirs i))) 0)
    as [Hz | Hnz]; [ | now apply Hnext].
  destruct (call (r + dr (dirs i)) (c + dc (dirs i)) st) as [[[ | ] s1] | ] eqn:Ecall;
    try discriminate.
  - injection Hrun as <-. exists i, st. split; [now left | ].
    split; [apply dfs_same_refl | auto].
  - destruct (IH _ _ Hrun) as (i0 & s & Hin & Hsame & Hrest).
    exists i0, s. split; [now right | ]. split; [ | assumption].
    apply (dfs_same_trans st s1 s); [ | assumption].
    now apply (Hcall _ _ _ _ Ecall).
Qed.

(** A successful call extends the path by a simple path from its cell to
    the exit, made of cells that were not marked when it was called. *)
Lemma dfs_success_path : forall fuel r c st st',
  Dfs.dfs_find_one_path fuel g rand r c st = Some (true, st') ->
  passable g (r, c) ->
  Dfs.visited st r c = 0 ->
  exists seg,
    path_extends st st' seg /\
    simple_path g (r, c) (exit_cell g) seg /\
    (forall p, In p seg -> Dfs.visited st (fst p) (snd p) = 0).
Proof.
  induction fuel as [ | fuel IH]; intros r c st st' Hrun Hpass Hunv; [discriminate | ].
  cbn [Dfs.dfs_find_one_path] in Hrun.
  destruct ((r =? er g) && (c =? ec g)) eqn:Hexit.
  - injection Hrun as <-. apply exit_test in Hexit.
    exists [(r, c)]. split; [ | split].
    + split; [simpl; lia | split].
      * intros i Hi. unfold path_cell. simpl. now rewrite !upd_other by lia.
      * intros k Hk. assert (k = O) by (simpl in Hk; lia). subst k.
        unfold path_cell. simpl. rewrite Z.add_0_r, !upd_same. reflexivity.
    + split; [reflexivity | ]. split; [simpl; congruence | ]. split; [exact I | ].
      split; [now constructor | ]. constructor; [intros [] | constructor].
    + intros p [<- | []]. exact Hunv.
  - pose proof (shuffled_dirs_range rand
                  (Dfs.rand_calls (Dfs.set_visited (Dfs.path_push st r c) r c 1)))
      as Hrange.
    destruct (Dfs.shuffle rand 3 (arr_of_list [0; 1; 2; 3])
                          (Dfs.rand_calls (Dfs.set_visited (Dfs.path_push st r c) r c 1)))
      as [dirs k].
    cbn [fst] in Hrange.
    set (st3 := Dfs.set_rand_calls (Dfs.set_visited (Dfs.path_push st r c) r c 1) k) in *.
    destruct (Dfs.try_dirs (Dfs.dfs_find_one_path fuel g rand) g r c dirs (zseq 4) st3)
      as [[[ | ] s1] | ] eqn:Etry; try discriminate.
    injection Hrun as <-.
    destruct (try_dirs_success _ r c dirs (dfs_failure_same g rand fuel) _ _ _ Etry)
      as (i & s & Hi & (Hv & Hl & Hp) & Hval & Hz & Hcall).
    apply in_zseq in Hi. specialize (Hrange i Hi).
    set (nr := r + dr (dirs i)) in *. set (nc := c + dc (dirs i)) in *.
    apply is_valid_spec in Hval.
    destruct (IH nr nc s s1 Hcall Hval Hz) as (seg & (Hlen & Hpre & Hseg) & Hsimple & Hunvs).
    assert (Hl3 : Dfs.path_len st3 = Dfs.path_len st + 1) by reflexivity.
    assert (Hv3 : forall a b, Dfs.visited st3 a b = upd2 (Dfs.visited st) r c 1 a b)
      by reflexivity.
    assert (Hcell3 : path_cell st3 (Dfs.path_len st) = (r, c)).
    { unfold path_cell, st3. simpl. now rewrite !upd_same. }
    assert (Hold3 : forall j, j < Dfs.path_len st -> path_cell st3 j = path_cell st j).
    { intros j Hj. unfold path_cell, st3. simpl. now rewrite !upd_other by lia. }
    assert (Hs3 : forall j, j < Dfs.path_len st + 1 -> path_cell s j = path_cell st3 j).
    { intros j Hj. unfold path_cell. destruct (Hp j) as [-> ->]; [lia | reflexivity]. }
    assert (Hnotin : ~ In (r, c) seg).
    { intros Hin. apply Hunvs in Hin. cbn [fst snd] in Hin.
      rewrite Hv, Hv3, upd2_same in Hin. discriminate. }
    destruct Hsimple as (Hhd & Hlast & Hcont & Hall & Hnd).
    destruct seg as [ | p0 seg']; [discriminate | ].
    injection Hhd as ->.
    exists ((r, c) :: (nr, nc) :: seg'). split; [ | split].
    + split; [ | split].
      * rewrite Hlen, Hl, Hl3. cbn [length]. lia.
      * intros j Hj. rewrite Hpre by lia. rewrite Hs3 by lia. now apply Hold3.
      * intros [ | k'] Hk.
        -- cbn [nth]. rewrite Z.add_0_r, Hpre by lia. rewrite Hs3 by lia. exact Hcell3.
        -- cbn [nth]. specialize (Hseg k'). rewrite Hl, Hl3 in Hseg.
           replace (Dfs.path_len st + Z.of_nat (S k')) with
             (Dfs.path_len st + 1 + Z.of_nat k') by lia.
           apply Hseg. cbn [length] in *. lia.
    + split; [reflexivity | ]. split; [ | split; [ | split]].
      * change (last ((nr, nc) :: seg') (r, c) = exit_cell g).
        rewrite (last_default _ _ (nr, nc)); [exact Hlast | discriminate].
      * split; [ | exact Hcont].
        change (nr, nc) with (nbr (r, c) (dirs i)). now apply adjacent_nbr.
      * now constructor.
      * now constructor.
    + intros p [<- | Hin]; [exact Hunv | ].
      pose proof (Hunvs p Hin) as Hz0. rewrite Hv, Hv3 in Hz0.
      rewrite upd2_other in Hz0; [exact Hz0 | ].
      intros E. apply Hnotin. rewrite <- E. now destruct p.
Qed.

End DfsPath.

Lemma nth_zseq n k d : (k < Z.to_nat n)%nat -> nth k (zseq n) d = Z.of_nat k.
Proof.
  intros H. unfold zseq.
  rewrite (nth_indep _ d (Z.of_nat O)) by (rewrite length_map, length_seq; exact H).
  rewrite map_nth, seq_nth by exact H. reflexivity.
Qed.

Lemma nth_map_zseq {A} (f : Z -> A) n k d :
  (k < Z.to_nat n)%nat -> nth k (map f (zseq n)) d = f (Z.of_nat k).
Proof.
  intros H.
  rewrite (nth_indep _ d (f 0)) by (rewrite length_map, zseq_length; exact H).
  rewrite map_nth, nth_zseq by exact H. reflexivity.
Qed.

(** From an empty path, the path after the call is the segment added. *)
Lemma path_extends_from_empty st st' seg :
  Dfs.path_len st = 0 -> path_extends st st' seg -> Dfs.path_cells st' = seg.
Proof.
  intros H0 (Hlen & _ & Hseg). rewrite H0 in *. unfold Dfs.path_cells.
  apply (nth_ext _ _ (0, 0) (0, 0)).
  - rewrite length_map, zseq_length, Hlen. lia.
  - intros k Hk. rewrite length_map, zseq_length, Hlen in Hk.
    rewrite nth_map_zseq by (rewrite Hlen; lia).
    specialize (Hseg k). rewrite Z.add_0_l in Hseg. apply Hseg. lia.
Qed.

(** ** Depth-first search: the recursion ends *)

Lemma filter_length_le {A} (f h : A -> bool) (l : list A) :
  (forall y, In y l -> f y = true -> h y = true) ->
  (length (filter f l) <= length (filter h l))%nat.
Proof.
  induction l as [ | a l IH]; intros H; [simpl; lia | ].
  assert (IH' : (length (filter f l) <= length (filter h l))%nat).
  { apply IH. intros y Hy. apply H. now right. }
  simpl. destruct (f a) eqn:Ef.
  - rewrite (H a (or_introl eq_refl) Ef). simpl. lia.
  - destruct (h a); simpl; lia.
Qed.

Lemma filter_length_lt {A} (f h : A -> bool) (l : list A) (x : A) :
  In x l -> h x = true -> f x = false ->
  (forall y, In y l -> f y = true -> h y = true) ->
  (length (filter f l) < length (filter h l))%nat.
Proof.
  induction l as [ | a l IH]; intros Hin Hh Hf H; [destruct Hin | ].
  assert (Hle : (length (filter f l) <= length (filter h l))%nat).
  { apply filter_length_le. intros y Hy. apply H. now right. }
  simpl. destruct Hin as [-> | Hin].
  - rewrite Hh, Hf. simpl. lia.
  - assert (IH' : (length (filter f l) < length (filter h l))%nat).
    { apply IH; try assumption. intros y Hy. apply H. now right. }
    destruct (f a) eqn:Ef.
    + rewrite (H a (or_introl eq_refl) Ef). simpl. lia.
    + destruct (h a); simpl; lia.
Qed.

Lemma filter_length_le_list {A} (f : A -> bool) (l : list A) :
  (length (filter f l) <= length l)%nat.
Proof.
  induction l as [ | a l IH]; [simpl; lia | ].
  simpl. destruct (f a); simpl; lia.
Qed.

Lemma unvisited_count_ext g v v' :
  (forall i j, v' i j = v i j) -> unvisited_count g v' = unvisited_count g v.
Proof.
  intros H. unfold unvisited_count. f_equal. apply filter_ext. intros p. now rewrite H.
Qed.

Lemma unvisited_count_mark g v r c :
  passable g (r, c) -> v r c = 0 ->
  (unvisited_count g (upd2 v r c 1%Z) < unvisited_count g v)%nat.
Proof.
  intros Hp Hz. unfold unvisited_count.
  apply (filter_length_lt _ _ _ (r, c)).
  - apply in_row_major. apply Hp.
  - cbn [fst snd]. apply is_valid_spec in Hp. rewrite Hp, Hz. reflexivity.
  - cbn [fst snd]. rewrite upd2_same. apply andb_false_r.
  - intros [i j] _. cbn [fst snd]. rewrite !andb_true_iff. intros [Hv Hu].
    split; [assumption | ].
    destruct (upd2_cases v r c 1 i j) as [[_ E] | [_ E]]; rewrite E in Hu;
      [discriminate | assumption].
Qed.

Lemma row_major_length g :
  0 <= rows g -> 0 <= cols g ->
  length (row_major g) = Z.to_nat (rows g * cols g).
Proof.
  intros Hr Hc. unfold row_major.
  assert (H : forall l : list Z,
             length (flat_map (fun i => map (fun j => (i, j)) (zseq (cols g))) l)
             = (length l * Z.to_nat (cols g))%nat).
  { induction l as [ | a l IH]; [reflexivity | ].
    simpl. rewrite length_app, length_map, zseq_length, IH. lia. }
  rewrite H, zseq_length. rewrite Z2Nat.inj_mul by lia. reflexivity.
Qed.

Section DfsTotal.

Variable g : grid.
Variable rand : nat -> nat.

Lemma try_dirs_total call r c dirs st0 :
  (forall nr nc s s',
      call nr nc s = Some (false, s') -> Dfs.visited s nr nc = 0 -> dfs_same s s') ->
  (forall nr nc s,
      dfs_same st0 s -> passable g (nr, nc) -> Dfs.visited s nr nc = 0 ->
      exists res, call nr nc s = Some res) ->
  forall idxs st,
    dfs_same st0 st ->
    exists res, Dfs.try_dirs call g r c dirs idxs st = Some res.
Proof.
  intros Hframe Hcall. induction idxs as [ | i idxs IH]; intros st Hsame.
  - eexists. reflexivity.
  - cbn [Dfs.try_dirs].
    destruct (is_valid g (r + dr (dirs i)) (c + dc (dirs i))) eqn:Hval; cbn [andb];
      [ | now apply IH].
    destruct (Z.eqb_spec (Dfs.visited st (r + dr (dirs i)) (c + dc (dirs i))) 0)
      as [Hz | Hnz]; [ | now apply IH].
    apply is_valid_spec in Hval.
    destruct (Hcall _ _ st Hsame Hval Hz) as ([[ | ] s1] & Ecall); rewrite Ecall.
    + eexists. reflexivity.
    + apply IH. apply (dfs_same_trans st0 st s1); [assumption | ].
      now apply (Hframe _ _ _ _ Ecall).
Qed.

(** The depth of the recursion is bounded by the number of passable cells
    that are not marked. *)
Lemma dfs_total : forall fuel r c st,
  passable g (r, c) ->
  Dfs.visited st r c = 0 ->
  (unvisited_count g (Dfs.visited st) < fuel)%nat ->
  exists res, Dfs.dfs_find_one_path fuel g rand r c st = Some res.
Proof.
  induction fuel as [ | fuel IH]; intros r c st Hp Hz Hfuel; [lia | ].
  cbn [Dfs.dfs_find_one_path].
  destruct ((r =? er g) && (c =? ec g)); [eexists; reflexivity | ].
  destruct (Dfs.shuffle rand 3 (arr_of_list [0; 1; 2; 3])
                        (Dfs.rand_calls (Dfs.set_visited (Dfs.path_push st r c) r c 1)))
    as [dirs k].
  set (st3 := Dfs.set_rand_calls (Dfs.set_visited (Dfs.path_push st r c) r c 1) k).
  destruct (try_dirs_total (Dfs.dfs_find_one_path fuel g rand) r c dirs st3
                           (dfs_failure_same g rand fuel)) with (idxs := zseq 4) (st := st3)
    as ([[ | ] s1] & Etry).
  - intros nr nc s (Hv & _) Hpn Hzn. apply IH; try assumption.
    rewrite (unvisited_count_ext g (Dfs.visited st3)) by exact Hv.
    pose proof (unvisited_count_mark g (Dfs.visited st) r c Hp Hz) as Hlt.
    change (Dfs.visited st3) with (upd2 (Dfs.visited st) r c 1). lia.
  - apply dfs_same_refl.
  - rewrite Etry. eexists. reflexivity.
  - rewrite Etry. eexists. reflexivity.
Qed.

End DfsTotal.

(** The top-level call always returns, on a loaded grid. *)
Lemma find_from_start_total g rand st :
  loaded g -> exists res, Dfs.find_from_start g rand st = Some res.
Proof.
  intros L. unfold Dfs.find_from_start. apply dfs_total.
  - split; [apply (loaded_start g L) | ].
    cbn [fst snd start_cell]. rewrite (loaded_start_S g L). discriminate.
  - reflexivity.
  - unfold cells_fuel, unvisited_count.
    pose proof (loaded_rows g L). pose proof (loaded_cols g L).
    rewrite <- row_major_length by lia.
    apply Nat.lt_succ_r. apply filter_length_le_list.
Qed.

(** ** The program: what follows a failed load *)

(** When the first load fails, [main] prints the error and the termination
    message and returns 1. *)
Lemma main_first_load_failure rand jr jc jm file_at w0 ints chars o :
  load_maze (file_at (w_loads w0)) (w_grid w0) = Some o ->
  load_ret o = 0 ->
  exists w out,
    main rand jr jc jm file_at w0 ints chars = Some (Returned 1, w, out) /\
    stops_after_load_error out.
Proof.
  intros Hload Hret. unfold main, load_step. rewrite Hload, Hret.
  cbn [Z.eqb]. eexists. eexists. split; [reflexivity | ].
  unfold load_maze in Hload.
  destruct (file_at (w_loads w0)) as [s | ].
  - destruct (read_rows (length s) s (set_rows (w_grid w0) 0)) as [[g1 | g1] | ];
      try discriminate.
    + injection Hload as <-. reflexivity.
    + destruct ((rows g1 =? 0) || (cols g1 =? 0)); [injection Hload as <-; reflexivity | ].
      destruct ((sr _ =? -1) || (er _ =? -1)); injection Hload as <-;
        [reflexivity | discriminate].
  - injection Hload as <-. reflexivity.
Qed.

(** C3 (the code departs from it).  The file holds a two-row maze at the
    first load and a text with a ragged second row afterwards.  The user
    asks for the shortest path, returns to the menu -- the reload fails
    with the row-length message -- and then plays manually: [main] draws
    and moves the player on a one-row maze, with the exit coordinates of
    the old maze, and ends with code 0. *)
Theorem main_continues_after_failed_reload :
  exists w,
    main (fun k => k) (fun _ _ => 0) (fun _ _ => 0) (fun _ _ => NUL)
         replaced_file zero_world [Number 3; Number 1; Number 1; Number 2] ["d"; "q"]%char
    = Some (Returned 0, w,
            [OutMenu;
             OutShortest 3;
             OutFrame (map list_ascii_of_string ["S.."; "bbE"]%string);
             OutAgainMenu;
             OutLoadError MsgRowLength;
             OutMenu;
             OutFrame (map list_ascii_of_string ["^.."]%string);
             OutMovePrompt;
             OutFrame (map list_ascii_of_string ["S^."]%string);
             OutMovePrompt;
             OutQuit;
             OutAgainMenu;
             OutGoodbye]) /\
    rows (w_grid w) = 1 /\
    exit_cell (w_grid w) = (1, 2) /\
    ~ stops_after_load_error
        [OutMenu;
         OutShortest 3;
         OutFrame (map list_ascii_of_string ["S.."; "bbE"]%string);
         OutAgainMenu;
         OutLoadError MsgRowLength;
         OutMenu;
         OutFrame (map list_ascii_of_string ["^.."]%string);
         OutMovePrompt;
         OutFrame (map list_ascii_of_string ["S^."]%string);
         OutMovePrompt;
         OutQuit;
         OutAgainMenu;
         OutGoodbye].
Proof.
  eexists. split; [vm_compute; reflexivity | ].
  split; [reflexivity | ]. split; [reflexivity | ].
  simpl. discriminate.
Qed.

(** ** The searches on a loaded grid *)

Lemma loaded_capacity g : loaded g -> rows g * cols g < QSIZE.
Proof.
  intros L. pose proof (loaded_rows g L). pose proof (loaded_cols g L).
  unfold QSIZE, MAXR, MAXC in *. nia.
Qed.

Lemma loaded_start_passable g : loaded g -> passable g (start_cell g).
Proof.
  intros L. split; [apply (loaded_start g L) | ].
  cbn [fst snd start_cell]. rewrite (loaded_start_S g L). discriminate.
Qed.

Lemma loaded_exit_passable g : loaded g -> passable g (exit_cell g).
Proof.
  intros L. split; [apply (loaded_exit g L) | ].
  cbn [fst snd exit_cell]. rewrite (loaded_exit_E g L). discriminate.
Qed.

Lemma loaded_start_not_exit g : loaded g -> start_cell g <> exit_cell g.
Proof.
  intros L E. pose proof (loaded_start_S g L) as HS.
  pose proof (loaded_exit_E g L) as HE.
  unfold start_cell, exit_cell in E. injection E as Er Ec.
  rewrite Er, Ec, HE in HS. discriminate.
Qed.

(** The search loop of [bfs_shortest] on a loaded grid. *)
Lemma bfs_loop_loaded g q0 pr0 pc0 :
  loaded g ->
  exists st lab,
    Bfs.bfs_loop (cells_fuel g) g (Bfs.bfs_start g q0 pr0 pc0) = Some st /\
    bfs_outer g lab st /\
    (Bfs.found st = true \/ Bfs.front (Bfs.q st) = Bfs.rear (Bfs.q st)).
Proof.
  intros L. apply bfs_loop_result.
  - now apply loaded_capacity.
  - now apply loaded_start_passable.
  - now apply loaded_start_not_exit.
Qed.

(** C1.  On every grid that [load_maze] has loaded successfully,
    [bfs_shortest] returns; it reports that no path exists exactly when
    the exit cannot be reached from the start through passable cells by
    cardinal moves, and otherwise the length it reports is the graph
    distance from the start to the exit. *)
Theorem bfs_shortest_distance (file : option (list ascii)) (g0 : grid)
        (o : load_outcome) (q0 : Bfs.queue) (pr0 pc0 : Z -> Z -> Z) :
  load_maze file g0 = Some o ->
  load_ret o = 1 ->
  exists rep g' q',
    Bfs.bfs_shortest (load_grid o) q0 pr0 pc0 = Some (rep, g', q') /\
    (rep = Bfs.NoPathExists <->
     ~ reachable (load_grid o) (start_cell (load_grid o)) (exit_cell (load_grid o))) /\
    (forall n, rep = Bfs.ShortestPath n ->
               0 <= n /\
               distance (load_grid o) (start_cell (load_grid o))
                        (exit_cell (load_grid o)) (Z.to_nat n)).
Proof.
  intros Hload Hret. pose proof (load_maze_loaded _ _ _ Hload Hret) as L.
  set (g := load_grid o) in *.
  destruct (bfs_loop_loaded g q0 pr0 pc0 L) as (st & lab & Hrun & Hout & Hend).
  unfold Bfs.bfs_shortest. rewrite Hrun.
  destruct (Bfs.found st) eqn:Hf; cbn [negb].
  - destruct Hout as [C _].
    destruct (found_parent_walk g (loaded_start_passable g L) lab st C Hf)
      as (l & n & Hwalk & Hlen & Hdist & _).
    pose proof (mark_loop_parent_walk (Bfs.parent_r st) (Bfs.parent_c st) g
                  (cells_fuel g) g (er g) (ec g) 0 eq_refl eq_refl) as Hmark.
    rewrite Hwalk in Hmark. unfold Bfs.mark_shortest_path.
    destruct (Bfs.mark_loop (cells_fuel g) g (Bfs.parent_r st) (Bfs.parent_c st)
                            (er g) (ec g) 0) as [[g2 m] | ]; [ | contradiction].
    exists (Bfs.ShortestPath m), g2, (Bfs.q st). split; [reflexivity | ].
    assert (Hm : m = Z.of_nat n) by lia.
    split.
    + split; [discriminate | ]. intros Hno. exfalso. apply Hno.
      exists n. apply Hdist.
    + intros n' E. injection E as <-. rewrite Hm, Nat2Z.id. split; [lia | exact Hdist].
  - exists Bfs.NoPathExists, g, (Bfs.q st). split; [reflexivity | ].
    split; [ | discriminate].
    split; [intros _ | reflexivity].
    destruct Hend as [? | Hempty]; [congruence | ].
    exact (not_found_unreachable g lab st Hout Hf Hempty).
Qed.

(** C2.  On a loaded grid, when the search loop of [bfs_shortest] ends
    with the exit found, the walk along the parent links from the exit
    ends, at the start, and the cells it stands on form a path from the
    exit to the start: consecutive cells one cardinal move apart, every
    cell passable, no cell twice.  [mark_shortest_path] makes that walk
    and prints the number of its links. *)
Theorem bfs_parent_links_path (file : option (list ascii)) (g0 : grid)
        (o : load_outcome) (q0 : Bfs.queue) (pr0 pc0 : Z -> Z -> Z) (st : Bfs.state) :
  load_maze file g0 = Some o ->
  load_ret o = 1 ->
  Bfs.bfs_loop (cells_fuel (load_grid o)) (load_grid o)
               (Bfs.bfs_start (load_grid o) q0 pr0 pc0) = Some st ->
  Bfs.found st = true ->
  exists l,
    Bfs.parent_walk (cells_fuel (load_grid o)) (load_grid o)
                    (Bfs.parent_r st) (Bfs.parent_c st)
                    (er (load_grid o)) (ec (load_grid o)) = Some l /\
    simple_path (load_grid o) (exit_cell (load_grid o)) (start_cell (load_grid o)) l /\
    exists g',
      Bfs.mark_shortest_path (cells_fuel (load_grid o)) (load_grid o)
                             (Bfs.parent_r st) (Bfs.parent_c st)
      = Some (g', Z.of_nat (length l) - 1).
Proof.
  intros Hload Hret Hrun Hf. pose proof (load_maze_loaded _ _ _ Hload Hret) as L.
  set (g := load_grid o) in *.
  destruct (bfs_loop_loaded g q0 pr0 pc0 L) as (st1 & lab & Hrun1 & [C _] & _).
  rewrite Hrun in Hrun1. injection Hrun1 as <-.
  destruct (found_parent_walk g (loaded_start_passable g L) lab st C Hf)
    as (l & n & Hwalk & Hlen & _ & Hhd & Hlast & Hcont & Hnd & Hall).
  exists l. split; [exact Hwalk | ]. split.
  - destruct l as [ | p l']; [discriminate | ]. cbn [hd] in Hhd. subst p.
    split; [reflexivity | ]. split; [exact Hlast | ]. split; [exact Hcont | ].
    split; [now apply Forall_forall | exact Hnd].
  - pose proof (mark_loop_parent_walk (Bfs.parent_r st) (Bfs.parent_c st) g
                  (cells_fuel g) g (er g) (ec g) 0 eq_refl eq_refl) as Hmark.
    rewrite Hwalk in Hmark. unfold Bfs.mark_shortest_path.
    destruct (Bfs.mark_loop (cells_fuel g) g (Bfs.parent_r st) (Bfs.parent_c st)
                            (er g) (ec g) 0) as [[g2 m] | ]; [ | contradiction].
    exists g2. f_equal. f_equal. lia.
Qed.

(** C10.  On a loaded grid the search loop of [bfs_shortest] ends.  In
    the record of its queue operations no cell is pushed twice, every
    pushed cell is marked visited, the number of pushes is at most
    rows * cols, which is at most QSIZE, and no push writes to a slot
    whose entry has not been popped. *)
Theorem bfs_queue_within_capacity (file : option (list ascii)) (g0 : grid)
        (o : load_outcome) (q0 : Bfs.queue) (pr0 pc0 : Z -> Z -> Z) :
  load_maze file g0 = Some o ->
  load_ret o = 1 ->
  exists st,
    Bfs.bfs_loop (cells_fuel (load_grid o)) (load_grid o)
                 (Bfs.bfs_start (load_grid o) q0 pr0 pc0) = Some st /\
    NoDup (map snd (pushed (Bfs.history (Bfs.q st)))) /\
    (forall p, In p (map snd (pushed (Bfs.history (Bfs.q st)))) ->
               Bfs.visited st (fst p) (snd p) <> 0) /\
    Z.of_nat (length (pushed (Bfs.history (Bfs.q st))))
    <= rows (load_grid o) * cols (load_grid o) /\
    rows (load_grid o) * cols (load_grid o) <= QSIZE /\
    no_overwrite [] (rev (Bfs.history (Bfs.q st))).
Proof.
  intros Hload Hret. pose proof (load_maze_loaded _ _ _ Hload Hret) as L.
  set (g := load_grid o) in *.
  destruct (bfs_loop_loaded g q0 pr0 pc0 L) as (st & lab & Hrun & [C _] & _).
  exists st. split; [exact Hrun | ].
  destruct (core_history_facts g lab st C) as (H1 & H2 & H3 & H4).
  pose proof (loaded_capacity g L).
  repeat (split; [assumption || lia | ]). exact H4.
Qed.

(** C4.  On a loaded grid, when the top-level call of
    [dfs_find_one_path] returns success, the current path starts at the
    start cell, ends at the exit cell, consists of cells inside the grid
    that are not walls, moves by one cardinal step between consecutive
    cells, and holds no cell twice. *)
Theorem dfs_found_path_is_simple (file : option (list ascii)) (g0 : grid)
        (o : load_outcome) (rand : nat -> nat) (st st' : Dfs.state) :
  load_maze file g0 = Some o ->
  load_ret o = 1 ->
  Dfs.find_from_start (load_grid o) rand st = Some (true, st') ->
  simple_path (load_grid o) (start_cell (load_grid o)) (exit_cell (load_grid o))
              (Dfs.path_cells st').
Proof.
  intros Hload Hret Hrun. pose proof (load_maze_loaded _ _ _ Hload Hret) as L.
  set (g := load_grid o) in *. unfold Dfs.find_from_start in Hrun.
  destruct (dfs_success_path g rand _ _ _ _ _ Hrun (loaded_start_passable g L) eq_refl)
    as (seg & Hext & Hsimple & _).
  rewrite (path_extends_from_empty (Dfs.top_state st) st' seg eq_refl Hext).
  exact Hsimple.
Qed.

(** ** Array bounds *)

(** On a loaded grid the cells the searches touch index the MAXR x MAXC
    arrays within their bounds. *)
Lemma passable_within_arrays g p :
  loaded g -> passable g p -> 0 <= fst p < MAXR /\ 0 <= snd p < MAXC.
Proof.
  intros L [[Hr Hc] _]. pose proof (loaded_rows g L). pose proof (loaded_cols g L).
  lia.
Qed.

(** The path of a successful depth-first search fits [current_path_r] and
    [current_path_c]. *)
Lemma dfs_path_within_arrays g rand st st' :
  loaded g ->
  Dfs.find_from_start g rand st = Some (true, st') ->
  0 < Dfs.path_len st' <= MAXR * MAXC.
Proof.
  intros L Hrun. unfold Dfs.find_from_start in Hrun.
  destruct (dfs_success_path g rand _ _ _ _ _ Hrun (loaded_start_passable g L) eq_refl)
    as (seg & Hext & (Hhd & _ & _ & Hall & Hnd) & _).
  destruct Hext as (Hlen & _). cbn [Dfs.top_state Dfs.path_len] in Hlen.
  assert (Hne : seg <> []) by (destruct seg; discriminate).
  pose proof (cells_in_bounds_count g seg Hne Hnd) as Hcount.
  pose proof (loaded_capacity g L) as Hcap. fold QSIZE.
  assert (Z.of_nat (length seg) <= rows g * cols g).
  { apply Hcount. intros p Hp. rewrite Forall_forall in Hall. apply (Hall p Hp). }
  destruct seg; [congruence | ]. cbn [length] in *. lia.
Qed.

(** The search loop of [bfs_shortest] keeps [front] and [rear] inside
    the queue arrays without ever wrapping around. *)
Lemma bfs_queue_indices g q0 pr0 pc0 st :
  loaded g ->
  Bfs.bfs_loop (cells_fuel g) g (Bfs.bfs_start g q0 pr0 pc0) = Some st ->
  0 <= Bfs.front (Bfs.q st) <= Bfs.rear (Bfs.q st) /\ Bfs.rear (Bfs.q st) < QSIZE.
Proof.
  intros L Hrun.
  destruct (bfs_loop_loaded g q0 pr0 pc0 L) as (st1 & lab & Hrun1 & [C _] & _).
  rewrite Hrun in Hrun1. injection Hrun1 as <-.
  pose proof (core_front _ _ _ C). pose proof (core_rear _ _ _ C).
  pose proof (loaded_capacity g L). lia.
Qed.

(** ** The theorems at sample inputs *)

Lemma row_fits_spec n l : row_fits n l = true -> strlen l = n /\ ~ In NUL l.
Proof.
  unfold row_fits. rewrite andb_true_iff, Z.eqb_eq, negb_true_iff.
  intros [Hlen Hnul]. split; [exact Hlen | ].
  intros Hin. assert (E : existsb (Ascii.eqb NUL) l = true).
  { apply existsb_exists. exists NUL. split; [exact Hin | reflexivity]. }
  congruence.
Defined.

Lemma rows_fit_spec n ls :
  forallb (row_fits n) ls = true ->
  forall l, In l ls -> strlen l = n /\ ~ In NUL l.
Proof.
  intros H l Hl. apply row_fits_spec.
  rewrite forallb_forall in H. now apply H.
Defined.

Lemma bfs_shortest_distance_witness :
  load_maze (Some open_maze) zero_grid = Some (loaded_from open_maze) /\
  load_ret (loaded_from open_maze) = 1 /\
  exists rep g' q',
    Bfs.bfs_shortest (load_grid (loaded_from open_maze)) zero_queue
                     (fun _ _ => 0) (fun _ _ => 0) = Some (rep, g', q') /\
    (rep = Bfs.NoPathExists <->
     ~ reachable (load_grid (loaded_from open_maze))
                 (start_cell (load_grid (loaded_from open_maze)))
                 (exit_cell (load_grid (loaded_from open_maze)))) /\
    (forall n, rep = Bfs.ShortestPath n ->
               0 <= n /\
               distance (load_grid (loaded_from open_maze))
                        (start_cell (load_grid (loaded_from open_maze)))
                        (exit_cell (load_grid (loaded_from open_maze))) (Z.to_nat n)).
Proof.
  split; [vm_compute; reflexivity | ]. split; [reflexivity | ].
  apply (bfs_shortest_distance (Some open_maze) zero_grid (loaded_from open_maze));
    [vm_compute; reflexivity | reflexivity].
Defined.

Lemma bfs_parent_links_path_witness :
  Bfs.bfs_loop (cells_fuel (load_grid (loaded_from open_maze)))
               (load_grid (loaded_from open_maze))
               (Bfs.bfs_start (load_grid (loaded_from open_maze)) zero_queue
                              (fun _ _ => 0) (fun _ _ => 0))
  = Some open_maze_search /\
  Bfs.found open_maze_search = true /\
  exists l,
    Bfs.parent_walk (cells_fuel (load_grid (loaded_from open_maze)))
                    (load_grid (loaded_from open_maze))
                    (Bfs.parent_r open_maze_search) (Bfs.parent_c open_maze_search)
                    (er (load_grid (loaded_from open_maze)))
                    (ec (load_grid (loaded_from open_maze))) = Some l /\
    simple_path (load_grid (loaded_from open_maze))
                (exit_cell (load_grid (loaded_from open_maze)))
                (start_cell (load_grid (loaded_from open_maze))) l /\
    exists g',
      Bfs.mark_shortest_path (cells_fuel (load_grid (loaded_from open_maze)))
                             (load_grid (loaded_from open_maze))
                             (Bfs.parent_r open_maze_search)
                             (Bfs.parent_c open_maze_search)
      = Some (g', Z.of_nat (length l) - 1).
Proof.
  split; [vm_compute; reflexivity | ]. split; [reflexivity | ].
  apply (bfs_parent_links_path (Some open_maze) zero_grid (loaded_from open_maze)
                               zero_queue (fun _ _ => 0) (fun _ _ => 0));
    [vm_compute; reflexivity | reflexivity | vm_compute; reflexivity | reflexivity].
Defined.

Lemma bfs_queue_within_capacity_witness :
  load_maze (Some open_maze) zero_grid = Some (loaded_from open_maze) /\
  load_ret (loaded_from open_maze) = 1 /\
  exists st,
    Bfs.bfs_loop (cells_fuel (load_grid (loaded_from open_maze)))
                 (load_grid (loaded_from open_maze))
                 (Bfs.bfs_start (load_grid (loaded_from open_maze)) zero_queue
                                (fun _ _ => 0) (fun _ _ => 0)) = Some st /\
    NoDup (map snd (pushed (Bfs.history (Bfs.q st)))) /\
    (forall p, In p (map snd (pushed (Bfs.history (Bfs.q st)))) ->
               Bfs.visited st (fst p) (snd p) <> 0) /\
    Z.of_nat (length (pushed (Bfs.history (Bfs.q st))))
    <= rows (load_grid (loaded_from open_maze)) * cols (load_grid (loaded_from open_maze)) /\
    rows (load_grid (loaded_from open_maze)) * cols (load_grid (loaded_from open_maze))
    <= QSIZE /\
    no_overwrite [] (rev (Bfs.history (Bfs.q st))).
Proof.
  split; [vm_compute; reflexivity | ]. split; [reflexivity | ].
  apply (bfs_queue_within_capacity (Some open_maze) zero_grid (loaded_from open_maze));
    [vm_compute; reflexivity | reflexivity].
Defined.

Lemma dfs_found_path_is_simple_witness :
  Dfs.find_from_start (load_grid (loaded_from open_maze)) (fun k => k) zero_dfs
  = Some (true, dfs_end open_maze) /\
  simple_path (load_grid (loaded_from open_maze))
              (start_cell (load_grid (loaded_from open_maze)))
              (exit_cell (load_grid (loaded_from open_maze)))
              (Dfs.path_cells (dfs_end open_maze)).
Proof.
  split; [vm_compute; reflexivity | ].
  apply (dfs_found_path_is_simple (Some open_maze) zero_grid (loaded_from open_maze)
                                  (fun k => k) zero_dfs (dfs_end open_maze));
    [vm_compute; reflexivity | reflexivity | vm_compute; reflexivity].
Defined.

Lemma dfs_failure_restores_witness :
  Dfs.dfs_find_one_path (cells_fuel (load_grid (loaded_from closed_maze)))
                        (load_grid (loaded_from closed_maze)) (fun k => k)
                        0 0 (Dfs.top_state zero_dfs)
  = Some (false, dfs_end closed_maze) /\
  (forall i j,
      Dfs.visited (dfs_end closed_maze) i j = Dfs.visited (Dfs.top_state zero_dfs) i j) /\
  Dfs.path_len (dfs_end closed_maze) = Dfs.path_len (Dfs.top_state zero_dfs) /\
  (forall i, 0 <= i < Dfs.path_len (Dfs.top_state zero_dfs) ->
             Dfs.current_path_r (dfs_end closed_maze) i
             = Dfs.current_path_r (Dfs.top_state zero_dfs) i /\
             Dfs.current_path_c (dfs_end closed_maze) i
             = Dfs.current_path_c (Dfs.top_state zero_dfs) i).
Proof.
  split; [vm_compute; reflexivity | ].
  apply (dfs_failure_restores (cells_fuel (load_grid (loaded_from closed_maze)))
                              (load_grid (loaded_from closed_maze)) (fun k => k)
                              0 0 (Dfs.top_state zero_dfs) (dfs_end closed_maze));
    [vm_compute; reflexivity | reflexivity].
Defined.

Lemma load_maze_last_markers_witness :
  occurs (retained_from twin_maze) "S" /\
  occurs (retained_from twin_maze) "E" /\
  exists o,
    load_maze (Some twin_maze) zero_grid = Some o /\
    load_ret o = 1 /\ load_msg o = None /\
    maze (load_grid o) = maze (retained_from twin_maze) /\
    rows (load_grid o) = rows (retained_from twin_maze) /\
    cols (load_grid o) = cols (retained_from twin_maze) /\
    last_occurrence (retained_from twin_maze) "S" (start_cell (load_grid o)) /\
    last_occurrence (retained_from twin_maze) "E" (exit_cell (load_grid o)).
Proof.
  assert (HS : occurs (retained_from twin_maze) "S").
  { exists (0, 0). split; [vm_compute; auto | reflexivity]. }
  assert (HE : occurs (retained_from twin_maze) "E").
  { exists (0, 2). split; [vm_compute; auto | reflexivity]. }
  split; [exact HS | ]. split; [exact HE | ].
  apply (load_maze_last_markers twin_maze zero_grid (retained_from twin_maze));
    [vm_compute; reflexivity | discriminate | discriminate | exact HS | exact HE].
Defined.

(** A counterexample to C7 as the specification words it.  This source
    has 106 non-empty lines, more than MAXR, and its second line is
    shorter than its first.  [load_maze] does not retain the first 105 lines: the
    test [(int)len != cols] stops the reading at the second line with the
    row-length message, and the grid keeps one row. *)
Lemma load_maze_row_capacity_ragged :
  (Z.to_nat MAXR < length (non_empty_lines ragged_tall_source))%nat /\
  exists o,
    load_maze (Some ragged_tall_source) zero_grid = Some o /\
    load_ret o = 0 /\
    load_msg o = Some MsgRowLength /\
    rows (load_grid o) = 1 /\
    rows (load_grid o) <> MAXR.
Proof.
  split.
  - vm_compute. repeat constructor.
  - eexists. split; [vm_compute; reflexivity | ].
    cbn [load_ret load_msg load_grid rows]. repeat split. discriminate.
Qed.

(** With 106 lines of MAXC = 105 characters, every retained line of one
    length and an 'S' and an 'E' in the first, [load_maze] fails as well:
    [fgets] cuts the first line after 104 characters, and the rest of it
    is taken for a second, shorter row. *)
Lemma load_maze_row_capacity_wide :
  (Z.to_nat MAXR < length (non_empty_lines wide_tall_source))%nat /\
  (forall l, In l (firstn (Z.to_nat MAXR) (non_empty_lines wide_tall_source)) ->
             length l = Z.to_nat MAXC) /\
  exists o,
    load_maze (Some wide_tall_source) zero_grid = Some o /\
    load_ret o = 0 /\
    load_msg o = Some MsgRowLength /\
    rows (load_grid o) = 1 /\
    cols (load_grid o) = 104.
Proof.
  split; [vm_compute; repeat constructor | ].
  split.
  - apply Forall_forall.
    assert (E : forallb (fun l => Nat.eqb (length l) (Z.to_nat MAXC))
                        (firstn (Z.to_nat MAXR) (non_empty_lines wide_tall_source)) = true)
      by (vm_compute; reflexivity).
    rewrite forallb_forall in E. apply Forall_forall. intros l Hl.
    apply Nat.eqb_eq. now apply E.
  - eexists. split; [vm_compute; reflexivity | ].
    cbn [load_ret load_msg load_grid rows cols]. repeat split.
Qed.

Lemma load_maze_row_capacity_witness :
  (Z.to_nat MAXR < length (non_empty_lines tall_source))%nat /\
  exists o,
    load_maze (Some tall_source) zero_grid = Some o /\
    load_maze (Some (unlines (firstn (Z.to_nat MAXR) (non_empty_lines tall_source))))
              zero_grid = Some o /\
    rows (load_grid o) = MAXR /\
    cols (load_grid o) = 4 /\
    (forall i j,
        0 <= i < MAXR -> 0 <= j < 4 ->
        maze (load_grid o) i j =
        nth (Z.to_nat j)
            (nth (Z.to_nat i) (firstn (Z.to_nat MAXR) (non_empty_lines tall_source)) [])
            NUL) /\
    load_msg o <> Some MsgRowLength /\
    load_msg o <> Some MsgEmpty /\
    (load_ret o = 1 <-> occurs (load_grid o) "S" /\ occurs (load_grid o) "E").
Proof.
  assert (Hmore : (Z.to_nat MAXR < length (non_empty_lines tall_source))%nat).
  { vm_compute. repeat constructor. }
  split; [exact Hmore | ].
  apply (load_maze_row_capacity tall_source zero_grid 4);
    [exact Hmore | unfold MAXC; lia | apply rows_fit_spec; vm_compute; reflexivity].
Defined.

(** * Further properties of the code *)

(** ** The circular queue *)

Lemma QSIZE_val : QSIZE = 11025.
Proof. reflexivity. Qed.

Lemma rem_succ_slot i :
  0 <= i < QSIZE -> Z.rem (i + 1) QSIZE = (i + 1) mod QSIZE.
Proof. intros H. apply Z.rem_mod_nonneg; rewrite ?QSIZE_val in *; lia. Qed.

Lemma queue_size_range q : 0 <= queue_size q < QSIZE.
Proof. unfold queue_size. apply Z.mod_pos_bound. now rewrite QSIZE_val. Qed.

(** X1.  Pushing onto a queue that holds fewer than QSIZE - 1 entries
    adds the cell behind the entries already there, also when [rear]
    wraps around the end of the arrays. *)
Theorem queue_push_appends (q : Bfs.queue) (r c : Z) :
  queue_wf q ->
  queue_size q < QSIZE - 1 ->
  queue_wf (Bfs.queue_push q r c) /\
  queue_cells (Bfs.queue_push q r c) = queue_cells q ++ [(r, c)].
Proof.
  intros [Hf Hr] Hsize.
  assert (Hrear : Bfs.rear (Bfs.queue_push q r c) = (Bfs.rear q + 1) mod QSIZE).
  { simpl. now apply rem_succ_slot. }
  assert (Hsz : queue_size (Bfs.queue_push q r c) = queue_size q + 1).
  { unfold queue_size in *. rewrite Hrear. simpl Bfs.front. qsize_arith. }
  split.
  - split; [exact Hf | ]. rewrite Hrear. apply Z.mod_pos_bound. now rewrite QSIZE_val.
  - unfold queue_cells. rewrite Hsz.
    pose proof (queue_size_range q) as Hrange.
    rewrite zseq_succ, map_app by lia. f_equal.
    + apply map_ext_zseq. intros k Hk. simpl.
      assert ((Bfs.front q + k) mod QSIZE <> Bfs.rear q).
      { unfold queue_size in *. qsize_arith. }
      now rewrite !upd_other.
    + simpl.
      assert (E : (Bfs.front q + queue_size q) mod QSIZE = Bfs.rear q).
      { unfold queue_size in *. qsize_arith. }
      now rewrite E, !upd_same.
Qed.

(** X2.  A queue is reported empty exactly when it holds no entry; from a
    queue that is not empty, [queue_pop] returns the oldest entry and
    leaves the others in order. *)
Theorem queue_pop_oldest (q : Bfs.queue) :
  queue_wf q ->
  (Bfs.queue_empty q = true <-> queue_cells q = []) /\
  (Bfs.queue_empty q = false ->
   queue_wf (snd (Bfs.queue_pop q)) /\
   queue_cells q = fst (Bfs.queue_pop q) :: queue_cells (snd (Bfs.queue_pop q))).
Proof.
  intros [Hf Hr]. pose proof (queue_size_range q) as Hrange.
  unfold Bfs.queue_empty. split.
  - unfold queue_cells. split.
    + intros E. apply Z.eqb_eq in E.
      replace (queue_size q) with 0; [reflexivity | ].
      unfold queue_size. rewrite E, Z.sub_diag. reflexivity.
    + intros E. apply Z.eqb_eq.
      apply (f_equal (@length _)) in E. rewrite length_map, zseq_length in E.
      simpl in E. unfold queue_size in *. qsize_arith.
  - intros E. apply Z.eqb_neq in E.
    assert (Hfront : Bfs.front (snd (Bfs.queue_pop q)) = (Bfs.front q + 1) mod QSIZE).
    { simpl. now apply rem_succ_slot. }
    assert (Hsz : queue_size q = queue_size (snd (Bfs.queue_pop q)) + 1).
    { unfold queue_size in *. rewrite Hfront. simpl Bfs.rear. qsize_arith. }
    split.
    + split; [ | exact Hr]. rewrite Hfront. apply Z.mod_pos_bound. now rewrite QSIZE_val.
    + pose proof (queue_size_range (snd (Bfs.queue_pop q))) as Hrange'.
      unfold queue_cells at 1. rewrite Hsz.
      replace (queue_size (snd (Bfs.queue_pop q)) + 1)
        with (Z.of_nat (S (Z.to_nat (queue_size (snd (Bfs.queue_pop q)))))) by lia.
      unfold zseq at 1. rewrite Nat2Z.id. cbn [seq map]. f_equal.
      * rewrite Z.add_0_r, Z.mod_small by lia. reflexivity.
      * unfold queue_cells, zseq. rewrite <- seq_shift, !map_map.
        apply map_ext_in. intros k Hk. apply in_seq in Hk.
        rewrite Hfront.
        change (Bfs.qr (snd (Bfs.queue_pop q))) with (Bfs.qr q).
        change (Bfs.qc (snd (Bfs.queue_pop q))) with (Bfs.qc q).
        assert (Ei : ((Bfs.front q + 1) mod QSIZE + Z.of_nat k) mod QSIZE
                     = (Bfs.front q + Z.of_nat (S k)) mod QSIZE).
        { rewrite Zplus_mod_idemp_l. f_equal. lia. }
        rewrite Ei. reflexivity.
Qed.

(** X3.  The queue has room for QSIZE - 1 entries only: a push onto a
    queue that holds QSIZE - 1 entries makes [rear] catch up with [front],
    and the queue is reported empty. *)
Theorem queue_push_when_full (q : Bfs.queue) (r c : Z) :
  queue_wf q ->
  queue_size q = QSIZE - 1 ->
  Bfs.queue_empty (Bfs.queue_push q r c) = true /\
  queue_cells (Bfs.queue_push q r c) = [].
Proof.
  intros [Hf Hr] Hsize.
  assert (Hrear : Bfs.rear (Bfs.queue_push q r c) = (Bfs.rear q + 1) mod QSIZE).
  { simpl. now apply rem_succ_slot. }
  assert (E : Bfs.rear (Bfs.queue_push q r c) = Bfs.front q).
  { rewrite Hrear. unfold queue_size in *. qsize_arith. }
  split.
  - unfold Bfs.queue_empty. apply Z.eqb_eq. simpl Bfs.front. now rewrite E.
  - unfold queue_cells, queue_size. rewrite E. simpl Bfs.front.
    now rewrite Z.sub_diag.
Qed.

(** ** Loading and drawing *)

Lemma maze_rows_nonempty n ls :
  0 < n -> maze_rows n ls -> forall l, In l ls -> ~ In NL l /\ l <> [].
Proof.
  intros Hn H l Hl. destruct (H l Hl) as (Hlen & Hnl & _).
  split; [exact Hnl | ]. intros ->. unfold strlen in Hlen. simpl in Hlen. lia.
Qed.

(** What [load_maze] leaves for a text made of maze rows. *)
Lemma load_maze_of_rows (ls : list (list ascii)) (n : Z) (g : grid) :
  ls <> [] -> (length ls <= Z.to_nat MAXR)%nat ->
  0 < n < MAXC -> maze_rows n ls ->
  exists o,
    load_maze (Some (unlines ls)) g = Some o /\
    (load_ret o = 1 <-> holds ls "S" /\ holds ls "E") /\
    (load_msg o = None \/ load_msg o = Some MsgNoMarkers) /\
    rows (load_grid o) = Z.of_nat (length ls) /\
    cols (load_grid o) = n /\
    (forall i j, (i < length ls)%nat -> 0 <= j < n ->
                 maze (load_grid o) (Z.of_nat i) j = nth (Z.to_nat j) (nth i ls []) NUL).
Proof.
  intros Hne Hlen Hn Hrows.
  assert (Hlines : non_empty_lines (unlines ls) = ls).
  { apply non_empty_lines_unlines. apply (maze_rows_nonempty n); [lia | exact Hrows]. }
  set (g1 := store_rows ls (set_rows g 0)).
  assert (Hread : read_rows (length (unlines ls)) (unlines ls) (set_rows g 0)
                  = Some (ReadDone g1)).
  { pose proof (read_rows_lines n (length (unlines ls)) (unlines ls) (set_rows g 0)) as H.
    cbn [rows set_rows] in H. rewrite Z.sub_0_r, Hlines in H.
    rewrite (firstn_all2 ls Hlen) in H. apply H.
    - lia.
    - exact Hn.
    - unfold MAXR. lia.
    - congruence.
    - intros l Hl. destruct (Hrows l Hl) as (? & _ & ?). auto. }
  assert (Hr : rows g1 = Z.of_nat (length ls)).
  { unfold g1. rewrite store_rows_rows. simpl. lia. }
  assert (Hlens : forall l, In l ls -> strlen l = n).
  { intros l Hl. apply (Hrows l Hl). }
  assert (Hc : cols g1 = n).
  { unfold g1. apply store_rows_cols; try assumption; simpl; try lia; congruence. }
  destruct (load_maze_done (unlines ls) g g1 Hread) as (o & Hload & Hgrid & Hmsg & Hret).
  { rewrite Hr. destruct ls; [congruence | simpl; lia]. }
  { lia. }
  destruct (scan_markers_spec (scan_init g1)) as (Hm & Hrw & Hcl & _ & _).
  rewrite <- Hgrid in Hm, Hrw, Hcl.
  change (maze (scan_init g1)) with (maze g1) in Hm.
  change (rows (scan_init g1)) with (rows g1) in Hrw.
  change (cols (scan_init g1)) with (cols g1) in Hcl.
  exists o. split; [exact Hload | ]. split; [ | split; [ | split; [congruence | split; [congruence | ]]]].
  - rewrite Hret. unfold g1, holds.
    rewrite !(occurs_store_rows ls (set_rows g 0) n) by (reflexivity || assumption || lia).
    reflexivity.
  - destruct Hmsg as [[_ ->] | [_ ->]]; auto.
  - intros i j Hi Hj. rewrite Hm. unfold g1.
    replace (Z.of_nat i) with (rows (set_rows g 0) + Z.of_nat i) by (simpl; lia).
    apply store_rows_maze; [exact Hi | ].
    rewrite (Hlens (nth i ls [])); [lia | now apply nth_In].
Qed.

(** X4.  Loading a text made of at most MAXR maze rows that hold an 'S'
    and an 'E' succeeds, and drawing the loaded maze without the player
    gives the rows back. *)
Theorem load_then_print (ls : list (list ascii)) (n : Z) (g : grid) (p : player) :
  ls <> [] -> (length ls <= Z.to_nat MAXR)%nat ->
  0 < n < MAXC -> maze_rows n ls ->
  holds ls "S" -> holds ls "E" ->
  exists o,
    load_maze (Some (unlines ls)) g = Some o /\
    load_ret o = 1 /\
    print_maze (maze (load_grid o)) (load_grid o) p false = ls.
Proof.
  intros Hne Hlen Hn Hrows HS HE.
  destruct (load_maze_of_rows ls n g Hne Hlen Hn Hrows)
    as (o & Hload & Hret & _ & Hr & Hc & Hm).
  exists o. split; [exact Hload | ]. split; [now apply Hret | ].
  unfold print_maze. rewrite Hr, Hc. cbn [andb].
  apply (nth_ext _ _ [] []).
  - now rewrite length_map, zseq_length, Nat2Z.id.
  - intros i Hi. rewrite length_map, zseq_length, Nat2Z.id in Hi.
    rewrite nth_map_zseq by lia.
    assert (Hli : strlen (nth i ls []) = n) by (apply (Hrows (nth i ls [])); now apply nth_In).
    unfold strlen in Hli.
    apply (nth_ext _ _ NUL NUL).
    + rewrite length_map, zseq_length. lia.
    + intros j Hj. rewrite length_map, zseq_length in Hj.
      rewrite nth_map_zseq by lia.
      rewrite Hm by lia. now rewrite Nat2Z.id.
Qed.

(** ** Reloading *)

Lemma store_row_in_step g g' line :
  rows_in_step g g' ->
  (rows g <> 0 -> strlen line = cols g) ->
  rows_in_step (store_row g line) (store_row g' line).
Proof.
  intros (Hr & Hc & Hm) Hlen. unfold rows_in_step.
  rewrite !rows_store_row, !cols_store_row, !maze_store_row, <- Hr.
  split; [lia | ]. split.
  - intros _. destruct (Z.eqb_spec (rows g) 0); [reflexivity | now apply Hc].
  - intros i j Hi Hj. unfold strcpy_row.
    destruct (Z.eqb_spec i (rows g)) as [-> | Hne]; cbn [andb].
    + assert (Hj' : 0 <= j <= strlen line).
      { destruct (Z.eqb_spec (rows g) 0); [lia | ]. rewrite Hlen by assumption. lia. }
      destruct (Z.leb_spec 0 j); [ | lia]. destruct (Z.leb_spec j (strlen line)); [ | lia].
      reflexivity.
    + apply Hm; [lia | ]. destruct (Z.eqb_spec (rows g) 0); lia.
Qed.

(** The reading loop does not depend on what the globals held before. *)
Lemma read_rows_in_step : forall fuel s g g',
  rows_in_step g g' -> 0 <= rows g ->
  match read_rows fuel s g, read_rows fuel s g' with
  | Some (ReadDone a), Some (ReadDone b) => rows_in_step a b /\ 0 <= rows a
  | Some (ReadRagged _), Some (ReadRagged _) => True
  | None, None => True
  | _, _ => False
  end.
Proof.
  induction fuel as [ | fuel IH]; intros s g g' Hstep Hr0.
  - simpl. destruct (fgets MAXC s) as [[buf rest] | ]; auto.
  - destruct (fgets MAXC s) as [[buf rest] | ] eqn:Hget.
    2: { destruct s; [ | discriminate]. rewrite !read_rows_eof. auto. }
    rewrite !(read_rows_step _ _ _ _ _ Hget). cbv zeta.
    set (line := strip_newline (c_string buf)).
    destruct (strlen line =? 0); [now apply IH | ].
    pose proof Hstep as (Hr & Hc & _). rewrite <- Hr.
    destruct (Z.eqb_spec (rows g) 0) as [Hz | Hnz]; cbn [negb andb].
    + destruct (rows g + 1 >=? MAXR).
      * split; [ | rewrite rows_store_row; lia]. apply store_row_in_step; [assumption | lia].
      * apply IH; [ | rewrite rows_store_row; lia].
        apply store_row_in_step; [assumption | lia].
    + rewrite <- (Hc Hnz).
      destruct (Z.eqb_spec (strlen line) (cols g)) as [He | Hne]; cbn [negb]; [ | exact I].
      destruct (rows g + 1 >=? MAXR).
      * split; [ | rewrite rows_store_row; lia]. apply store_row_in_step; [assumption | auto].
      * apply IH; [ | rewrite rows_store_row; lia].
        apply store_row_in_step; [assumption | auto].
Qed.

(** The marker scan finds the same markers in grids that agree on the
    cells it reads. *)
Lemma scan_fold_agree g g' : forall l,
  (forall p, In p l -> maze g (fst p) (snd p) = maze g' (fst p) (snd p)) ->
  start_cell g = start_cell g' -> exit_cell g = exit_cell g' ->
  start_cell (fold_left (fun g1 p => scan_cell g1 (fst p) (snd p)) l g)
  = start_cell (fold_left (fun g1 p => scan_cell g1 (fst p) (snd p)) l g') /\
  exit_cell (fold_left (fun g1 p => scan_cell g1 (fst p) (snd p)) l g)
  = exit_cell (fold_left (fun g1 p => scan_cell g1 (fst p) (snd p)) l g').
Proof.
  induction l as [ | q l IH] using rev_ind; intros Hm Hs He; [auto | ].
  rewrite !fold_left_app. cbn [fold_left].
  destruct IH as [IHs IHe]; try assumption.
  { intros p Hp. apply Hm. apply in_app_iff. now left. }
  destruct (scan_fold_spec g l) as (Hm1 & _). destruct (scan_fold_spec g' l) as (Hm2 & _).
  cbv zeta in Hm1, Hm2.
  unfold start_cell, exit_cell in *.
  rewrite !scan_cell_start, !scan_cell_exit, Hm1, Hm2.
  rewrite <- (Hm q) by (apply in_app_iff; right; now left).
  rewrite IHs, IHe. auto.
Qed.

(** X5.  What [load_maze] returns and prints for a source does not depend
    on what the globals held before the call, and after a successful load
    neither does the maze: the same size, start and exit, the same cells,
    so the same picture.  Reloading wipes the marks of the previous
    mode. *)
Theorem load_maze_forgets_previous (s : list ascii) (g g' : grid)
        (o o' : load_outcome) :
  load_maze (Some s) g = Some o ->
  load_maze (Some s) g' = Some o' ->
  load_ret o = load_ret o' /\
  load_msg o = load_msg o' /\
  (load_ret o = 1 ->
   same_maze (load_grid o) (load_grid o') /\
   forall p b, print_maze (maze (load_grid o)) (load_grid o) p b
               = print_maze (maze (load_grid o')) (load_grid o') p b).
Proof.
  unfold load_maze. intros Hl Hl'.
  pose proof (read_rows_in_step (length s) s (set_rows g 0) (set_rows g' 0)) as Hrel.
  destruct (read_rows (length s) s (set_rows g 0)) as [[a | a] | ];
    destruct (read_rows (length s) s (set_rows g' 0)) as [[b | b] | ];
    try discriminate;
    try (exfalso; apply Hrel; [split; [reflexivity | split; [simpl; congruence | simpl; intros; lia]] | simpl; lia]).
  { injection Hl as <-. injection Hl' as <-. simpl. repeat split; discriminate. }
  destruct Hrel as [(Hr & Hc & Hm) Hr0].
  { split; [reflexivity | split; [simpl; congruence | simpl; intros; lia]]. }
  { simpl. lia. }
  rewrite <- Hr in Hl'.
  destruct (Z.eqb_spec (rows a) 0) as [Hz | Hnz]; cbn [orb] in Hl, Hl'.
  { injection Hl as <-. injection Hl' as <-. simpl. repeat split; discriminate. }
  rewrite <- (Hc Hnz) in Hl'.
  destruct (Z.eqb_spec (cols a) 0) as [Hcz | Hcnz].
  { injection Hl as <-. injection Hl' as <-. simpl. repeat split; discriminate. }
  fold (scan_init a) in Hl. fold (scan_init b) in Hl'.
  destruct (scan_markers_spec (scan_init a)) as (Hma & Hra & Hca & HSa & _).
  destruct (scan_markers_spec (scan_init b)) as (Hmb & Hrb & Hcb & _ & _).
  assert (Hrm : row_major (scan_init b) = row_major (scan_init a)).
  { unfold row_major. cbn [scan_init set_exit set_start rows cols]. now rewrite <- Hr, <- (Hc Hnz). }
  destruct (scan_fold_agree (scan_init a) (scan_init b) (row_major (scan_init a)))
    as [Hs He]; try reflexivity.
  { intros p Hp. apply in_row_major in Hp. destruct Hp as [Hp1 Hp2].
    apply Hm; cbn [scan_init set_exit set_start rows cols] in *; lia. }
  rewrite <- !scan_markers_fold in Hs. rewrite <- scan_markers_fold in He.
  rewrite <- Hrm, <- !scan_markers_fold in Hs, He.
  set (ga := scan_markers (scan_init a)) in *.
  set (gb := scan_markers (scan_init b)) in *.
  assert (Esr : sr gb = sr ga) by (unfold start_cell in Hs; congruence).
  assert (Eer : er gb = er ga) by (unfold exit_cell in He; congruence).
  rewrite Esr, Eer in Hl'.
  assert (Hsame : same_maze ga gb).
  { unfold same_maze. rewrite Hra, Hrb, Hca, Hcb, Hma, Hmb.
    cbn [scan_init set_exit set_start rows cols maze].
    repeat split; try assumption; try (now apply Hc).
    intros i j Hi Hj. apply Hm; lia. }
  assert (Hprint : forall p bb, print_maze (maze ga) ga p bb = print_maze (maze gb) gb p bb).
  { intros p bb. destruct Hsame as (E1 & E2 & _ & _ & E5). unfold print_maze.
    rewrite <- E1, <- E2. apply map_ext_in. intros i Hi. apply map_ext_in. intros j Hj.
    apply in_zseq in Hi, Hj. now rewrite E5. }
  destruct ((sr ga =? -1) || (er ga =? -1));
    injection Hl as <-; injection Hl' as <-; simpl;
    (split; [reflexivity | split; [reflexivity | ]]); [discriminate | intros _; auto].
Qed.

(** ** Sources that do not load *)

(** X6.  A source without a non-empty line -- an empty file, or one of
    blank lines only -- is refused as empty: [load_maze] returns 0 with
    the empty-maze message, and the only global it has changed is [rows],
    now 0. *)
Theorem load_maze_blank_source (s : list ascii) (g : grid) :
  non_empty_lines s = [] ->
  load_maze (Some s) g = Some (mkLoad 0 (Some MsgEmpty) (set_rows g 0)).
Proof.
  intros Hblank.
  assert (Hread : read_rows (length s) s (set_rows g 0)
                  = Some (store_lines (non_empty_lines s) (set_rows g 0))).
  { apply read_rows_store_lines; [lia | ]. rewrite Hblank. intros l []. }
  rewrite Hblank in Hread. cbn [store_lines] in Hread.
  unfold load_maze. rewrite Hread. reflexivity.
Qed.

Lemma store_rows_cols_keep : forall ls g,
  0 < rows g -> cols (store_rows ls g) = cols g.
Proof.
  induction ls as [ | l ls IH]; intros g Hr; [reflexivity | ].
  unfold store_rows in *. cbn [fold_left].
  rewrite IH by (rewrite rows_store_row; lia).
  rewrite cols_store_row. destruct (Z.eqb_spec (rows g) 0); [lia | reflexivity].
Qed.

(** When the lines run into one of another length, the lines before it
    have been stored and that line has been copied behind them. *)
Lemma store_lines_ragged : forall ls g g1,
  0 <= rows g ->
  store_lines ls g = ReadRagged g1 ->
  exists k,
    (k < length ls)%nat /\
    g1 = set_maze (store_rows (firstn k ls) g)
                  (strcpy_row (maze (store_rows (firstn k ls) g))
                              (rows (store_rows (firstn k ls) g)) (nth k ls [])) /\
    rows (store_rows (firstn k ls) g) <> 0 /\
    strlen (nth k ls []) <> cols (store_rows (firstn k ls) g) /\
    (forall l, In l (firstn k ls) -> strlen l = cols (store_rows (firstn k ls) g)).
Proof.
  induction ls as [ | l ls IH]; intros g g1 Hr Hrun; [discriminate | ].
  cbn [store_lines] in Hrun.
  assert (Hnext : store_lines ls (store_row g l) = ReadRagged g1 ->
                  (rows g = 0 \/ strlen l = cols g) ->
                  exists k,
                    (k < length (l :: ls))%nat /\
                    g1 = set_maze (store_rows (firstn k (l :: ls)) g)
                           (strcpy_row (maze (store_rows (firstn k (l :: ls)) g))
                              (rows (store_rows (firstn k (l :: ls)) g))
                              (nth k (l :: ls) [])) /\
                    rows (store_rows (firstn k (l :: ls)) g) <> 0 /\
                    strlen (nth k (l :: ls) []) <> cols (store_rows (firstn k (l :: ls)) g) /\
                    (forall l', In l' (firstn k (l :: ls)) ->
                                strlen l' = cols (store_rows (firstn k (l :: ls)) g))).
  { intros Hrun' Hl.
    assert (Hr' : 0 <= rows (store_row g l)) by (rewrite rows_store_row; lia).
    destruct (IH _ _ Hr' Hrun') as (k & Hk & Hg1 & Hne & Hlen & Huni).
    exists (S k). cbn [length firstn nth]. unfold store_rows in *. cbn [fold_left].
    split; [lia | ]. split; [exact Hg1 | ]. split; [exact Hne | ]. split; [exact Hlen | ].
    intros l' [<- | Hl']; [ | now apply Huni].
    fold (store_rows (firstn k ls) (store_row g l)).
    rewrite store_rows_cols_keep by (rewrite rows_store_row; lia).
    rewrite cols_store_row. destruct (Z.eqb_spec (rows g) 0); [reflexivity | ].
    destruct Hl; [contradiction | assumption]. }
  destruct (Z.eqb_spec (rows g) 0) as [Hz | Hnz]; cbn [negb andb] in Hrun.
  - destruct (rows g + 1 >=? MAXR); [discriminate | ]. apply Hnext; auto.
  - destruct (Z.eqb_spec (strlen l) (cols g)) as [He | Hne]; cbn [negb] in Hrun.
    + destruct (rows g + 1 >=? MAXR); [discriminate | ]. apply Hnext; auto.
    + injection Hrun as <-. exists O. cbn [length firstn nth store_rows fold_left].
      split; [lia | ]. split; [reflexivity | ]. split; [exact Hnz | ].
      split; [exact Hne | intros ? []].
Qed.

(** X7.  For a source whose lines fit the line buffer: when [load_maze]
    fails with the row-length message, the globals hold the rows read so
    far, [rows] counts them, [cols] is the length of the first line, and
    the line of another length has already been copied into the next row
    of [maze]. *)
Theorem load_maze_row_length_failure (s : list ascii) (g : grid) (o : load_outcome) :
  (forall l, In l (non_empty_lines s) -> line_fits l) ->
  load_maze (Some s) g = Some o ->
  load_msg o = Some MsgRowLength ->
  load_ret o = 0 /\
  exists k,
    (0 < k < length (non_empty_lines s))%nat /\
    rows (load_grid o) = Z.of_nat k /\
    cols (load_grid o) = strlen (hd [] (non_empty_lines s)) /\
    (forall i, (i < k)%nat ->
               strlen (nth i (non_empty_lines s) []) = cols (load_grid o)) /\
    strlen (nth k (non_empty_lines s) []) <> cols (load_grid o) /\
    (forall i j, (i <= k)%nat -> 0 <= j < strlen (nth i (non_empty_lines s) []) ->
                 maze (load_grid o) (Z.of_nat i) j
                 = nth (Z.to_nat j) (nth i (non_empty_lines s) []) NUL).
Proof.
  intros Hfit Hload Hmsg.
  pose proof (read_rows_store_lines (length s) s (set_rows g 0) (le_n _) Hfit) as Hread.
  set (ls := non_empty_lines s) in *.
  unfold load_maze in Hload. rewrite Hread in Hload.
  destruct (store_lines ls (set_rows g 0)) as [g1 | g1] eqn:Hst.
  2: { destruct ((rows g1 =? 0) || (cols g1 =? 0)).
       - injection Hload as <-. discriminate.
       - destruct ((sr _ =? -1) || (er _ =? -1)); injection Hload as <-; discriminate. }
  injection Hload as <-. cbn [load_ret load_grid]. split; [reflexivity | ].
  assert (Hr0 : 0 <= rows (set_rows g 0)) by (simpl; lia).
  destruct (store_lines_ragged ls (set_rows g 0) g1 Hr0 Hst)
    as (k & Hk & Hg1 & Hne & Hlen & Huni).
  set (gk := store_rows (firstn k ls) (set_rows g 0)) in *.
  assert (Hlenk : length (firstn k ls) = k) by (rewrite length_firstn; lia).
  assert (Hrk : rows gk = Z.of_nat k).
  { unfold gk. rewrite store_rows_rows, Hlenk. simpl. lia. }
  assert (Hk0 : (0 < k)%nat) by lia.
  assert (Hnth : forall i, (i < k)%nat -> nth i (firstn k ls) [] = nth i ls []).
  { intros i Hi. rewrite nth_firstn. apply Nat.ltb_lt in Hi. now rewrite Hi. }
  subst g1. cbn [set_maze rows cols maze].
  exists k. split; [lia | ]. split; [exact Hrk | ]. split; [ | split; [ | split; [exact Hlen | ]]].
  - symmetry. apply Huni. destruct ls as [ | l0 ls']; [simpl in Hk; lia | ].
    destruct k; [lia | now left].
  - intros i Hi. rewrite <- Hnth by exact Hi. apply Huni. apply nth_In. lia.
  - intros i j Hi Hj. destruct (Nat.eq_dec i k) as [-> | Hik].
    + rewrite Hrk. now apply strcpy_row_same.
    + rewrite strcpy_row_other by lia. unfold gk.
      replace (Z.of_nat i) with (rows (set_rows g 0) + Z.of_nat i) by (simpl; lia).
      rewrite store_rows_maze; rewrite ?Hnth by lia; try lia. reflexivity.
Qed.

(** X8.  Which message a failed load prints, for a source whose lines
    fit the line buffer.  With the retained lines being the first MAXR
    non-empty ones: "Maze is empty!" exactly when there is none; the
    row-length error exactly when they do not all have the length of the
    first; the missing-markers error exactly when there are some, of one
    length, and no 'S' or no 'E' among them; no message, and the return
    value 1, in the remaining case.  The return value is 0 whenever a
    message is printed. *)
Theorem load_maze_message (s : list ascii) (g : grid) :
  (forall l, In l (non_empty_lines s) -> line_fits l) ->
  exists o,
    load_maze (Some s) g = Some o /\
    (load_msg o = Some MsgEmpty <-> kept_lines s = []) /\
    (load_msg o = Some MsgRowLength <-> ~ uniform (kept_lines s)) /\
    (load_msg o = Some MsgNoMarkers <->
     kept_lines s <> [] /\ uniform (kept_lines s) /\
     ~ (holds (kept_lines s) "S" /\ holds (kept_lines s) "E")) /\
    (load_msg o = None <-> load_ret o = 1) /\
    (load_ret o = 0 \/ load_ret o = 1).
Proof.
  intros Hfit.
  pose proof (read_rows_store_lines (length s) s (set_rows g 0) (le_n _) Hfit) as Hread.
  unfold kept_lines. set (ls := non_empty_lines s) in *.
  set (kept := firstn (Z.to_nat MAXR) ls).
  assert (Hne : forall l, In l ls -> l <> []).
  { intros l Hl. apply (non_empty_lines_spec s l Hl). }
  assert (Hhd : hd [] kept = hd [] ls).
  { unfold kept. destruct ls; reflexivity. }
  pose proof (store_lines_done ls (set_rows g 0)) as Hdone.
  cbn [rows set_rows] in Hdone. rewrite Z.sub_0_r in Hdone. fold kept in Hdone.
  change (0 =? 0) with true in Hdone. cbv iota in Hdone.
  assert (Hr0 : 0 <= 0 < MAXR) by (unfold MAXR; lia).
  specialize (Hdone Hr0 Hne). rewrite <- Hhd in Hdone. fold (uniform kept) in Hdone.
  destruct (store_lines ls (set_rows g 0)) as [g1 | g1] eqn:Hst.
  - assert (Hnot : ~ uniform kept).
    { intros Hu. apply Hdone in Hu. destruct Hu as (g2 & Hg2). discriminate. }
    exists (mkLoad 0 (Some MsgRowLength) g1). split.
    { unfold load_maze. now rewrite Hread. }
    cbn [load_msg load_ret].
    split; [split; [discriminate | intros E; exfalso; apply Hnot; rewrite E; intros ? []] | ].
    split; [split; [intros _; exact Hnot | reflexivity] | ].
    split; [split; [discriminate | intros (_ & Hu & _); contradiction] | ].
    split; [split; discriminate | now left].
  - assert (Hu : uniform kept) by (apply Hdone; now exists g1).
    apply store_lines_result in Hst; [ | exact Hr0].
    cbn [rows set_rows] in Hst. rewrite Z.sub_0_r in Hst. fold kept in Hst.
    destruct kept as [ | l0 kept'] eqn:Ekept.
    + exists (mkLoad 0 (Some MsgEmpty) g1). split.
      { unfold load_maze. rewrite Hread. subst g1. reflexivity. }
      cbn [load_msg load_ret].
      split; [split; reflexivity | ].
      split; [split; [discriminate | intros Hn; contradiction] | ].
      split; [split; [discriminate | intros (Hk & _); congruence] | ].
      split; [split; discriminate | now left].
    + assert (Hl0 : In l0 ls).
      { apply (in_firstn (Z.to_nat MAXR)). fold kept. rewrite Ekept. now left. }
      assert (Hn : 0 < strlen l0).
      { unfold strlen. specialize (Hne l0 Hl0). destruct l0; [congruence | simpl; lia]. }
      assert (Huni : forall l, In l (l0 :: kept') -> strlen l = strlen l0).
      { intros l Hl. now rewrite (Hu l Hl). }
      assert (Hrows : rows g1 = Z.of_nat (length (l0 :: kept'))).
      { subst g1. rewrite store_rows_rows. simpl rows. lia. }
      assert (Hcols : cols g1 = strlen l0).
      { subst g1. apply store_rows_cols; try assumption.
        - simpl. lia.
        - simpl. congruence.
        - discriminate. }
      destruct (load_maze_done s g g1) as (o & Hload & _ & Hcases & Hret).
      { exact Hread. }
      { rewrite Hrows. simpl. lia. }
      { lia. }
      exists o. split; [exact Hload | ].
      assert (Hmark : load_ret o = 1 <->
                      holds (l0 :: kept') "S" /\ holds (l0 :: kept') "E").
      { rewrite Hret. subst g1. unfold holds.
        rewrite !(occurs_store_rows (l0 :: kept') (set_rows g 0) (strlen l0))
          by (reflexivity || discriminate || assumption).
        reflexivity. }
      destruct Hcases as [[H1 Hm] | [H0 Hm]]; rewrite Hm.
      * split; [split; discriminate | ].
        split; [split; [discriminate | intros Hn'; contradiction] | ].
        split; [split; [discriminate | ] | ].
        { intros (_ & _ & Hno). exfalso. apply Hno. now apply Hmark. }
        split; [split; [intros _; exact H1 | reflexivity] | now right].
      * split; [split; discriminate | ].
        split; [split; [discriminate | intros Hn'; contradiction] | ].
        split; [split; [intros _ | reflexivity] | ].
        { split; [discriminate | ]. split; [exact Hu | ].
          intros Hh. apply Hmark in Hh. lia. }
        split; [split; [discriminate | lia] | now left].
Qed.

(** ** Manual play *)

(** What [move_player] does, by cases: the player stays where it is and a
    message is printed, or it moves to a passable neighbour. *)
Lemma move_player_cases g p ch :
  (fst (move_player g p ch) = p /\ snd (move_player g p ch) <> Moved) \/
  (exists d, 0 <= d < 4 /\ key_direction ch = Some d /\
             is_valid g (pr p + dr d) (pc p + dc d) = true /\
             move_player g p ch = (mkPlayer (pr p + dr d) (pc p + dc d), Moved)).
Proof.
  unfold move_player, key_direction.
  destruct (Ascii.eqb ch "w" || Ascii.eqb ch "W");
    [ | destruct (Ascii.eqb ch "s" || Ascii.eqb ch "S");
        [ | destruct (Ascii.eqb ch "a" || Ascii.eqb ch "A");
            [ | destruct (Ascii.eqb ch "d" || Ascii.eqb ch "D") ] ] ].
  5: { left. split; [reflexivity | discriminate]. }
  all: match goal with
       | |- context [is_valid ?g ?a ?b] => destruct (is_valid g a b) eqn:Hv
       end;
       [ right | left; split; [reflexivity | discriminate] ].
  - exists 0. rewrite dr_0, dc_0, Z.add_0_r. change (pr p + -1) with (pr p - 1).
    split; [lia | ]. split; [reflexivity | ]. split; [exact Hv | reflexivity].
  - exists 1. rewrite dr_1, dc_1, Z.add_0_r.
    split; [lia | ]. split; [reflexivity | ]. split; [exact Hv | reflexivity].
  - exists 2. rewrite dr_2, dc_2, Z.add_0_r. change (pc p + -1) with (pc p - 1).
    split; [lia | ]. split; [reflexivity | ]. split; [exact Hv | reflexivity].
  - exists 3. rewrite dr_3, dc_3, Z.add_0_r.
    split; [lia | ]. split; [reflexivity | ]. split; [exact Hv | reflexivity].
Qed.

Lemma exit_reached g p :
  (pr p =? er g) && (pc p =? ec g) = true <-> player_cell p = exit_cell g.
Proof.
  unfold player_cell, exit_cell. rewrite andb_true_iff, !Z.eqb_eq.
  split; [intros [-> ->]; reflexivity | intros E; injection E; auto].
Qed.

(** The loop of [play_manual], from any passable position. *)
Lemma play_manual_loop_walk g : forall chars p out p' rest out' e n0,
  walk g (start_cell g) n0 (player_cell p) ->
  play_manual_loop g p chars out = (p', rest, out', e) ->
  exists used n,
    chars = used ++ rest /\
    (n <= n0 + length used)%nat /\
    walk g (start_cell g) n (player_cell p') /\
    (last_output out' = Some OutCongratulations <-> player_cell p' = exit_cell g) /\
    (e = AwaitingInput -> rest = []).
Proof.
  induction chars as [ | ch chars IH]; intros p out p' rest out' e n0 Hw Hrun;
    cbn [play_manual_loop] in Hrun;
    destruct ((pr p =? er g) && (pc p =? ec g)) eqn:Hexit.
  - injection Hrun as <- <- <- <-. exists [], n0.
    split; [reflexivity | ]. split; [simpl; lia | ]. split; [exact Hw | ].
    split; [ | discriminate]. split; [intros _; now apply exit_reached | reflexivity].
  - injection Hrun as <- <- <- <-. exists [], n0.
    split; [reflexivity | ]. split; [simpl; lia | ]. split; [exact Hw | ].
    split; [ | reflexivity]. split; [discriminate | ].
    intros E. apply exit_reached in E. congruence.
  - injection Hrun as <- <- <- <-. exists [], n0.
    split; [reflexivity | ]. split; [simpl; lia | ]. split; [exact Hw | ].
    split; [ | discriminate]. split; [intros _; now apply exit_reached | reflexivity].
  - destruct (Ascii.eqb ch "q" || Ascii.eqb ch "Q").
    + injection Hrun as <- <- <- <-. exists [ch], n0.
      split; [reflexivity | ]. split; [simpl; lia | ]. split; [exact Hw | ].
      split; [ | discriminate]. split; [discriminate | ].
      intros E. apply exit_reached in E. congruence.
    + destruct (move_player g p ch) as [p1 o] eqn:Hmove.
      assert (Hw1 : exists n1, (n1 <= S n0)%nat /\ walk g (start_cell g) n1 (player_cell p1)).
      { destruct (move_player_cases g p ch) as [[Hp _] | (d & Hd & _ & Hv & Hm)].
        - rewrite Hmove in Hp. simpl in Hp. subst p1. exists n0. split; [lia | exact Hw].
        - rewrite Hmove in Hm. injection Hm as -> _. exists (S n0). split; [lia | ].
          apply walk_step with (b := player_cell p); [exact Hw | | ].
          + apply (adjacent_nbr (player_cell p) d Hd).
          + now apply is_valid_spec. }
      destruct Hw1 as (n1 & Hn1 & Hw1).
      destruct (IH _ _ _ _ _ _ _ Hw1 Hrun) as (used & n & Hc & Hn & Hwn & Hout & He).
      exists (ch :: used), n. split; [simpl; now rewrite Hc | ].
      split; [simpl; lia | ]. split; [exact Hwn | ]. split; assumption.
Qed.

(** X9.  Manual play keeps the player on the maze: wherever
    [play_manual] stops, the player stands on a passable cell that can be
    reached from the start in at most as many moves as keys were read.
    The keys not read are left in the input, the congratulation is the
    last thing printed exactly when the player stands on the exit, and
    the loop waits for input only when the input is used up. *)
Theorem play_manual_walks (g : grid) (chars : list ascii) (out : list output)
        (p : player) (rest : list ascii) (out' : list output) (e : ending) :
  passable g (start_cell g) ->
  play_manual g chars out = (p, rest, out', e) ->
  exists used n,
    chars = used ++ rest /\
    (n <= length used)%nat /\
    walk g (start_cell g) n (player_cell p) /\
    (last_output out' = Some OutCongratulations <-> player_cell p = exit_cell g) /\
    (e = AwaitingInput -> rest = []).
Proof.
  intros Hs Hrun. unfold play_manual in Hrun.
  apply (play_manual_loop_walk g chars (mkPlayer (sr g) (sc g)) out p rest out' e 0);
    [exact (walk_here g _ Hs) | exact Hrun].
Qed.

(** ** Keys and moves *)

Lemma direction_key_moves g p d :
  0 <= d < 4 ->
  move_player g p (direction_key d) =
  if is_valid g (pr p + dr d) (pc p + dc d)
  then (mkPlayer (pr p + dr d) (pc p + dc d), Moved)
  else (p, InvalidMove).
Proof.
  intros H. destruct (dir_cases d H) as [-> | [-> | [-> | ->]]];
    unfold move_player, direction_key; cbn [Z.eqb Pos.eqb Ascii.eqb Bool.eqb orb andb];
    rewrite ?dr_0, ?dr_1, ?dr_2, ?dr_3, ?dc_0, ?dc_1, ?dc_2, ?dc_3, ?Z.add_0_r;
    reflexivity.
Qed.

Lemma direction_key_not_quit d :
  Ascii.eqb (direction_key d) "q" || Ascii.eqb (direction_key d) "Q" = false.
Proof.
  unfold direction_key.
  destruct (d =? 0); [reflexivity | ]. destruct (d =? 1); [reflexivity | ].
  destruct (d =? 2); reflexivity.
Qed.

(** Keys that walk a given walk: unless the walk passes the exit before
    its end, [play_manual] reads them all and stands at the end of the
    walk. *)
Lemma walk_keys g a n b :
  walk g a n b ->
  exists chars,
    length chars = n /\
    ((exists m, (m < n)%nat /\ walk g a m (exit_cell g)) \/
     forall more out, exists out1,
       play_manual_loop g (mkPlayer (fst a) (snd a)) (chars ++ more) out
       = play_manual_loop g (mkPlayer (fst b) (snd b)) more out1).
Proof.
  induction 1 as [Ha | n b c Hw IH Hadj Hc].
  - exists []. split; [reflexivity | ]. right. intros more out. exists out. reflexivity.
  - destruct IH as (chars & Hlen & [(m & Hm & Hwm) | Hrun]).
    + exists (chars ++ [direction_key 0]). split; [rewrite length_app; simpl; lia | ].
      left. exists m. split; [lia | exact Hwm].
    + destruct (adjacent_is_nbr b c Hadj) as (d & Hd & ->).
      exists (chars ++ [direction_key d]). split; [rewrite length_app; simpl; lia | ].
      destruct ((fst b =? er g) && (snd b =? ec g)) eqn:Hexit.
      * left. exists n. split; [lia | ].
        apply andb_true_iff in Hexit. destruct Hexit as [E1 E2].
        apply Z.eqb_eq in E1, E2. unfold exit_cell. rewrite <- E1, <- E2.
        now destruct b.
      * right. intros more out. destruct (Hrun (direction_key d :: more) out) as (out1 & E).
        rewrite <- app_assoc. cbn [app]. rewrite E.
        cbn [play_manual_loop pr pc]. rewrite Hexit, direction_key_not_quit.
        rewrite direction_key_moves by exact Hd. cbn [pr pc].
        apply is_valid_spec in Hc. unfold nbr in Hc. cbn [fst snd] in Hc.
        rewrite Hc. eexists. reflexivity.
Qed.

Lemma move_player_key g p ch :
  move_player g p ch =
  match key_direction ch with
  | None => (p, InvalidKey)
  | Some d =>
      if is_valid g (pr p + dr d) (pc p + dc d)
      then (mkPlayer (pr p + dr d) (pc p + dc d), Moved)
      else (p, InvalidMove)
  end.
Proof.
  unfold move_player, key_direction.
  destruct (Ascii.eqb ch "w" || Ascii.eqb ch "W");
    [ | destruct (Ascii.eqb ch "s" || Ascii.eqb ch "S");
        [ | destruct (Ascii.eqb ch "a" || Ascii.eqb ch "A");
            [ | destruct (Ascii.eqb ch "d" || Ascii.eqb ch "D") ] ] ];
    rewrite ?dr_0, ?dr_1, ?dr_2, ?dr_3, ?dc_0, ?dc_1, ?dc_2, ?dc_3, ?Z.add_0_r;
    reflexivity.
Qed.

Lemma key_direction_range ch d : key_direction ch = Some d -> 0 <= d < 4.
Proof.
  unfold key_direction.
  destruct (Ascii.eqb ch "w" || Ascii.eqb ch "W"); [intros E; injection E; lia | ].
  destruct (Ascii.eqb ch "s" || Ascii.eqb ch "S"); [intros E; injection E; lia | ].
  destruct (Ascii.eqb ch "a" || Ascii.eqb ch "A"); [intros E; injection E; lia | ].
  destruct (Ascii.eqb ch "d" || Ascii.eqb ch "D"); [intros E; injection E; lia | ].
  discriminate.
Qed.

(** X10.  A move can be taken back: when a key has moved the player
    from a passable cell, a key for the opposite direction moves it back
    to that cell. *)
Theorem move_player_undo (g : grid) (p p' : player) (ch ch' : ascii) (d : Z) :
  passable g (player_cell p) ->
  key_direction ch = Some d ->
  move_player g p ch = (p', Moved) ->
  key_direction ch' = Some (opposite d) ->
  move_player g p' ch' = (p, Moved).
Proof.
  intros Hp Hd Hmove Hd'.
  pose proof (key_direction_range ch d Hd) as Hrange.
  rewrite move_player_key, Hd in Hmove.
  destruct (is_valid g (pr p + dr d) (pc p + dc d)); [ | discriminate].
  injection Hmove as <-.
  rewrite move_player_key, Hd'. cbn [pr pc].
  assert (Hback : pr p + dr d + dr (opposite d) = pr p /\
                  pc p + dc d + dc (opposite d) = pc p).
  { assert (O0 : opposite 0 = 1) by reflexivity.
    assert (O1 : opposite 1 = 0) by reflexivity.
    assert (O2 : opposite 2 = 3) by reflexivity.
    assert (O3 : opposite 3 = 2) by reflexivity.
    destruct (dir_cases d Hrange) as [-> | [-> | [-> | ->]]];
      rewrite ?O0, ?O1, ?O2, ?O3,
        ?dr_0, ?dr_1, ?dr_2, ?dr_3, ?dc_0, ?dc_1, ?dc_2, ?dc_3; lia. }
  destruct Hback as [-> ->].
  apply is_valid_spec in Hp. unfold player_cell in Hp. rewrite Hp.
  now destruct p.
Qed.

(** ** The frames of manual play *)

Lemma play_manual_loop_frames g : forall chars p out p' rest out' e n0,
  walk g (start_cell g) n0 (player_cell p) ->
  play_manual_loop g p chars out = (p', rest, out', e) ->
  (forall frame, In (OutFrame frame) out' ->
     In (OutFrame frame) out \/
     exists q n, walk g (start_cell g) n (player_cell q) /\
                 frame = print_maze (maze g) g q true) /\
  exists tail out1,
    out' = tail ++ OutFrame (print_maze (maze g) g p' true) :: out1 /\
    forall frame, ~ In (OutFrame frame) tail.
Proof.
  induction chars as [ | ch chars IH]; intros p out p' rest out' e n0 Hw Hrun;
    cbn [play_manual_loop] in Hrun;
    destruct ((pr p =? er g) && (pc p =? ec g)) eqn:Hexit.
  - injection Hrun as <- <- <- <-. split.
    + intros frame [E | [E | Hin]]; [discriminate | | now left].
      right. exists p, n0. split; [exact Hw | now injection E].
    + exists [OutCongratulations], out. split; [reflexivity | ].
      intros frame [E | []]. discriminate.
  - injection Hrun as <- <- <- <-. split.
    + intros frame [E | [E | Hin]]; [discriminate | | now left].
      right. exists p, n0. split; [exact Hw | now injection E].
    + exists [OutMovePrompt], out. split; [reflexivity | ].
      intros frame [E | []]. discriminate.
  - injection Hrun as <- <- <- <-. split.
    + intros frame [E | [E | Hin]]; [discriminate | | now left].
      right. exists p, n0. split; [exact Hw | now injection E].
    + exists [OutCongratulations], out. split; [reflexivity | ].
      intros frame [E | []]. discriminate.
  - destruct (Ascii.eqb ch "q" || Ascii.eqb ch "Q").
    + injection Hrun as <- <- <- <-. split.
      * intros frame [E | [E | [E | Hin]]]; [discriminate | discriminate | | now left].
        right. exists p, n0. split; [exact Hw | now injection E].
      * exists [OutQuit; OutMovePrompt], out. split; [reflexivity | ].
        intros frame [E | [E | []]]; discriminate.
    + destruct (move_player g p ch) as [p1 o] eqn:Hmove.
      assert (Hw1 : exists n1, walk g (start_cell g) n1 (player_cell p1)).
      { destruct (move_player_cases g p ch) as [[Hp _] | (d & Hd & _ & Hv & Hm)].
        - rewrite Hmove in Hp. simpl in Hp. subst p1. now exists n0.
        - rewrite Hmove in Hm. injection Hm as -> _. exists (S n0).
          apply walk_step with (b := player_cell p); [exact Hw | | ].
          + apply (adjacent_nbr (player_cell p) d Hd).
          + now apply is_valid_spec. }
      destruct Hw1 as (n1 & Hw1).
      destruct (IH _ _ _ _ _ _ _ Hw1 Hrun) as (Hframes & Hlast).
      split; [ | exact Hlast].
      intros frame Hin. destruct (Hframes frame Hin) as [Hold | Hnew]; [ | now right].
      assert (Hprev : In (OutFrame frame)
                         (OutMovePrompt :: OutFrame (print_maze (maze g) g p true) :: out)).
      { destruct o; [exact Hold | | ]; destruct Hold as [E | Hold];
          (discriminate || exact Hold). }
      destruct Hprev as [E | [E | Hprev]]; [discriminate | | now left].
      right. exists p, n0. split; [exact Hw | now injection E].
Qed.

(** X11.  Every frame [play_manual] draws is the maze with the caret on
    a cell the player can stand on, a passable cell reached from the
    start; and the last frame drawn shows the position at which
    [play_manual] stops. *)
Theorem play_manual_frames (g : grid) (chars : list ascii) (out : list output)
        (p : player) (rest : list ascii) (out' : list output) (e : ending) :
  passable g (start_cell g) ->
  play_manual g chars out = (p, rest, out', e) ->
  (forall frame, In (OutFrame frame) out' ->
     In (OutFrame frame) out \/
     exists q n, walk g (start_cell g) n (player_cell q) /\
                 frame = print_maze (maze g) g q true) /\
  exists tail out1,
    out' = tail ++ OutFrame (print_maze (maze g) g p true) :: out1 /\
    forall frame, ~ In (OutFrame frame) tail.
Proof.
  intros Hs Hrun. unfold play_manual in Hrun.
  apply (play_manual_loop_frames g chars (mkPlayer (sr g) (sc g)) out p rest out' e 0);
    [exact (walk_here g _ Hs) | exact Hrun].
Qed.

(** ** Paths and walks *)

Lemma walk_cons g a b : adjacent a b -> passable g a ->
  forall n c, walk g b n c -> walk g a (S n) c.
Proof.
  intros Hadj Ha n c Hw. induction Hw as [Hb | n c d Hw IH Hcd Hd].
  - apply walk_step with (b := a); [now apply walk_here | exact Hadj | exact Hb].
  - apply walk_step with (b := c); assumption.
Qed.

Lemma path_walk g : forall l a b,
  hd_error l = Some a -> last l a = b -> contiguous l -> Forall (passable g) l ->
  walk g a (length l - 1) b.
Proof.
  induction l as [ | x l IH]; intros a b Hhd Hlast Hc Hp; [discriminate | ].
  injection Hhd as ->. inversion Hp as [ | ? ? Hx Hl]; subst.
  destruct l as [ | y l'].
  - simpl. now apply walk_here.
  - destruct Hc as [Hadj Hc].
    replace (length (a :: y :: l') - 1)%nat with (S (length (y :: l') - 1)) by (simpl; lia).
    apply walk_cons with (b := y); [exact Hadj | exact Hx | ].
    apply IH; [reflexivity | | exact Hc | exact Hl].
    change (last (a :: y :: l') a) with (last (y :: l') a).
    apply last_default. discriminate.
Qed.

Lemma simple_path_walk g a b l :
  simple_path g a b l -> walk g a (length l - 1) b.
Proof. intros (Hhd & Hlast & Hc & Hp & _). now apply path_walk. Qed.

Lemma contiguous_snoc : forall l a b,
  contiguous (l ++ [a]) -> adjacent a b -> contiguous ((l ++ [a]) ++ [b]).
Proof.
  induction l as [ | x l IH]; intros a b Hc Hab.
  - simpl. auto.
  - destruct l as [ | y l'].
    + simpl in *. destruct Hc as [Hxa _]. auto.
    + destruct Hc as [Hxy Hc]. split; [exact Hxy | ]. now apply (IH a b).
Qed.

Lemma contiguous_rev : forall l, contiguous l -> contiguous (rev l).
Proof.
  induction l as [ | x l IH]; intros Hc; [exact I | ].
  destruct l as [ | y l']; [exact I | ].
  destruct Hc as [Hxy Hc]. specialize (IH Hc).
  change (rev (x :: y :: l')) with ((rev l' ++ [y]) ++ [x]).
  apply contiguous_snoc; [exact IH | now apply adjacent_sym].
Qed.

Lemma hd_error_rev {A} (l : list A) (d : A) :
  l <> [] -> hd_error (rev l) = Some (last l d).
Proof.
  intros H. destruct (exists_last H) as (l' & x & ->).
  rewrite rev_app_distr, last_last. reflexivity.
Qed.

Lemma last_rev {A} (l : list A) (x d : A) :
  hd_error l = Some x -> last (rev l) d = x.
Proof.
  destruct l as [ | y l]; [discriminate | ]. intros E. injection E as ->.
  simpl. apply last_last.
Qed.

(** A simple path walked backward is a simple path. *)
Lemma simple_path_rev g a b l :
  simple_path g a b l -> simple_path g b a (rev l).
Proof.
  intros (Hhd & Hlast & Hc & Hp & Hnd).
  assert (Hne : l <> []) by (destruct l; [discriminate | discriminate]).
  split; [ | split; [ | split; [ | split]]].
  - rewrite (hd_error_rev l a Hne). now rewrite Hlast.
  - now apply last_rev.
  - now apply contiguous_rev.
  - now apply Forall_rev.
  - now apply NoDup_rev.
Qed.

Lemma walk_manhattan g a n b :
  walk g a n b -> manhattan a b <= Z.of_nat n.
Proof.
  unfold manhattan. induction 1 as [ | n b c Hw IH Hadj Hc].
  - lia.
  - unfold adjacent in Hadj. lia.
Qed.

Lemma cell_eqb_spec a b : cell_eqb a b = true <-> a = b.
Proof.
  destruct a, b. unfold cell_eqb. simpl. rewrite andb_true_iff, !Z.eqb_eq.
  split; [intros [-> ->]; reflexivity | intros E; injection E; auto].
Qed.

Lemma on_path_spec l i j : on_path l i j = true <-> In (i, j) l.
Proof.
  unfold on_path. rewrite existsb_exists. split.
  - intros (x & Hx & E). apply cell_eqb_spec in E. now subst.
  - intros H. exists (i, j). split; [exact H | now apply cell_eqb_spec].
Qed.

(** ** What the breadth-first search leaves behind *)

Lemma parent_walk_nonempty P Q g : forall fuel cr cc l,
  Bfs.parent_walk fuel g P Q cr cc = Some l -> l <> [].
Proof.
  intros fuel cr cc l H. destruct fuel as [ | fuel]; simpl in H;
    destruct (negb (cr =? sr g) || negb (cc =? sc g)); try discriminate.
  - injection H as <-. discriminate.
  - destruct (Bfs.parent_walk fuel g P Q (P cr cc) (Q cr cc)); [ | discriminate].
    injection H as <-. discriminate.
  - injection H as <-. discriminate.
Qed.

Lemma marked_nil g i j : marked g [] i j = maze g i j.
Proof. reflexivity. Qed.

(** The loop of [mark_shortest_path] changes nothing but the maze, and
    there it marks the cells it stands on before the last. *)
Lemma mark_loop_marks P Q g : forall fuel g1 cr cc len g2 n l,
  sr g1 = sr g -> sc g1 = sc g ->
  Bfs.mark_loop fuel g1 P Q cr cc len = Some (g2, n) ->
  Bfs.parent_walk fuel g P Q cr cc = Some l ->
  rows g2 = rows g1 /\ cols g2 = cols g1 /\
  start_cell g2 = start_cell g1 /\ exit_cell g2 = exit_cell g1 /\
  forall i j, maze g2 i j = marked g1 (removelast l) i j.
Proof.
  induction fuel as [ | fuel IH]; intros g1 cr cc len g2 n l Hr Hc Hmark Hwalk;
    simpl in Hmark, Hwalk; rewrite Hr, Hc in Hmark;
    destruct (negb (cr =? sr g) || negb (cc =? sc g)); try discriminate.
  - injection Hmark as <- <-. injection Hwalk as <-. auto.
  - destruct (Bfs.parent_walk fuel g P Q (P cr cc) (Q cr cc)) as [l' | ] eqn:Hw';
      [ | discriminate].
    injection Hwalk as <-.
    pose proof (parent_walk_nonempty _ _ _ _ _ _ _ Hw') as Hne.
    assert (Hcons : removelast ((cr, cc) :: l') = (cr, cc) :: removelast l')
      by (destruct l'; [contradiction | reflexivity]).
    rewrite Hcons.
    assert (Hhere : forall i j, cell_eqb (i, j) (cr, cc) = false ->
                                upd2 (maze g1) cr cc "b"%char i j = maze g1 i j).
    { intros i j Hij. apply upd2_other. intros E. apply cell_eqb_spec in E. congruence. }
    destruct (negb (Ascii.eqb (maze g1 cr cc) "S") && negb (Ascii.eqb (maze g1 cr cc) "E"))
      eqn:Ht.
    + destruct (IH (set_maze g1 (upd2 (maze g1) cr cc "b"%char)) _ _ _ _ _ _ Hr Hc Hmark Hw')
        as (R1 & R2 & R3 & R4 & Hm).
      split; [exact R1 | ]. split; [exact R2 | ]. split; [exact R3 | ]. split; [exact R4 | ].
      intros i j. rewrite Hm. unfold marked, on_path. cbn [existsb set_maze maze].
      destruct (cell_eqb (i, j) (cr, cc)) eqn:Hij; cbn [orb].
      * apply cell_eqb_spec in Hij. injection Hij as -> ->.
        rewrite upd2_same, andb_true_l, Ht.
        destruct (existsb (cell_eqb (cr, cc)) (removelast l') && negb ("b" =? "S")%char
                  && negb ("b" =? "E")%char); reflexivity.
      * now rewrite Hhere.
    + destruct (IH _ _ _ _ _ _ _ Hr Hc Hmark Hw') as (R1 & R2 & R3 & R4 & Hm).
      split; [exact R1 | ]. split; [exact R2 | ]. split; [exact R3 | ]. split; [exact R4 | ].
      intros i j. rewrite Hm. unfold marked, on_path. cbn [existsb].
      destruct (cell_eqb (i, j) (cr, cc)) eqn:Hij; cbn [orb]; [ | reflexivity].
      apply cell_eqb_spec in Hij. injection Hij as -> ->.
      rewrite andb_true_l, Ht.
      destruct (existsb (cell_eqb (cr, cc)) (removelast l')); cbn [andb]; [ | reflexivity].
      rewrite Ht. reflexivity.
  - injection Hmark as <- <-. injection Hwalk as <-. auto.
Qed.

Lemma on_path_removelast l i j :
  l <> [] -> (i, j) <> last l (0, 0) -> on_path (removelast l) i j = on_path l i j.
Proof.
  intros Hne Hij. rewrite (app_removelast_last (0, 0) Hne) at 2.
  unfold on_path. rewrite existsb_app. cbn [existsb].
  destruct (cell_eqb (i, j) (last l (0, 0))) eqn:E.
  - apply cell_eqb_spec in E. contradiction.
  - now rewrite !orb_false_r.
Qed.

(** [bfs_shortest] on a loaded grid, in full: it returns; when the
    search does not find the exit there is no way to it and the maze is
    as it was; when it does, the parent links give a shortest path and
    the maze comes back with that path marked. *)
Lemma bfs_shortest_loaded g q0 pr0 pc0 :
  loaded g ->
  (~ reachable g (start_cell g) (exit_cell g) /\
   exists q1, Bfs.bfs_shortest g q0 pr0 pc0 = Some (Bfs.NoPathExists, g, q1)) \/
  (exists l n g1 q1,
      Bfs.bfs_shortest g q0 pr0 pc0 = Some (Bfs.ShortestPath (Z.of_nat n), g1, q1) /\
      length l = S n /\
      distance g (start_cell g) (exit_cell g) n /\
      simple_path g (exit_cell g) (start_cell g) l /\
      rows g1 = rows g /\ cols g1 = cols g /\
      start_cell g1 = start_cell g /\ exit_cell g1 = exit_cell g /\
      forall i j, maze g1 i j = marked g l i j).
Proof.
  intros L.
  destruct (bfs_loop_loaded g q0 pr0 pc0 L) as (st & lab & Hrun & Hout & Hend).
  unfold Bfs.bfs_shortest. rewrite Hrun.
  destruct (Bfs.found st) eqn:Hf; cbn [negb].
  - right. destruct Hout as [C _].
    destruct (found_parent_walk g (loaded_start_passable g L) lab st C Hf)
      as (l & n & Hwalk & Hlen & Hdist & Hhd & Hlast & Hcont & Hnd & Hall).
    pose proof (mark_loop_parent_walk (Bfs.parent_r st) (Bfs.parent_c st) g
                  (cells_fuel g) g (er g) (ec g) 0 eq_refl eq_refl) as Hlenm.
    rewrite Hwalk in Hlenm. unfold Bfs.mark_shortest_path.
    destruct (Bfs.mark_loop (cells_fuel g) g (Bfs.parent_r st) (Bfs.parent_c st)
                            (er g) (ec g) 0) as [[g2 m] | ] eqn:Hmark; [ | contradiction].
    destruct (mark_loop_marks _ _ g _ g _ _ _ _ _ _ eq_refl eq_refl Hmark Hwalk)
      as (R1 & R2 & R3 & R4 & Hm).
    assert (Hne : l <> []) by (destruct l; [discriminate | discriminate]).
    assert (Em : m = Z.of_nat n) by lia.
    exists l, n, g2, (Bfs.q st).
    split; [now rewrite Em | ]. split; [exact Hlen | ]. split; [exact Hdist | ].
    split.
    { destruct l as [ | p l']; [contradiction | ]. cbn [hd] in Hhd. subst p.
      split; [reflexivity | ]. split; [exact Hlast | ]. split; [exact Hcont | ].
      split; [now apply Forall_forall | exact Hnd]. }
    split; [exact R1 | ]. split; [exact R2 | ]. split; [exact R3 | ]. split; [exact R4 | ].
    intros i j. rewrite Hm. unfold marked.
    destruct (cell_eqb (i, j) (start_cell g)) eqn:E.
    + apply cell_eqb_spec in E. injection E as -> ->.
      rewrite (loaded_start_S g L). cbn [Ascii.eqb Bool.eqb negb andb].
      now rewrite !andb_false_r.
    + rewrite on_path_removelast; [reflexivity | exact Hne | ].
      rewrite (last_default l (0, 0) (exit_cell g) Hne), Hlast.
      intros E'. rewrite E' in E.
      assert (cell_eqb (start_cell g) (start_cell g) = true) by now apply cell_eqb_spec.
      congruence.
  - left. split.
    + destruct Hend as [? | Hempty]; [congruence | ].
      exact (not_found_unreachable g lab st Hout Hf Hempty).
    + exists (Bfs.q st). reflexivity.
Qed.

Lemma loaded_marked g g1 l :
  loaded g ->
  rows g1 = rows g -> cols g1 = cols g ->
  start_cell g1 = start_cell g -> exit_cell g1 = exit_cell g ->
  (forall i j, maze g1 i j = marked g l i j) ->
  loaded g1.
Proof.
  intros L R1 R2 R3 R4 Hm. destruct L as [L1 L2 L3 L4 L5 L6].
  assert (Es : sr g1 = sr g /\ sc g1 = sc g) by (unfold start_cell in R3; now injection R3).
  assert (Ee : er g1 = er g /\ ec g1 = ec g) by (unfold exit_cell in R4; now injection R4).
  destruct Es as [Es1 Es2], Ee as [Ee1 Ee2].
  constructor; rewrite ?R1, ?R2, ?R3, ?R4, ?Es1, ?Es2, ?Ee1, ?Ee2; try assumption.
  - unfold in_bounds in *. unfold start_cell in *. cbn [fst snd] in *. now rewrite R1, R2.
  - rewrite Hm. unfold marked. rewrite L4. cbn [Ascii.eqb Bool.eqb negb andb].
    now rewrite !andb_false_r.
  - unfold in_bounds in *. unfold exit_cell in *. cbn [fst snd] in *. now rewrite R1, R2.
  - rewrite Hm. unfold marked. rewrite L6. cbn [Ascii.eqb Bool.eqb negb andb].
    now rewrite !andb_false_r.
Qed.

(** X12.  What [bfs_shortest] does to the globals of a loaded maze: the
    size, the start and the exit stay as they are.  When it reports that
    no path exists the maze is untouched.  When it reports a length [n],
    the maze differs from the one it was given only in that the cells of
    one path of [n] moves from the exit back to the start -- cardinal
    moves, passable cells, no cell twice -- hold 'b', except those that
    hold 'S' or 'E'; the start still holds 'S' and the exit 'E'. *)
Theorem bfs_marks_shortest_path (g : grid) (q0 : Bfs.queue) (pr0 pc0 : Z -> Z -> Z)
        (rep : Bfs.report) (g1 : grid) (q1 : Bfs.queue) :
  loaded g ->
  Bfs.bfs_shortest g q0 pr0 pc0 = Some (rep, g1, q1) ->
  rows g1 = rows g /\ cols g1 = cols g /\
  start_cell g1 = start_cell g /\ exit_cell g1 = exit_cell g /\
  loaded g1 /\
  match rep with
  | Bfs.NoPathExists => g1 = g
  | Bfs.ShortestPath n =>
      exists l,
        simple_path g (exit_cell g) (start_cell g) l /\
        Z.of_nat (length l) = n + 1 /\
        forall i j, maze g1 i j = marked g l i j
  end.
Proof.
  intros L Hrun.
  destruct (bfs_shortest_loaded g q0 pr0 pc0 L)
    as [(_ & q' & E) | (l & n & g' & q' & E & Hlen & _ & Hpath & R1 & R2 & R3 & R4 & Hm)];
    rewrite E in Hrun; injection Hrun as <- <- <-.
  - do 4 (split; [reflexivity | ]). split; [exact L | reflexivity].
  - split; [exact R1 | ]. split; [exact R2 | ]. split; [exact R3 | ]. split; [exact R4 | ].
    split; [now apply (loaded_marked g g' l) | ].
    exists l. split; [exact Hpath | ]. split; [lia | exact Hm].
Qed.

(** X13.  The length [bfs_shortest] reports on a loaded maze is at least
    the number of rows plus the number of columns that separate the start
    from the exit, at least 1, and less than the number of cells. *)
Theorem bfs_length_bounds (g : grid) (q0 : Bfs.queue) (pr0 pc0 : Z -> Z -> Z)
        (n : Z) (g1 : grid) (q1 : Bfs.queue) :
  loaded g ->
  Bfs.bfs_shortest g q0 pr0 pc0 = Some (Bfs.ShortestPath n, g1, q1) ->
  1 <= n /\
  manhattan (start_cell g) (exit_cell g) <= n /\
  n < rows g * cols g.
Proof.
  intros L Hrun.
  destruct (bfs_shortest_loaded g q0 pr0 pc0 L)
    as [(_ & q' & E) | (l & m & g' & q' & E & Hlen & Hdist & Hpath & _)];
    rewrite E in Hrun; [discriminate | ].
  injection Hrun as <- _ _.
  pose proof (walk_manhattan _ _ _ _ (proj1 Hdist)) as Hman.
  split; [ | split; [exact Hman | ]].
  - destruct m as [ | m]; [ | lia].
    apply proj1, walk_zero in Hdist. now apply loaded_start_not_exit in Hdist.
  - destruct Hpath as (_ & _ & _ & Hp & Hnd).
    assert (Hne : l <> []) by (destruct l; [discriminate | discriminate]).
    pose proof (cells_in_bounds_count g l Hne Hnd) as Hcount.
    assert (Z.of_nat (length l) <= rows g * cols g).
    { apply Hcount. intros p Hin. rewrite Forall_forall in Hp. now apply Hp. }
    lia.
Qed.

(** ** Manual play against the shortest path *)

(** X14.  The length [bfs_shortest] reports is the least number of keys
    with which manual play can be won: some sequence of that many keys
    ends in the congratulation, and whenever [play_manual] congratulates
    it has read at least that many keys. *)
Theorem shortest_is_fewest_keys (g : grid) (q0 : Bfs.queue) (pr0 pc0 : Z -> Z -> Z)
        (n : Z) (g1 : grid) (q1 : Bfs.queue) (out : list output) :
  loaded g ->
  Bfs.bfs_shortest g q0 pr0 pc0 = Some (Bfs.ShortestPath n, g1, q1) ->
  (exists chars p out1,
      Z.of_nat (length chars) = n /\
      play_manual g chars out = (p, [], OutCongratulations :: out1, Returned 0)) /\
  (forall chars p rest out1 e,
      play_manual g chars out = (p, rest, OutCongratulations :: out1, e) ->
      n <= Z.of_nat (length chars) - Z.of_nat (length rest)).
Proof.
  intros L Hrun.
  destruct (bfs_shortest_loaded g q0 pr0 pc0 L)
    as [(_ & q' & E) | (l & m & g' & q' & E & Hlen & Hdist & _)];
    rewrite E in Hrun; [discriminate | ].
  injection Hrun as <- _ _. split.
  - destruct (walk_keys g _ _ _ (proj1 Hdist)) as (chars & Hchars & [(k & Hk & Hwk) | Hkeys]).
    + apply (proj2 Hdist) in Hwk. lia.
    + destruct (Hkeys [] out) as (out1 & Hplay). rewrite app_nil_r in Hplay.
      exists chars. unfold play_manual. unfold start_cell in Hplay. cbn [fst snd] in Hplay.
      rewrite Hplay. unfold exit_cell. cbn [fst snd play_manual_loop pr pc].
      rewrite !Z.eqb_refl. cbn [andb].
      eexists _, _. split; [now rewrite Hchars | reflexivity].
  - intros chars p rest out1 e Hplay.
    unfold play_manual in Hplay.
    destruct (play_manual_loop_walk g chars (mkPlayer (sr g) (sc g)) out p rest _ e 0
                (walk_here g _ (loaded_start_passable g L)) Hplay)
      as (used & k & Hc & Hk & Hw & Hout & _).
    assert (Hexit : player_cell p = exit_cell g) by now apply Hout.
    rewrite Hexit in Hw. apply (proj2 Hdist) in Hw.
    rewrite Hc, length_app. lia.
Qed.

(** X15.  When [bfs_shortest] reports that no path exists, manual play
    cannot be won: whatever the keys, [play_manual] does not end in the
    congratulation. *)
Theorem unsolvable_never_won (g : grid) (q0 : Bfs.queue) (pr0 pc0 : Z -> Z -> Z)
        (g1 : grid) (q1 : Bfs.queue)
        (chars : list ascii) (out : list output)
        (p : player) (rest : list ascii) (out' : list output) (e : ending) :
  loaded g ->
  Bfs.bfs_shortest g q0 pr0 pc0 = Some (Bfs.NoPathExists, g1, q1) ->
  play_manual g chars out = (p, rest, out', e) ->
  last_output out' <> Some OutCongratulations /\
  player_cell p <> exit_cell g.
Proof.
  intros L Hrun Hplay.
  destruct (bfs_shortest_loaded g q0 pr0 pc0 L)
    as [(Hno & q' & E) | (l & m & g' & q' & E & _)];
    rewrite E in Hrun; [ | discriminate].
  unfold play_manual in Hplay.
  destruct (play_manual_loop_walk g chars (mkPlayer (sr g) (sc g)) out p rest _ e 0
              (walk_here g _ (loaded_start_passable g L)) Hplay)
    as (used & k & Hc & Hk & Hw & Hout & _).
  assert (Hp : player_cell p <> exit_cell g).
  { intros Hexit. apply Hno. exists k. now rewrite <- Hexit. }
  split; [ | exact Hp]. intros Hcon. now apply Hp, Hout.
Qed.

(** ** The uninitialised parent matrices *)

Lemma parents_agree_upd v p p' r c x :
  parents_agree v p p' ->
  parents_agree (upd2 v r c 1) (upd2 p r c x) (upd2 p' r c x).
Proof.
  intros H i j Hv.
  destruct (upd2_cases p r c x i j) as [[E ->] | [N ->]].
  - injection E as -> ->. now rewrite upd2_same.
  - rewrite upd2_other by exact N. apply H. now rewrite upd2_other in Hv by exact N.
Qed.

Lemma expand_agree g cr cc : forall ds st st',
  bfs_agree st st' ->
  bfs_agree (Bfs.expand g cr cc ds st) (Bfs.expand g cr cc ds st').
Proof.
  induction ds as [ | d ds IH]; intros st st' H; [exact H | ].
  cbn [Bfs.expand]. cbv zeta.
  destruct (negb (is_valid g (cr + dr d) (cc + dc d))); [now apply IH | ].
  pose proof H as (Hq & Hv & Hf & Hpr & Hpc). rewrite <- Hv.
  destruct (negb (Bfs.visited st (cr + dr d) (cc + dc d) =? 0)); [now apply IH | ].
  assert (Hd : bfs_agree (Bfs.discover st cr cc (cr + dr d) (cc + dc d))
                         (Bfs.discover st' cr cc (cr + dr d) (cc + dc d))).
  { unfold bfs_agree, Bfs.discover. cbn [Bfs.q Bfs.visited Bfs.found Bfs.parent_r Bfs.parent_c].
    rewrite <- Hq, <- Hv, <- Hf.
    split; [reflexivity | ]. split; [reflexivity | ]. split; [reflexivity | ].
    split; now apply parents_agree_upd. }
  destruct ((cr + dr d =? er g) && (cc + dc d =? ec g)); [ | now apply IH].
  destruct Hd as (Hq' & Hv' & Hf' & Hpr' & Hpc').
  unfold bfs_agree, Bfs.set_found. cbn [Bfs.q Bfs.visited Bfs.found Bfs.parent_r Bfs.parent_c].
  auto.
Qed.

Lemma bfs_loop_agree g : forall fuel st st',
  bfs_agree st st' ->
  match Bfs.bfs_loop fuel g st, Bfs.bfs_loop fuel g st' with
  | Some a, Some b => bfs_agree a b
  | None, None => True
  | _, _ => False
  end.
Proof.
  induction fuel as [ | fuel IH]; intros st st' H;
    pose proof H as (Hq & Hv & Hf & Hpr & Hpc);
    cbn [Bfs.bfs_loop]; rewrite <- Hq, <- Hf;
    destruct (negb (Bfs.queue_empty (Bfs.q st)) && negb (Bfs.found st)); try exact H;
    try exact I.
  destruct (Bfs.queue_pop (Bfs.q st)) as [[cr cc] q1].
  apply IH. apply expand_agree.
  unfold bfs_agree, Bfs.set_q. cbn [Bfs.q Bfs.visited Bfs.found Bfs.parent_r Bfs.parent_c].
  auto.
Qed.

(** Marking reads the parent matrices on the cells of the walk only. *)
Lemma mark_loop_agree g P Q P' Q' : forall fuel g1 cr cc len l,
  sr g1 = sr g -> sc g1 = sc g ->
  Bfs.parent_walk fuel g P Q cr cc = Some l ->
  (forall p, In p l -> P (fst p) (snd p) = P' (fst p) (snd p) /\
                       Q (fst p) (snd p) = Q' (fst p) (snd p)) ->
  Bfs.mark_loop fuel g1 P' Q' cr cc len = Bfs.mark_loop fuel g1 P Q cr cc len.
Proof.
  induction fuel as [ | fuel IH]; intros g1 cr cc len l Hr Hc Hwalk Hagree;
    cbn [Bfs.parent_walk] in Hwalk; cbn [Bfs.mark_loop]; rewrite Hr, Hc;
    destruct (negb (cr =? sr g) || negb (cc =? sc g)) eqn:Hat; try reflexivity.
  destruct (Bfs.parent_walk fuel g P Q (P cr cc) (Q cr cc)) as [l' | ] eqn:Hw';
    [ | discriminate].
  injection Hwalk as <-.
  destruct (Hagree (cr, cc) (or_introl eq_refl)) as [EP EQ]. cbn [fst snd] in EP, EQ.
  cbv zeta. rewrite <- EP, <- EQ.
  apply (IH _ _ _ _ l'); [ | | exact Hw' | intros p Hp; apply Hagree; now right];
    destruct (negb (Ascii.eqb (maze g1 cr cc) "S") && negb (Ascii.eqb (maze g1 cr cc) "E"));
    assumption.
Qed.

Section BfsJunk.

Variable g : grid.
Hypothesis L : loaded g.

(** The cells of the walk along the parent links are discovered cells. *)
Lemma found_walk_visited lab st :
  bfs_core g lab st ->
  Bfs.found st = true ->
  exists l,
    Bfs.parent_walk (cells_fuel g) g (Bfs.parent_r st) (Bfs.parent_c st) (er g) (ec g)
    = Some l /\
    forall p, In p l -> Bfs.visited st (fst p) (snd p) <> 0.
Proof.
  intros C Hf. apply (core_found _ _ _ C) in Hf. destruct Hf as (e & He & Ee).
  destruct (parent_walk_slot g (loaded_start_passable g L) lab st C (cells_fuel g) e He)
    as (l & Hrun & _ & _ & _ & _ & _ & Hall).
  { pose proof (lab_le_slot g (loaded_start_passable g L) lab st C e He).
    pose proof (core_rear _ _ _ C). unfold cells_fuel. lia. }
  rewrite Ee in Hrun. cbn [fst snd exit_cell] in Hrun.
  exists l. split; [exact Hrun | ].
  intros p Hin. destruct (Hall p Hin) as (j & Hj & <-).
  apply (core_visited _ _ _ C). exists j. split; [lia | ].
  unfold qcell. now destruct (Bfs.qr (Bfs.q st) j, Bfs.qc (Bfs.q st) j).
Qed.

End BfsJunk.

(** X16.  [bfs_shortest] declares [parent_r] and [parent_c] without
    initialising them.  On a loaded maze what they hold when the function
    is entered makes no difference: the report, the maze as marked and
    the queue left behind are the same for any two initial contents. *)
Theorem bfs_ignores_uninitialised_parents (g : grid) (q0 : Bfs.queue)
        (pr0 pc0 pr0' pc0' : Z -> Z -> Z) :
  loaded g ->
  Bfs.bfs_shortest g q0 pr0' pc0' = Bfs.bfs_shortest g q0 pr0 pc0.
Proof.
  intros L.
  destruct (bfs_loop_loaded g q0 pr0 pc0 L) as (st & lab & Hrun & [C _] & _).
  assert (Hstart : bfs_agree (Bfs.bfs_start g q0 pr0 pc0) (Bfs.bfs_start g q0 pr0' pc0')).
  { unfold bfs_agree, Bfs.bfs_start.
    cbn [Bfs.q Bfs.visited Bfs.found Bfs.parent_r Bfs.parent_c].
    split; [reflexivity | ]. split; [reflexivity | ]. split; [reflexivity | ].
    split; intros r c Hv;
      (destruct (upd2_cases (fun _ _ : Z => 0) (sr g) (sc g) 1 r c) as [[E _] | [_ E]];
       [injection E as -> ->; now rewrite !upd2_same | congruence]). }
  pose proof (bfs_loop_agree g (cells_fuel g) _ _ Hstart) as Hloop.
  unfold Bfs.bfs_shortest. rewrite Hrun in *.
  destruct (Bfs.bfs_loop (cells_fuel g) g (Bfs.bfs_start g q0 pr0' pc0')) as [st' | ];
    [ | contradiction].
  destruct Hloop as (Hq & Hv & Hf & Hpr & Hpc). rewrite <- Hq, <- Hf.
  destruct (Bfs.found st) eqn:Hfound; cbn [negb]; [ | reflexivity].
  destruct (found_walk_visited g L lab st C Hfound) as (l & Hwalk & Hvis).
  unfold Bfs.mark_shortest_path.
  rewrite (mark_loop_agree g (Bfs.parent_r st) (Bfs.parent_c st)
             (Bfs.parent_r st') (Bfs.parent_c st') (cells_fuel g) g (er g) (ec g) 0 l
             eq_refl eq_refl Hwalk).
  - reflexivity.
  - intros p Hp. split; [apply Hpr | apply Hpc]; now apply Hvis.
Qed.

(** ** The shuffle of the directions *)

Lemma shuffle_swaps rand dirs k :
  Dfs.shuffle rand 3 dirs k =
  let j3 := Z.rem (Z.of_nat (rand k)) 4 in
  let d3 := swap dirs 3 j3 in
  let j2 := Z.rem (Z.of_nat (rand (S k))) 3 in
  let d2 := swap d3 2 j2 in
  let j1 := Z.rem (Z.of_nat (rand (S (S k)))) 2 in
  (swap d2 1 j1, S (S (S k))).
Proof. reflexivity. Qed.

Lemma rem_cases a b : 0 < b -> 0 <= Z.rem (Z.of_nat a) b < b.
Proof. intros H. apply Z.rem_bound_pos; lia. Qed.

(** Three exchanges of the kind the shuffle makes leave a permutation of
    the four directions. *)
Lemma swaps_permute j3 j2 j1 :
  0 <= j3 < 4 -> 0 <= j2 < 3 -> 0 <= j1 < 2 ->
  Permutation
    (map (swap (swap (swap (arr_of_list [0; 1; 2; 3]) 3 j3) 2 j2) 1 j1) (zseq 4))
    [0; 1; 2; 3].
Proof.
  intros H3 H2 H1.
  assert (C3 : j3 = 0 \/ j3 = 1 \/ j3 = 2 \/ j3 = 3) by lia.
  assert (C2 : j2 = 0 \/ j2 = 1 \/ j2 = 2) by lia.
  assert (C1 : j1 = 0 \/ j1 = 1) by lia.
  clear H1 H2 H3.
  destruct C3 as [-> | [-> | [-> | ->]]];
    destruct C2 as [-> | [-> | ->]];
    destruct C1 as [-> | ->];
    vm_compute map;
    (apply NoDup_Permutation;
     [ repeat constructor; simpl; lia
     | repeat constructor; simpl; lia
     | intros x; simpl; lia ]).
Qed.

(** X17.  The shuffle at the head of [dfs_find_one_path] takes three
    values from [rand()] and leaves in [dirs] each of the four directions
    exactly once, whatever values [rand()] returns. *)
Theorem shuffle_permutes (rand : nat -> nat) (k : nat) :
  Permutation (map (fst (Dfs.shuffle rand 3 (arr_of_list [0; 1; 2; 3]) k)) (zseq 4))
              [0; 1; 2; 3] /\
  snd (Dfs.shuffle rand 3 (arr_of_list [0; 1; 2; 3]) k) = (k + 3)%nat.
Proof.
  rewrite shuffle_swaps. cbv zeta. cbn [fst snd]. split; [ | lia].
  apply swaps_permute; apply rem_cases; lia.
Qed.

Lemma shuffle_covers rand k d :
  0 <= d < 4 ->
  exists i, In i (zseq 4) /\
            fst (Dfs.shuffle rand 3 (arr_of_list [0; 1; 2; 3]) k) i = d.
Proof.
  intros Hd.
  assert (Hperm : Permutation
                    (map (fst (Dfs.shuffle rand 3 (arr_of_list [0; 1; 2; 3]) k)) (zseq 4))
                    [0; 1; 2; 3]).
  { rewrite shuffle_swaps. cbv zeta. cbn [fst].
    apply swaps_permute; apply rem_cases; lia. }
  set (dirs := fst (Dfs.shuffle rand 3 (arr_of_list [0; 1; 2; 3]) k)) in *.
  clearbody dirs.
  assert (Hin : In d [0; 1; 2; 3]) by (simpl; lia).
  apply Permutation_sym in Hperm.
  pose proof (Permutation_in d Hperm Hin) as Hin'.
  apply in_map_iff in Hin'. destruct Hin' as (i & E & Hi). exists i. split; assumption.
Qed.

(** ** Depth-first search: failure is final *)

Section DfsComplete.

Variable g : grid.
Variable rand : nat -> nat.

(** When the loop over the directions ends with [false], the call for
    every neighbour that was passable and unmarked has been made and has
    returned [false]. *)
Lemma try_dirs_failed_calls call r c dirs :
  (forall nr nc s s',
      call nr nc s = Some (false, s') -> Dfs.visited s nr nc = 0 -> dfs_same s s') ->
  forall idxs st st',
    Dfs.try_dirs call g r c dirs idxs st = Some (false, st') ->
    forall i, In i idxs ->
      is_valid g (r + dr (dirs i)) (c + dc (dirs i)) = true ->
      Dfs.visited st (r + dr (dirs i)) (c + dc (dirs i)) = 0 ->
      exists s s',
        dfs_same st s /\
        call (r + dr (dirs i)) (c + dc (dirs i)) s = Some (false, s').
Proof.
  intros Hcall. induction idxs as [ | i0 idxs IH]; intros st st' Hrun i Hin Hv Hu;
    [contradiction | ].
  cbn [Dfs.try_dirs] in Hrun.
  destruct (is_valid g (r + dr (dirs i0)) (c + dc (dirs i0))
            && (Dfs.visited st (r + dr (dirs i0)) (c + dc (dirs i0)) =? 0)) eqn:Hcond.
  - apply andb_true_iff in Hcond. destruct Hcond as [Hv0 Hu0]. apply Z.eqb_eq in Hu0.
    destruct (call (r + dr (dirs i0)) (c + dc (dirs i0)) st) as [[[ | ] st1] | ] eqn:Hc0;
      try discriminate.
    pose proof (Hcall _ _ _ _ Hc0 Hu0) as Hsame.
    destruct Hin as [-> | Hin].
    + exists st, st1. split; [apply dfs_same_refl | exact Hc0].
    + destruct (IH _ _ Hrun i Hin Hv) as (s & s' & Hs & Hc).
      * destruct Hsame as (Hvis & _). now rewrite Hvis.
      * exists s, s'. split; [now apply dfs_same_trans with (st2 := st1) | exact Hc].
  - destruct Hin as [-> | Hin].
    + rewrite Hv, Hu in Hcond. discriminate.
    + now apply (IH _ _ Hrun i Hin Hv).
Qed.

(** A call that returns 0 has tried everything: no simple path leads
    from its cell to the exit through cells that were unmarked when it
    was made. *)
Lemma dfs_failure_complete : forall fuel r c st st',
  Dfs.dfs_find_one_path fuel g rand r c st = Some (false, st') ->
  forall l, simple_path g (r, c) (exit_cell g) l -> ~ unmarked (Dfs.visited st) l.
Proof.
  induction fuel as [ | fuel IH]; intros r c st st' Hrun l Hpath Hun; [discriminate | ].
  cbn [Dfs.dfs_find_one_path] in Hrun.
  destruct ((r =? er g) && (c =? ec g)) eqn:Hexit; [discriminate | ].
  destruct (Dfs.shuffle rand 3 (arr_of_list [0; 1; 2; 3])
              (Dfs.rand_calls (Dfs.set_visited (Dfs.path_push st r c) r c 1)))
    as [dirs k] eqn:Hsh.
  set (st3 := Dfs.set_rand_calls (Dfs.set_visited (Dfs.path_push st r c) r c 1) k) in *.
  destruct (Dfs.try_dirs (Dfs.dfs_find_one_path fuel g rand) g r c dirs (zseq 4) st3)
    as [[[ | ] st2] | ] eqn:Htry; try discriminate.
  clear Hrun.
  destruct Hpath as (Hhd & Hlast & Hcont & Hpass & Hnd).
  destruct l as [ | p l']; [discriminate | ]. injection Hhd as ->.
  destruct l' as [ | q l''].
  { cbn [last] in Hlast. unfold exit_cell in Hlast. injection Hlast as -> ->.
    rewrite !Z.eqb_refl in Hexit. discriminate. }
  destruct Hcont as [Hadj Hcont].
  inversion Hpass as [ | ? ? _ Hpass']; subst.
  inversion Hnd as [ | ? ? Hnotin Hnd']; subst.
  destruct (adjacent_is_nbr _ _ Hadj) as (d & Hd & Hq).
  destruct (shuffle_covers rand
              (Dfs.rand_calls (Dfs.set_visited (Dfs.path_push st r c) r c 1)) d Hd)
    as (i & Hi & Hdi).
  rewrite Hsh in Hdi. cbn [fst] in Hdi.
  assert (Hvis3 : forall p, p <> (r, c) ->
                            Dfs.visited st3 (fst p) (snd p) = Dfs.visited st (fst p) (snd p)).
  { intros [a b] Hp. unfold st3. cbn [Dfs.set_rand_calls Dfs.set_visited Dfs.path_push
                                      Dfs.visited fst snd].
    now apply upd2_other. }
  assert (Hqrc : q <> (r, c)) by (intros ->; apply Hnotin; now left).
  assert (Hqn : q = (r + dr (dirs i), c + dc (dirs i))).
  { rewrite Hq, Hdi. reflexivity. }
  assert (Hqv : is_valid g (r + dr (dirs i)) (c + dc (dirs i)) = true).
  { apply is_valid_spec. rewrite <- Hqn. inversion Hpass'; assumption. }
  assert (Hqu : Dfs.visited st3 (r + dr (dirs i)) (c + dc (dirs i)) = 0).
  { pose proof (Hvis3 q Hqrc) as E. rewrite Hqn in E. cbn [fst snd] in E. rewrite E.
    specialize (Hun q (or_intror (or_introl eq_refl))). rewrite Hqn in Hun. exact Hun. }
  destruct (try_dirs_failed_calls (Dfs.dfs_find_one_path fuel g rand) r c dirs
              (dfs_failure_same g rand fuel) _ _ _ Htry i Hi Hqv Hqu)
    as (s & s' & Hs & Hcall).
  apply (IH _ _ _ _ Hcall (q :: l'')).
  - rewrite <- Hqn. split; [reflexivity | ]. split.
    { change (last ((r, c) :: q :: l'') (r, c)) with (last (q :: l'') (r, c)) in Hlast.
      rewrite <- Hlast. apply last_default. discriminate. }
    split; [exact Hcont | ]. split; [exact Hpass' | exact Hnd'].
  - intros p Hp. destruct Hs as (Hvis & _). rewrite Hvis.
    rewrite Hvis3; [apply Hun; now right | ].
    intros ->. now apply Hnotin.
Qed.

End DfsComplete.

(** On a loaded maze, a cell that can be reached can be reached along a
    simple path. *)
Lemma loaded_simple_path g :
  loaded g ->
  reachable g (start_cell g) (exit_cell g) ->
  exists l, simple_path g (start_cell g) (exit_cell g) l.
Proof.
  intros L Hreach.
  destruct (bfs_shortest_loaded g (Bfs.mkQueue (fun _ => 0) (fun _ => 0) 0 0 [])
              (fun _ _ => 0) (fun _ _ => 0) L)
    as [(Hno & _) | (l & _ & _ & _ & _ & _ & _ & Hpath & _)]; [contradiction | ].
  exists (rev l). now apply simple_path_rev.
Qed.

Lemma find_from_start_path g rand st st' :
  loaded g ->
  Dfs.find_from_start g rand st = Some (true, st') ->
  simple_path g (start_cell g) (exit_cell g) (Dfs.path_cells st') /\
  Z.of_nat (length (Dfs.path_cells st')) = Dfs.path_len st'.
Proof.
  intros L Hrun. unfold Dfs.find_from_start in Hrun.
  destruct (dfs_success_path g rand _ _ _ _ _ Hrun (loaded_start_passable g L) eq_refl)
    as (seg & Hext & Hsimple & _).
  rewrite (path_extends_from_empty (Dfs.top_state st) st' seg eq_refl Hext).
  split; [exact Hsimple | ].
  destruct Hext as (Hlen & _). rewrite Hlen. cbn [Dfs.top_state Dfs.path_len]. lia.
Qed.

(** A path found shows that the exit can be reached; a search that
    fails shows that it cannot. *)
Lemma dfs_success_reachable g rand st st' :
  loaded g ->
  Dfs.find_from_start g rand st = Some (true, st') ->
  reachable g (start_cell g) (exit_cell g).
Proof.
  intros L Hrun. destruct (find_from_start_path g rand st st' L Hrun) as [Hpath _].
  eexists. apply (simple_path_walk _ _ _ _ Hpath).
Qed.

Lemma dfs_failure_unreachable g rand st st' :
  loaded g ->
  Dfs.find_from_start g rand st = Some (false, st') ->
  ~ reachable g (start_cell g) (exit_cell g).
Proof.
  intros L Hrun Hreach.
  destruct (loaded_simple_path g L Hreach) as (l & Hl).
  unfold Dfs.find_from_start in Hrun.
  apply (dfs_failure_complete g rand _ _ _ _ _ Hrun l Hl).
  intros p _. reflexivity.
Qed.

(** X18.  On a loaded maze the depth-first search from the start, as
    [show_some_solutions] calls it, returns, whatever [rand()] returns;
    and it returns 0 exactly when the exit cannot be reached from the
    start: the random order of the directions decides which path is
    found, never whether one is. *)
Theorem dfs_fails_iff_unreachable (g : grid) (rand : nat -> nat) (st : Dfs.state) :
  loaded g ->
  exists b st',
    Dfs.find_from_start g rand st = Some (b, st') /\
    (b = false <-> ~ reachable g (start_cell g) (exit_cell g)).
Proof.
  intros L. destruct (find_from_start_total g rand st L) as ([b st'] & Hrun).
  exists b, st'. split; [exact Hrun | ].
  destruct b.
  - split; [discriminate | ]. intros Hno. exfalso. apply Hno.
    now apply (dfs_success_reachable g rand st st').
  - split; [intros _ | reflexivity].
    now apply (dfs_failure_unreachable g rand st st').
Qed.

(** X19.  The two searches against each other, on a loaded maze:
    [bfs_shortest] reports that no path exists exactly when the
    depth-first search returns 0, and a path the depth-first search
    finds has at least as many steps ([path_len - 1], the number
    [show_some_solutions] prints) as the length [bfs_shortest] reports. *)
Theorem dfs_path_not_shorter (g : grid) (q0 : Bfs.queue) (pr0 pc0 : Z -> Z -> Z)
        (rep : Bfs.report) (g1 : grid) (q1 : Bfs.queue)
        (rand : nat -> nat) (st : Dfs.state) (b : bool) (st' : Dfs.state) :
  loaded g ->
  Bfs.bfs_shortest g q0 pr0 pc0 = Some (rep, g1, q1) ->
  Dfs.find_from_start g rand st = Some (b, st') ->
  (rep = Bfs.NoPathExists <-> b = false) /\
  (forall n, rep = Bfs.ShortestPath n -> n <= Dfs.path_len st' - 1).
Proof.
  intros L Hbfs Hdfs.
  assert (Hiff : b = false <-> ~ reachable g (start_cell g) (exit_cell g)).
  { destruct b.
    - split; [discriminate | ]. intros Hno. exfalso. apply Hno.
      now apply (dfs_success_reachable g rand st st').
    - split; [intros _ | reflexivity].
      now apply (dfs_failure_unreachable g rand st st'). }
  destruct (bfs_shortest_loaded g q0 pr0 pc0 L)
    as [(Hno & q' & E) | (l & m & g' & q' & E & Hlen & Hdist & _)];
    rewrite E in Hbfs; injection Hbfs as <- <- <-.
  - split; [split; [intros _; now apply Hiff | reflexivity] | discriminate].
  - assert (Hb : b = true).
    { destruct b; [reflexivity | ]. exfalso. apply (proj1 Hiff eq_refl).
      exists m. apply Hdist. }
    subst b. split; [split; discriminate | ].
    intros n En. injection En as <-.
    destruct (find_from_start_path g rand st st' L Hdfs) as [Hpath Hlen'].
    assert (Hne : length (Dfs.path_cells st') <> O).
    { destruct Hpath as (Hhd & _). destruct (Dfs.path_cells st'); [discriminate | ].
      discriminate. }
    apply simple_path_walk in Hpath. apply (proj2 Hdist) in Hpath. lia.
Qed.

(** ** The rows of a loaded maze as C strings *)

Lemma c_string_no_nul buf : ~ In NUL (c_string buf).
Proof.
  induction buf as [ | ch buf IH]; [intros [] | ].
  cbn [c_string]. destruct (Ascii.eqb_spec ch NUL) as [E | N]; [intros [] | ].
  intros [E | H]; [congruence | contradiction].
Qed.

Lemma strip_newline_incl l x : In x (strip_newline l) -> In x l.
Proof.
  unfold strip_newline.
  destruct ((strlen l >? 0) && Ascii.eqb (nth (Z.to_nat (strlen l - 1)) l NUL) NL);
    [apply in_firstn | auto].
Qed.

Lemma nth_not_nul l j :
  ~ In NUL l -> 0 <= j < strlen l -> nth (Z.to_nat j) l NUL <> NUL.
Proof.
  intros Hl Hj E. apply Hl. rewrite <- E. apply nth_In. unfold strlen in Hj. lia.
Qed.

Lemma store_row_terminated g l :
  0 <= rows g -> ~ In NUL l ->
  (rows g <> 0 -> strlen l = cols g) ->
  rows_terminated g -> rows_terminated (store_row g l).
Proof.
  intros Hr Hl Hlen Ht i Hi. rewrite rows_store_row in Hi.
  assert (Hcols : cols (store_row g l) = strlen l).
  { rewrite cols_store_row. destruct (Z.eqb_spec (rows g) 0); [reflexivity | ].
    symmetry. now apply Hlen. }
  rewrite maze_store_row, Hcols.
  destruct (Z.eq_dec i (rows g)) as [-> | Hne].
  - split.
    + intros j Hj. rewrite strcpy_row_same by exact Hj. now apply nth_not_nul.
    + unfold strcpy_row. rewrite Z.eqb_refl.
      destruct (Z.leb_spec 0 (strlen l)); [ | unfold strlen in *; lia].
      rewrite Z.leb_refl. cbn [andb]. apply nth_overflow. unfold strlen. lia.
  - assert (Hold : 0 <= i < rows g) by lia.
    assert (Hnz : rows g <> 0) by lia.
    destruct (Ht i Hold) as [Hin Hend]. rewrite (Hlen Hnz). split.
    + intros j Hj. rewrite strcpy_row_other by exact Hne. now apply Hin.
    + rewrite strcpy_row_other by exact Hne. exact Hend.
Qed.

Lemma read_rows_terminated : forall fuel s g g1,
  read_rows fuel s g = Some (ReadDone g1) ->
  0 <= rows g -> rows_terminated g -> rows_terminated g1.
Proof.
  induction fuel as [ | fuel IH]; intros s g g1 Hrun Hr Ht.
  - assert (E : read_rows 0 s g
                = match fgets MAXC s with None => Some (ReadDone g) | Some _ => None end).
    { cbn [read_rows]. destruct (fgets MAXC s) as [[? ?] | ]; reflexivity. }
    rewrite E in Hrun. destruct (fgets MAXC s); [discriminate | now injection Hrun as <-].
  - destruct (fgets MAXC s) as [[buf rest] | ] eqn:Hget.
    2: { destruct s; [ | discriminate]. rewrite read_rows_eof in Hrun.
         now injection Hrun as <-. }
    rewrite (read_rows_step _ _ _ _ _ Hget) in Hrun. cbv zeta in Hrun.
    set (line := strip_newline (c_string buf)) in *.
    assert (Hline : ~ In NUL line).
    { intros H. apply strip_newline_incl in H. now apply c_string_no_nul in H. }
    destruct (strlen line =? 0); [now apply (IH _ _ _ Hrun) | ].
    destruct (Z.eqb_spec (rows g) 0) as [Hz | Hnz]; cbn [negb andb] in Hrun.
    + assert (Hst : rows_terminated (store_row g line)).
      { apply store_row_terminated; [lia | exact Hline | contradiction | exact Ht]. }
      destruct (rows g + 1 >=? MAXR); [now injection Hrun as <- | ].
      apply (IH _ _ _ Hrun); [rewrite rows_store_row; lia | exact Hst].
    + destruct (Z.eqb_spec (strlen line) (cols g)) as [He | Hne]; cbn [negb] in Hrun;
        [ | discriminate].
      assert (Hst : rows_terminated (store_row g line)).
      { apply store_row_terminated; [lia | exact Hline | intros _; exact He | exact Ht]. }
      destruct (rows g + 1 >=? MAXR); [now injection Hrun as <- | ].
      apply (IH _ _ _ Hrun); [rewrite rows_store_row; lia | exact Hst].
Qed.

(** After a successful load every row is the C string of its cells. *)
Lemma load_maze_terminated file g o :
  load_maze file g = Some o -> load_ret o = 1 -> rows_terminated (load_grid o).
Proof.
  intros Hload Hret.
  destruct (load_maze_success _ _ _ Hload Hret)
    as (s & g1 & -> & Hread & Hr & Hc & Hg & Hs & He & _).
  destruct (scan_markers_spec (scan_init g1)) as (Hm & Hrw & Hcl & _).
  assert (Ht : rows_terminated g1).
  { apply (read_rows_terminated _ _ _ _ Hread); [simpl; lia | ].
    intros i Hi. simpl in Hi. lia. }
  intros i Hi. rewrite Hg, Hm, Hcl in *. rewrite Hrw in Hi.
  change (maze (scan_init g1)) with (maze g1).
  change (cols (scan_init g1)) with (cols g1).
  now apply Ht.
Qed.

Lemma c_string_stop l1 l2 : ~ In NUL l1 -> c_string (l1 ++ NUL :: l2) = l1.
Proof.
  induction l1 as [ | ch l1 IH]; intros H; [reflexivity | ].
  cbn [app c_string]. destruct (Ascii.eqb_spec ch NUL) as [E | N].
  - exfalso. apply H. now left.
  - f_equal. apply IH. intros Hin. apply H. now right.
Qed.

Lemma c_string_seq (h : nat -> ascii) : forall k a n,
  (forall j, (a <= j < n)%nat -> h j <> NUL) -> h n = NUL ->
  (a <= n < a + k)%nat ->
  c_string (map h (seq a k)) = map h (seq a (n - a)).
Proof.
  induction k as [ | k IH]; intros a n Hbefore Hn Hrange; [lia | ].
  cbn [seq map c_string].
  destruct (Nat.eq_dec a n) as [-> | Hne].
  - rewrite Hn. cbn [Ascii.eqb Bool.eqb]. change (Ascii.eqb NUL NUL) with true.
    now rewrite Nat.sub_diag.
  - destruct (Ascii.eqb_spec (h a) NUL) as [E | _].
    + exfalso. apply (Hbefore a); [lia | exact E].
    + replace (n - a)%nat with (S (n - S a)) by lia. cbn [seq map]. f_equal.
      apply IH; [intros j Hj; apply Hbefore; lia | exact Hn | lia].
Qed.

(** The C string in a row that is terminated at column [cols]. *)
Lemma row_string_terminated g i :
  rows_terminated g -> 0 <= i < rows g -> 0 <= cols g < MAXC ->
  row_string (maze g) i = map (maze g i) (zseq (cols g)).
Proof.
  intros Ht Hi Hc. destruct (Ht i Hi) as [Hin Hend].
  unfold row_string, zseq. rewrite !map_map.
  rewrite (c_string_seq (fun k => maze g i (Z.of_nat k)) _ 0 (Z.to_nat (cols g))).
  - now rewrite Nat.sub_0_r.
  - intros j Hj. apply Hin. lia.
  - rewrite Z2Nat.id by lia. exact Hend.
  - lia.
Qed.

(** ** The frame [show_some_solutions] draws *)

(** Copying rows: the rows copied hold their strings, the others are as
    they were. *)
Lemma copy_rows_other (row : Z -> list ascii) : forall idxs t i j,
  ~ In i idxs -> fold_left (fun t k => strcpy_row t k (row k)) idxs t i j = t i j.
Proof.
  induction idxs as [ | k idxs IH]; intros t i j Hi; [reflexivity | ].
  cbn [fold_left]. rewrite IH by (intros H; apply Hi; now right).
  apply strcpy_row_other. intros ->. apply Hi. now left.
Qed.

Lemma copy_rows_same (row : Z -> list ascii) : forall idxs t i j,
  In i idxs -> 0 <= j < strlen (row i) ->
  fold_left (fun t k => strcpy_row t k (row k)) idxs t i j = nth (Z.to_nat j) (row i) NUL.
Proof.
  induction idxs as [ | k idxs IH]; intros t i j Hi Hj; [contradiction | ].
  cbn [fold_left]. destruct (in_dec Z.eq_dec i idxs) as [Hin | Hnot].
  - now apply IH.
  - destruct Hi as [-> | Hi]; [ | contradiction].
    rewrite copy_rows_other by exact Hnot. now apply strcpy_row_same.
Qed.

(** Marking cells with one character: the marked cells hold it, the
    others are as they were. *)
Lemma mark_cells {A} (v : A) : forall (cells : list cell) (t : Z -> Z -> A) i j,
  fold_left (fun t c => upd2 t (fst c) (snd c) v) cells t i j
  = if on_path cells i j then v else t i j.
Proof.
  induction cells as [ | [a b] cells IH]; intros t i j; [reflexivity | ].
  cbn [fold_left fst snd]. rewrite IH. unfold on_path. cbn [existsb].
  fold (on_path cells i j). destruct (on_path cells i j); [now rewrite orb_true_r | ].
  rewrite orb_false_r. destruct (cell_eqb (i, j) (a, b)) eqn:E.
  - apply cell_eqb_spec in E. injection E as -> ->. apply upd2_same.
  - apply upd2_other. intros E'. rewrite E' in E.
    assert (cell_eqb (a, b) (a, b) = true) by now apply cell_eqb_spec.
    congruence.
Qed.

Lemma zseq_cons n : 0 < n -> zseq n = 0 :: map (fun i => i + 1) (zseq (n - 1)).
Proof.
  intros H. unfold zseq.
  replace (Z.to_nat n) with (S (Z.to_nat (n - 1))) by lia.
  cbn [seq map]. f_equal. rewrite <- seq_shift, !map_map.
  apply map_ext. intros k. lia.
Qed.

Lemma removelast_map {A B} (f : A -> B) (l : list A) :
  removelast (map f l) = map f (removelast l).
Proof.
  induction l as [ | a l IH]; [reflexivity | ].
  destruct l as [ | b l']; [reflexivity | ].
  cbn [map removelast] in *. now rewrite <- IH.
Qed.

Lemma removelast_zseq n : removelast (zseq n) = zseq (n - 1).
Proof.
  destruct (Z.le_gt_cases n 0) as [H | H].
  - now rewrite !zseq_nonpos by lia.
  - replace n with ((n - 1) + 1) at 1 by lia. rewrite zseq_succ by lia.
    apply removelast_last.
Qed.

(** The cells [show_some_solutions] marks, [current_path[1 .. path_len - 2]],
    are the cells of the path other than its first and its last. *)
Lemma marked_cells_inner st :
  map (fun i => (Dfs.current_path_r st i, Dfs.current_path_c st i))
      (map (fun i => i + 1) (zseq (Dfs.path_len st - 2)))
  = inner_cells (Dfs.path_cells st).
Proof.
  unfold inner_cells, Dfs.path_cells.
  destruct (Z.le_gt_cases (Dfs.path_len st) 0) as [H | H].
  - now rewrite !zseq_nonpos by lia.
  - rewrite (zseq_cons (Dfs.path_len st)) by exact H. cbn [map tl].
    rewrite !removelast_map, removelast_zseq.
    now replace (Dfs.path_len st - 1 - 1) with (Dfs.path_len st - 2) by lia.
Qed.

Lemma path_overlay_cells g st junk i j :
  rows_terminated g -> 0 <= cols g < MAXC ->
  0 <= i < rows g -> 0 <= j < cols g ->
  path_overlay g st junk i j
  = with_carets (maze g) (inner_cells (Dfs.path_cells st)) i j.
Proof.
  intros Ht Hc Hi Hj. unfold path_overlay, with_carets.
  rewrite <- marked_cells_inner.
  rewrite <- (fold_left_map
                (fun t c => upd2 t (fst c) (snd c) "^"%char)
                (fun k => (Dfs.current_path_r st k, Dfs.current_path_c st k))).
  rewrite mark_cells.
  destruct (on_path _ i j); [reflexivity | ].
  rewrite copy_rows_same.
  - rewrite row_string_terminated by assumption.
    rewrite <- (Z2Nat.id j) at 2 by lia. apply nth_map_zseq. lia.
  - now apply in_zseq.
  - rewrite row_string_terminated by assumption.
    unfold strlen. rewrite length_map, zseq_length. lia.
Qed.

Lemma simple_path_inner g a b l :
  simple_path g a b l -> ~ In a (inner_cells l) /\ ~ In b (inner_cells l).
Proof.
  intros (Hhd & Hlast & _ & _ & Hnd). unfold inner_cells.
  destruct l as [ | x l]; [discriminate | ]. injection Hhd as ->. cbn [tl].
  inversion Hnd as [ | ? ? Hnotin Hnd']; subst.
  destruct l as [ | y l'] using rev_ind; [split; intros [] | ].
  rewrite removelast_last. split.
  - intros H. apply Hnotin. apply in_or_app. now left.
  - assert (E : last (a :: l' ++ [y]) a = y).
    { change (a :: l' ++ [y]) with ((a :: l') ++ [y]). apply last_last. }
    rewrite E. intros H. apply NoDup_remove_2 in Hnd'. apply Hnd'.
    now rewrite app_nil_r.
Qed.

(** X20.  The frame [show_some_solutions] draws for a path found on a
    maze that [load_maze] has loaded: the maze itself, with a caret on
    every cell of the path except its first and its last -- start and
    exit are not among the cells drawn over -- whatever the local array
    [temp_maze] held before. *)
Theorem shown_path_frame (file : option (list ascii)) (g0 : grid) (o : load_outcome)
        (rand : nat -> nat) (st st' : Dfs.state)
        (junk : Z -> Z -> ascii) (p : player) :
  load_maze file g0 = Some o ->
  load_ret o = 1 ->
  Dfs.find_from_start (load_grid o) rand st = Some (true, st') ->
  print_maze (path_overlay (load_grid o) st' junk) (load_grid o) p false
  = print_maze (with_carets (maze (load_grid o)) (inner_cells (Dfs.path_cells st')))
               (load_grid o) p false /\
  ~ In (start_cell (load_grid o)) (inner_cells (Dfs.path_cells st')) /\
  ~ In (exit_cell (load_grid o)) (inner_cells (Dfs.path_cells st')).
Proof.
  intros Hload Hret Hrun.
  pose proof (load_maze_loaded _ _ _ Hload Hret) as L.
  pose proof (load_maze_terminated _ _ _ Hload Hret) as Ht.
  set (g := load_grid o) in *.
  split.
  - unfold print_maze. cbn [andb].
    apply map_ext_zseq. intros i Hi. apply map_ext_zseq. intros j Hj.
    apply path_overlay_cells; try assumption.
    pose proof (loaded_cols g L). lia.
  - destruct (find_from_start_path g rand st st' L Hrun) as [Hpath _].
    now apply (simple_path_inner g).
Qed.

(** ** Showing possible paths *)

Lemma shown_app out1 out2 : shown (out1 ++ out2) = shown out1 ++ shown out2.
Proof. unfold shown. apply flat_map_app. Qed.

Lemma numbers_shift count k :
  map (fun i => count + 1 + Z.of_nat i) (seq 1 k)
  = map (fun i => count + Z.of_nat i) (seq 2 k).
Proof.
  rewrite <- (seq_shift k 1), map_map. apply map_ext. intros i. lia.
Qed.

Section ShowLoop.

Variable rand : nat -> nat.
Variable junk_maze : Z -> Z -> ascii.
Variable g : grid.
Variable p : player.
Hypothesis L : loaded g.

(** The loop of [show_some_solutions], entered with [count] paths shown
    and room for [n] more. *)
Lemma show_loop_spec : forall n count st chars out,
  count + Z.of_nat n = MAX_PATHS_TO_SHOW ->
  (0 < n)%nat ->
  exists st' rest out' e added used k,
    show_loop rand junk_maze n count g p st chars out = Some (st', rest, out', e) /\
    out' = added ++ out /\
    chars = used ++ rest /\
    (length used <= k <= n)%nat /\
    map fst (shown added) = rev (map (fun i => count + Z.of_nat i) (seq 1 k)) /\
    (forall c s m, In (c, s) (shown added) ->
                   distance g (start_cell g) (exit_cell g) m -> Z.of_nat m <= s) /\
    (k = O <-> ~ reachable g (start_cell g) (exit_cell g)) /\
    (k = n -> last_output out' = Some OutMaxPaths) /\
    (e = AwaitingInput -> rest = []).
Proof.
  induction n as [ | n IH]; intros count st chars out Hcount Hn; [lia | ].
  cbn [show_loop].
  destruct (find_from_start_total g rand st L) as ([b st1] & Hrun).
  rewrite Hrun. destruct b.
  - assert (Hreach : reachable g (start_cell g) (exit_cell g))
      by now apply (dfs_success_reachable g rand st st1).
    assert (Hsteps : forall m, distance g (start_cell g) (exit_cell g) m ->
                               Z.of_nat m <= Dfs.path_len st1 - 1).
    { intros m Hdist. destruct (find_from_start_path g rand st st1 L Hrun) as [Hpath Hlen].
      assert (Hne : length (Dfs.path_cells st1) <> O).
      { destruct Hpath as (Hhd & _). destruct (Dfs.path_cells st1); discriminate. }
      apply simple_path_walk in Hpath. apply (proj2 Hdist) in Hpath. lia. }
    set (frame := OutFrame (print_maze (path_overlay g st1 junk_maze) g p false)).
    set (line := OutPossiblePath (count + 1) (Dfs.path_len st1 - 1)).
    assert (Hone : forall o, o <> line -> (forall c s, o <> OutPossiblePath c s) ->
               forall c s m, In (c, s) (shown [o; frame; line]) ->
                  distance g (start_cell g) (exit_cell g) m -> Z.of_nat m <= s).
    { intros o _ Ho c s m Hin Hdist. unfold shown in Hin. cbn [flat_map] in Hin.
      destruct o; try (specialize (Ho count0 steps); congruence);
        cbn [app In] in Hin; destruct Hin as [E | []]; injection E as <- <-;
        now apply Hsteps. }
    destruct (count + 1 >=? MAX_PATHS_TO_SHOW) eqn:Hmax.
    + exists st1, chars, (OutMaxPaths :: frame :: line :: out), (Returned 0),
        [OutMaxPaths; frame; line], [], 1%nat.
      split; [reflexivity | ]. split; [reflexivity | ]. split; [reflexivity | ].
      split; [simpl; lia | ]. split; [cbn; f_equal; lia | ].
      split; [apply Hone; [discriminate | discriminate] | ].
      split; [split; [discriminate | intros Hno; contradiction] | ].
      split; [reflexivity | discriminate].
    + assert (Hn' : (0 < n)%nat).
      { rewrite Z.geb_leb in Hmax. apply Z.leb_gt in Hmax. lia. }
      destruct chars as [ | user_answer chars'].
      * exists st1, [], (OutAnotherPrompt :: frame :: line :: out), AwaitingInput,
          [OutAnotherPrompt; frame; line], [], 1%nat.
        split; [reflexivity | ]. split; [reflexivity | ]. split; [reflexivity | ].
        split; [simpl; lia | ]. split; [cbn; f_equal; lia | ].
        split; [apply Hone; [discriminate | discriminate] | ].
        split; [split; [discriminate | intros Hno; contradiction] | ].
        split; [lia | reflexivity].
      * destruct (negb (Ascii.eqb user_answer "y") && negb (Ascii.eqb user_answer "Y")).
        -- exists st1, chars', (OutAnotherPrompt :: frame :: line :: out), (Returned 0),
             [OutAnotherPrompt; frame; line], [user_answer], 1%nat.
           split; [reflexivity | ]. split; [reflexivity | ]. split; [reflexivity | ].
           split; [simpl; lia | ]. split; [cbn; f_equal; lia | ].
           split; [apply Hone; [discriminate | discriminate] | ].
           split; [split; [discriminate | intros Hno; contradiction] | ].
           split; [lia | discriminate].
        -- destruct (IH (count + 1) st1 chars' (OutAnotherPrompt :: frame :: line :: out))
             as (st' & rest & out' & e & added & used & k & Hloop & Hout & Hchars
                 & Hk & Hnum & Hst & Hk0 & Hkn & He); [lia | exact Hn' | ].
           exists st', rest, out', e, (added ++ [OutAnotherPrompt; frame; line]),
             (user_answer :: used), (S k).
           split; [exact Hloop | ].
           split; [rewrite Hout, <- app_assoc; reflexivity | ].
           split; [now rewrite Hchars | ].
           split; [simpl; lia | ].
           split.
           { rewrite shown_app, map_app, Hnum. cbn [seq map rev].
             rewrite numbers_shift. unfold shown. cbn [flat_map app map fst].
             f_equal. }
           split.
           { intros c s m Hin Hdist. rewrite shown_app in Hin.
             apply in_app_or in Hin. destruct Hin as [Hin | Hin].
             - now apply (Hst c s m).
             - apply (Hone OutAnotherPrompt) with (c := c); try discriminate; assumption. }
           split; [split; [discriminate | intros Hno; contradiction] | ].
           split; [intros E; apply Hkn; lia | exact He].
  - exists st1, chars, (OutNoMorePaths :: out), (Returned 0), [OutNoMorePaths], [], O.
    split; [reflexivity | ]. split; [reflexivity | ]. split; [reflexivity | ].
    split; [simpl; lia | ]. split; [reflexivity | ].
    split; [intros c s m []| ].
    split; [split; [intros _; now apply (dfs_failure_unreachable g rand st st1)
                   | reflexivity] | ].
    split; [lia | discriminate].
Qed.

End ShowLoop.

(** X21.  [show_some_solutions] on a loaded maze returns.  It shows at
    most MAX_PATHS_TO_SHOW paths, numbered 1, 2, ... in order, each with
    a step count no smaller than the distance from the start to the
    exit; it shows none exactly when the exit cannot be reached; it reads
    at most one answer per path shown; when it has shown
    MAX_PATHS_TO_SHOW paths the last thing it prints is that the maximum
    is reached; and it waits for an answer only when the input is used
    up. *)
Theorem show_some_solutions_paths (rand : nat -> nat) (junk_maze : Z -> Z -> ascii)
        (g : grid) (p : player) (st : Dfs.state) (chars : list ascii) (out : list output) :
  loaded g ->
  exists st' rest out' e added used k,
    show_some_solutions rand junk_maze g p st chars out = Some (st', rest, out', e) /\
    out' = added ++ OutSearching :: out /\
    chars = used ++ rest /\
    (length used <= k)%nat /\
    Z.of_nat k <= MAX_PATHS_TO_SHOW /\
    map fst (shown added) = rev (map Z.of_nat (seq 1 k)) /\
    (forall c s m, In (c, s) (shown added) ->
                   distance g (start_cell g) (exit_cell g) m -> Z.of_nat m <= s) /\
    (k = O <-> ~ reachable g (start_cell g) (exit_cell g)) /\
    (Z.of_nat k = MAX_PATHS_TO_SHOW -> last_output out' = Some OutMaxPaths) /\
    (e = AwaitingInput -> rest = []).
Proof.
  intros L. unfold show_some_solutions.
  destruct (show_loop_spec rand junk_maze g p L (Z.to_nat MAX_PATHS_TO_SHOW) 0 st chars
              (OutSearching :: out))
    as (st' & rest & out' & e & added & used & k & Hloop & Hout & Hchars
        & Hk & Hnum & Hst & Hk0 & Hkn & He); [reflexivity | unfold MAX_PATHS_TO_SHOW; lia | ].
  exists st', rest, out', e, added, used, k.
  split; [exact Hloop | ]. split; [exact Hout | ]. split; [exact Hchars | ].
  split; [lia | ]. split; [unfold MAX_PATHS_TO_SHOW in *; lia | ].
  split; [exact Hnum | ]. split; [exact Hst | ]. split; [exact Hk0 | ].
  split; [intros E; apply Hkn; unfold MAX_PATHS_TO_SHOW in *; lia | exact He].
Qed.

(** ** The program *)

Lemma load_maze_ret file g o :
  load_maze file g = Some o ->
  (load_ret o = 0 /\ exists m, load_msg o = Some m) \/
  (load_ret o = 1 /\ load_msg o = None).
Proof.
  unfold load_maze. intros H.
  destruct file as [s | ]; [ | injection H as <-; left; split; [reflexivity | now eexists]].
  destruct (read_rows (length s) s (set_rows g 0)) as [[g1 | g1] | ]; try discriminate.
  - injection H as <-. left. split; [reflexivity | now eexists].
  - destruct ((rows g1 =? 0) || (cols g1 =? 0)).
    + injection H as <-. left. split; [reflexivity | now eexists].
    + destruct ((sr _ =? -1) || (er _ =? -1)); injection H as <-.
      * left. split; [reflexivity | now eexists].
      * right. split; reflexivity.
Qed.

(** Manual play and the path display end by returning or waiting for a
    key. *)
Lemma play_manual_loop_ending : forall chars g p out p' chars' out' e,
  play_manual_loop g p chars out = (p', chars', out', e) ->
  e = Returned 0 \/ e = AwaitingInput.
Proof.
  induction chars as [ | ch chars IH]; intros g p out p' chars' out' e; cbn [play_manual_loop].
  - destruct ((pr p =? er g) && (pc p =? ec g)); intros E; injection E as _ _ _ <-; auto.
  - destruct ((pr p =? er g) && (pc p =? ec g)); [intros E; injection E as _ _ _ <-; auto | ].
    destruct (Ascii.eqb ch "q" || Ascii.eqb ch "Q"); [intros E; injection E as _ _ _ <-; auto | ].
    destruct (move_player g p ch) as [p1 o]. apply IH.
Qed.

Lemma show_loop_ending rand junk_maze : forall n count g p st chars out st' chars' out' e,
  show_loop rand junk_maze n count g p st chars out = Some (st', chars', out', e) ->
  e = Returned 0 \/ e = AwaitingInput.
Proof.
  induction n as [ | n IH]; intros count g p st chars out st' chars' out' e; cbn [show_loop].
  - intros E. injection E as _ _ _ <-. auto.
  - destruct (Dfs.find_from_start g rand st) as [[[ | ] st1] | ]; [ | | discriminate].
    + destruct (count + 1 >=? MAX_PATHS_TO_SHOW); [intros E; injection E as _ _ _ <-; auto | ].
      destruct chars as [ | a chars1]; [intros E; injection E as _ _ _ <-; auto | ].
      destruct (negb (Ascii.eqb a "y") && negb (Ascii.eqb a "Y"));
        [intros E; injection E as _ _ _ <-; auto | ].
      apply IH.
    + intros E. injection E as _ _ _ <-. auto.
Qed.


Section MainLoop.

Variable rand : nat -> nat.
Variable junk_r junk_c : Z -> Z -> Z.
Variable junk_maze : Z -> Z -> ascii.
Variable file_at : nat -> option (list ascii).

(** What a mode leaves: it has returned, or it waits for a key, or it
    has written outside the [visited] matrix. *)
Lemma run_mode_ending opt w chars out w1 chars1 out1 e :
  run_mode rand junk_r junk_c junk_maze opt w chars out = Some (Some (w1, chars1, out1, e)) ->
  e = Returned 0 \/ e = AwaitingInput \/ e = Fault OutOfBoundsWrite.
Proof.
  unfold run_mode. destruct (opt =? 1).
  - destruct (play_manual (w_grid w) chars out) as [[[p1 c1] o1] e1] eqn:Hplay.
    intros E. injection E as _ _ _ <-.
    destruct (play_manual_loop_ending _ _ _ _ _ _ _ _ Hplay); auto.
  - destruct (opt =? 2).
    + destruct (negb (in_arrays (sr (w_grid w)) (sc (w_grid w))) && _).
      * intros E. injection E as _ _ _ <-. auto.
      * destruct (show_some_solutions rand junk_maze (w_grid w) (w_player w) (w_dfs w)
                    chars out) as [[[[st1 c1] o1] e1] | ] eqn:Hshow; [ | discriminate].
        intros E. injection E as _ _ _ <-.
        destruct (show_loop_ending _ _ _ _ _ _ _ _ _ _ _ _ _ Hshow); auto.
    + destruct (opt =? 3); [ | discriminate].
      destruct (negb (in_arrays (sr (w_grid w)) (sc (w_grid w)))).
      * intros E. injection E as _ _ _ <-. auto.
      * destruct (bfs_mode junk_r junk_c (w_grid w) (w_player w) (w_queue w) out)
          as [[[g1 q1] o1] | ]; [ | discriminate].
        intros E. injection E as _ _ _ <-. auto.
Qed.

(** The menu loop ends with the farewell and code 0, or waiting for
    input, or at a fault; never with another code. *)
Lemma main_loop_ending : forall n ints,
  (length ints <= n)%nat ->
  forall w chars out e w' out',
    main_loop rand junk_r junk_c junk_maze file_at ints w chars out = Some (e, w', out') ->
    e = AwaitingInput \/ (e = Returned 0 /\ hd_error out' = Some OutGoodbye) \/
    exists f, e = Fault f.
Proof.
  induction n as [ | n IH]; intros ints Hlen w chars out e w' out' Hrun.
  - destruct ints; [ | simpl in Hlen; lia]. injection Hrun as <- _ _. now left.
  - destruct ints as [ | [opt | ] ints1]; [injection Hrun as <- _ _; now left | | ].
    2: { injection Hrun as <- _ _. right. right. now eexists. }
    cbn [main_loop] in Hrun. cbn [length] in Hlen.
    destruct (negb (int_ok opt)); [injection Hrun as <- _ _; right; right; now eexists | ].
    destruct (opt =? 4); [injection Hrun as <- _ <-; right; left; split; reflexivity | ].
    destruct (run_mode rand junk_r junk_c junk_maze opt w chars (OutMenu :: out))
      as [[[[[w1 chars1] out1] e1] | ] | ] eqn:Hmode; [ | | discriminate].
    + destruct e1 as [code | | f].
      * destruct ints1 as [ | [again | ] ints2]; [injection Hrun as <- _ _; now left | | ].
        2: { injection Hrun as <- _ _. right. right. now eexists. }
        destruct (negb (int_ok again));
          [injection Hrun as <- _ _; right; right; now eexists | ].
        destruct (negb (again =? 1));
          [injection Hrun as <- _ <-; right; left; split; reflexivity | ].
        destruct (load_step file_at w1 (OutAgainMenu :: out1)) as [[[ret w2] out3] | ];
          [ | discriminate].
        apply (IH ints2) in Hrun; [exact Hrun | simpl in Hlen; lia].
      * injection Hrun as <- _ _. now left.
      * injection Hrun as <- _ _. right. right. now eexists.
    + apply (IH ints1) in Hrun; [exact Hrun | lia].
Qed.


End MainLoop.

(** X22.  The exit status of [main] is decided by the first [load_maze]
    alone.  When that load fails, [main] returns 1 and the only things
    printed are the load error and the termination message.  When it
    succeeds, no run ends with status 1, whatever fails later: a run
    that comes to an end returns 0 with the farewell as the last thing
    printed, or waits for input, or has reached a point the C source
    leaves undefined (a menu entry that is no number an int holds, so
    that choice or again is read without a value, or a search started
    after a reload that found no 'S', which writes visited[-1][-1]). *)
Theorem main_exit_status (rand : nat -> nat) (junk_r junk_c : Z -> Z -> Z)
        (junk_maze : Z -> Z -> ascii) (file_at : nat -> option (list ascii))
        (w0 : world) (ints : list entry) (chars : list ascii) :
  exists o,
    load_maze (file_at (w_loads w0)) (w_grid w0) = Some o /\
    ((load_ret o = 0 /\
      exists m w,
        load_msg o = Some m /\
        main rand junk_r junk_c junk_maze file_at w0 ints chars
        = Some (Returned 1, w, [OutLoadError m; OutTerminated])) \/
     (load_ret o = 1 /\
      forall e w out,
        main rand junk_r junk_c junk_maze file_at w0 ints chars = Some (e, w, out) ->
        e = AwaitingInput \/
        (e = Returned 0 /\ last out OutMenu = OutGoodbye) \/
        (exists f, e = Fault f))).
Proof.
  destruct (load_maze_total (file_at (w_loads w0)) (w_grid w0)) as (o & Hload).
  exists o. split; [exact Hload | ].
  unfold main, load_step. rewrite Hload.
  destruct (load_maze_ret _ _ _ Hload) as [(Hret & m & Hmsg) | (Hret & Hmsg)];
    rewrite Hret, Hmsg; cbn [Z.eqb].
  - left. split; [reflexivity | ]. exists m. eexists. split; reflexivity.
  - right. split; [reflexivity | ]. intros e w out Hrun.
    destruct (main_loop rand junk_r junk_c junk_maze file_at ints _ chars [])
      as [[[e2 w2] out2] | ] eqn:Hloop; [ | discriminate].
    injection Hrun as <- _ <-.
    destruct (main_loop_ending rand junk_r junk_c junk_maze file_at _ ints (le_n _)
                _ _ _ _ _ _ Hloop) as [He | [[He Hout] | Hf]];
      [now left | right; left | right; right; exact Hf].
    split; [exact He | ].
    destruct out2 as [ | o2 out2]; [discriminate | ]. injection Hout as ->.
    cbn [rev]. apply last_last.
Qed.


(** ** Two runs that leave what the C source determines *)

(** The reload finds a text without 'S' and 'E': [load_maze] leaves the
    start at (-1, -1) and [main] goes on.  The shortest-path search then
    asked for begins by writing [visited[-1][-1]]. *)
Lemma main_search_after_bare_reload :
  exists w,
    main (fun k => k) (fun _ _ => 0) (fun _ _ => 0) (fun _ _ => NUL)
         emptied_file zero_world [Number 3; Number 1; Number 3] []
    = Some (Fault OutOfBoundsWrite, w,
            [OutMenu;
             OutShortest 3;
             OutFrame (map list_ascii_of_string ["S.."; "bbE"]%string);
             OutAgainMenu;
             OutLoadError MsgNoMarkers;
             OutMenu]) /\
    start_cell (w_grid w) = (-1, -1).
Proof. eexists. split; [vm_compute; reflexivity | reflexivity]. Qed.

(** A menu entry that is no number: [show_menu] returns a [choice] that
    was never assigned. *)
Lemma main_entry_not_a_number :
  exists w,
    main (fun k => k) (fun _ _ => 0) (fun _ _ => 0) (fun _ _ => NUL)
         emptied_file zero_world [Number 7; NoNumber; Number 4] []
    = Some (Fault UnassignedRead, w, [OutMenu; OutInvalidOption; OutMenu]).
Proof. eexists. vm_compute. reflexivity. Qed.

(** * Homework 1: the longest increasing run *)

Module Homework01Proofs.

Import Homework01.

Lemma increasing_snoc : forall r x,
  increasing (r ++ [x]) <-> increasing r /\ (r <> [] -> last r 0 < x).
Proof.
  induction r as [ | a r IH]; intros x.
  - simpl. split; [intros _; split; [exact I | congruence] | auto].
  - destruct r as [ | b r'].
    + simpl. split.
      * intros [H _]. split; [exact I | intros _; exact H].
      * intros [_ H]. split; [apply H; discriminate | exact I].
    + change ((a :: b :: r') ++ [x]) with (a :: (b :: r') ++ [x]).
      change (increasing (a :: (b :: r') ++ [x]))
        with (a < b /\ increasing ((b :: r') ++ [x])).
      change (increasing (a :: b :: r')) with (a < b /\ increasing (b :: r')).
      change (last (a :: b :: r') 0) with (last (b :: r') 0).
      rewrite IH. split.
      * intros (Hab & Hr & Hl). split; [split; assumption | ].
        intros _. apply Hl. discriminate.
      * intros ((Hab & Hr) & Hl). split; [exact Hab | ]. split; [exact Hr | ].
        intros _. apply Hl. discriminate.
Qed.

Lemma ends_snoc l x r :
  ends (l ++ [x]) r -> r = [] \/ exists r', r = r' ++ [x] /\ ends l r'.
Proof.
  intros (before & E).
  destruct r as [ | a r0] using rev_ind; [now left | right].
  clear IHr0. rewrite app_assoc in E. apply app_inj_tail in E. destruct E as [E ->].
  exists r0. split; [reflexivity | now exists before].
Qed.

Lemma run_of_snoc l x r :
  run_of (l ++ [x]) r -> run_of l r \/ ends (l ++ [x]) r.
Proof.
  intros (before & after & E).
  destruct after as [ | y after0] using rev_ind.
  - right. exists before. now rewrite app_nil_r in E.
  - clear IHafter0. left. rewrite !app_assoc in E. apply app_inj_tail in E.
    destruct E as [E _]. exists before, after0. now rewrite app_assoc.
Qed.

Lemma ends_last l r d : ends l r -> r <> [] -> last r d = last l d.
Proof.
  intros (before & ->) Hr.
  destruct r as [ | a r0] using rev_ind; [contradiction | ].
  now rewrite app_assoc, !last_last.
Qed.

Lemma ends_run_of l r : ends l r -> run_of l r.
Proof. intros (before & ->). exists before, []. now rewrite app_nil_r. Qed.

Lemma run_of_app l r x : run_of l r -> run_of (l ++ [x]) r.
Proof.
  intros (before & after & ->). exists before, (after ++ [x]).
  now rewrite <- !app_assoc.
Qed.

Lemma ends_length l r : ends l r -> (length r <= length l)%nat.
Proof. intros (before & ->). rewrite length_app. lia. Qed.

Lemma step_defined max_len current_len prev x :
  current_len < INT_MAX -> exists mx cur, step max_len current_len prev x = Some (mx, cur).
Proof.
  intros H. unfold step. apply Z.ltb_lt in H. rewrite H.
  destruct (x >? prev); eauto.
Qed.

Lemma processed_first x mx cur :
  step 0 1 x x = Some (mx, cur) -> processed [x] mx cur x.
Proof.
  unfold step. rewrite Z.gtb_ltb, Z.ltb_irrefl. change (1 >? 0) with true. cbv iota.
  intros E. injection E as <- <-.
  constructor.
  - reflexivity.
  - discriminate.
  - exists [x]. split; [now exists [] | ]. split; [exact I | ]. split; [discriminate | ].
    reflexivity.
  - intros r (before & E) _. apply (f_equal (@length Z)) in E.
    rewrite length_app in E. simpl in E. lia.
  - exists [x]. split; [now exists [], [] | ]. split; [exact I | reflexivity].
  - intros r (before & after & E) _. apply (f_equal (@length Z)) in E.
    rewrite !length_app in E. simpl in E. lia.
Qed.

Lemma processed_step done max_len current_len prev x mx cur :
  processed done max_len current_len prev ->
  step max_len current_len prev x = Some (mx, cur) ->
  processed (done ++ [x]) mx cur x.
Proof.
  intros [Hlast Hne (rc & Hrc & Hinc & Hrcne & Hlen) Hcmax (rm & Hrm & Hminc & Hmlen) Hmmax].
  assert (Hcm : current_len <= max_len).
  { rewrite <- Hlen. apply Hmmax; [now apply ends_run_of | exact Hinc]. }
  assert (Hpos : 1 <= current_len).
  { rewrite <- Hlen. destruct rc; [contradiction | simpl; lia]. }
  assert (Hrclast : last rc 0 = prev).
  { rewrite <- Hlast. now apply ends_last. }
  unfold step. rewrite Z.gtb_ltb. destruct (Z.ltb_spec prev x) as [Hgt | Hle].
  - (* the run goes on *)
    destruct (current_len <? INT_MAX); [ | discriminate].
    intros E. injection E as <- <-.
    assert (Hnew : ends (done ++ [x]) (rc ++ [x]) /\ increasing (rc ++ [x]) /\
                   Z.of_nat (length (rc ++ [x])) = current_len + 1).
    { split; [ | split].
      - destruct Hrc as (before & ->). exists before. now rewrite app_assoc.
      - apply increasing_snoc. split; [exact Hinc | intros _; lia].
      - rewrite length_app. simpl. lia. }
    destruct Hnew as (Hnew1 & Hnew2 & Hnew3).
    assert (Hsuffix : forall r, ends (done ++ [x]) r -> increasing r ->
                                Z.of_nat (length r) <= current_len + 1).
    { intros r Hr Hri. destruct (ends_snoc _ _ _ Hr) as [-> | (r' & -> & Hr')].
      - simpl. lia.
      - apply increasing_snoc in Hri. destruct Hri as [Hri _].
        specialize (Hcmax r' Hr' Hri). rewrite length_app. simpl. lia. }
    constructor.
    + apply last_last.
    + intros E. apply (f_equal (@length Z)) in E. rewrite length_app in E.
      simpl in E. lia.
    + exists (rc ++ [x]). split; [exact Hnew1 | ]. split; [exact Hnew2 | ].
      split; [ | exact Hnew3]. intros E. apply (f_equal (@length Z)) in E.
      rewrite length_app in E. simpl in E. lia.
    + exact Hsuffix.
    + rewrite Z.gtb_ltb. destruct (Z.ltb_spec max_len (current_len + 1)).
      * exists (rc ++ [x]). split; [now apply ends_run_of | ]. split; assumption.
      * exists rm. split; [now apply run_of_app | ]. split; assumption.
    + intros r Hr Hri. rewrite Z.gtb_ltb.
      assert (Z.of_nat (length r) <= Z.max max_len (current_len + 1)).
      { destruct (run_of_snoc _ _ _ Hr) as [Hr' | Hr'].
        - specialize (Hmmax r Hr' Hri). lia.
        - specialize (Hsuffix r Hr' Hri). lia. }
      destruct (Z.ltb_spec max_len (current_len + 1)); lia.
  - (* the run is broken *)
    assert (Hsuffix : forall r, ends (done ++ [x]) r -> increasing r ->
                                Z.of_nat (length r) <= 1).
    { intros r Hr Hri. destruct (ends_snoc _ _ _ Hr) as [-> | (r' & -> & Hr')].
      - simpl. lia.
      - apply increasing_snoc in Hri. destruct Hri as [_ Hri].
        destruct r' as [ | a r'']; [simpl; lia | ].
        exfalso. specialize (Hri ltac:(discriminate)).
        rewrite (ends_last done (a :: r'') 0 Hr') in Hri by discriminate. lia. }
    assert (Hmx : (if current_len >? max_len then current_len else max_len) = max_len).
    { rewrite Z.gtb_ltb. destruct (Z.ltb_spec max_len current_len); lia. }
    rewrite Hmx. intros E. injection E as <- <-.
    constructor.
    + apply last_last.
    + intros E. apply (f_equal (@length Z)) in E. rewrite length_app in E.
      simpl in E. lia.
    + exists [x]. split; [now exists done | ]. split; [exact I | ].
      split; [discriminate | reflexivity].
    + exact Hsuffix.
    + exists rm. split; [now apply run_of_app | ]. split; assumption.
    + intros r Hr Hri. destruct (run_of_snoc _ _ _ Hr) as [Hr' | Hr'].
      * now apply Hmmax.
      * specialize (Hsuffix r Hr' Hri). lia.
Qed.

(** The counter is at most the number of entries processed. *)
Lemma processed_counter done max_len current_len prev :
  processed done max_len current_len prev -> current_len <= Z.of_nat (length done).
Proof.
  intros [_ _ (rc & Hrc & _ & _ & Hlen) _ _ _]. rewrite <- Hlen.
  apply ends_length in Hrc. lia.
Qed.

Lemma loop_done nums max_len current_len prev :
  loop nums max_len current_len prev (-1) = Printed max_len.
Proof. destruct nums; reflexivity. Qed.

(** The loop from any point: when the numbers still to come are [int]s,
    no more of them than an [int] counts, and a -1 follows, it prints the
    length of the longest increasing run of the numbers before that -1. *)
Lemma loop_result : forall todo done max_len current_len prev x rest,
  processed done max_len current_len prev ->
  ~ In (-1) (x :: todo) ->
  (forall y, In y todo -> INT_MIN <= y <= INT_MAX) ->
  Z.of_nat (length (done ++ x :: todo)) <= INT_MAX ->
  exists mx cur,
    loop (map Number todo ++ Number (-1) :: rest) max_len current_len prev x = Printed mx /\
    processed (done ++ x :: todo) mx cur (last (x :: todo) 0).
Proof.
  induction todo as [ | y todo IH];
    intros done max_len current_len prev x rest Hp Hno Hint Hlen.
  - cbn [map app loop].
    assert (Hx : x <> -1) by (intros E; apply Hno; now left).
    apply Z.eqb_neq in Hx. rewrite Hx. cbn [negb].
    pose proof (processed_counter _ _ _ _ Hp) as Hc.
    rewrite length_app in Hlen. cbn [length] in Hlen.
    destruct (step_defined max_len current_len prev x ltac:(lia)) as (mx & cur & Es).
    rewrite Es. change (int_ok (-1)) with true. cbv iota.
    rewrite loop_done. exists mx, cur. split; [reflexivity | ].
    exact (processed_step _ _ _ _ _ _ _ Hp Es).
  - cbn [map app loop].
    assert (Hx : x <> -1) by (intros E; apply Hno; now left).
    apply Z.eqb_neq in Hx. rewrite Hx. cbn [negb].
    pose proof (processed_counter _ _ _ _ Hp) as Hc.
    assert (Hlen' : Z.of_nat (length ((done ++ [x]) ++ y :: todo)) <= INT_MAX).
    { rewrite <- app_assoc. exact Hlen. }
    rewrite length_app in Hlen. cbn [length] in Hlen.
    destruct (step_defined max_len current_len prev x ltac:(lia)) as (mx & cur & Es).
    rewrite Es.
    assert (Hy : int_ok y = true).
    { unfold int_ok. specialize (Hint y (or_introl eq_refl)).
      apply andb_true_iff. split; apply Z.leb_le; lia. }
    rewrite Hy.
    pose proof (processed_step _ _ _ _ _ _ _ Hp Es) as Hp'.
    destruct (IH (done ++ [x]) mx cur x y rest Hp') as (mx' & cur' & Hrun & Hp'').
    { intros H. apply Hno. now right. }
    { intros z Hz. apply Hint. now right. }
    { exact Hlen'. }
    exists mx', cur'. split; [exact Hrun | ].
    rewrite <- app_assoc in Hp''. cbn [app] in Hp''.
    change (last (x :: y :: todo) 0) with (last (y :: todo) 0). exact Hp''.
Qed.

End Homework01Proofs.

(** X24.  Homework 1, entered numbers that each fit a C int, fewer of
    them than INT_MAX before the first -1: the program prints the length
    of the longest run of strictly increasing consecutive numbers among
    those entered before the first -1 (some run of that length is
    increasing, no increasing run is longer); it prints 0 when the first
    number is -1.  Whatever follows the first -1 is not read. *)
Theorem longest_increasing_run (l : list Z) (rest : list entry) :
  (forall x, In x l -> INT_MIN <= x <= INT_MAX) ->
  ~ In (-1) l ->
  Z.of_nat (length l) <= INT_MAX ->
  exists n,
    Homework01.main (map Number l ++ Number (-1) :: rest) = Homework01.Printed n /\
    (exists r, Homework01.run_of l r /\ Homework01.increasing r /\ Z.of_nat (length r) = n) /\
    (forall r, Homework01.run_of l r -> Homework01.increasing r ->
               Z.of_nat (length r) <= n).
Proof.
  intros Hint Hno Hlen. destruct l as [ | x l].
  - exists 0. split; [apply (Homework01Proofs.loop_done rest 0 1 (-1)) | ]. split.
    + exists []. split; [now exists [], [] | ]. split; [exact I | reflexivity].
    + intros r (before & after & E) _. symmetry in E.
      apply app_eq_nil in E. destruct E as [_ E]. apply app_eq_nil in E.
      destruct E as [-> _]. simpl. lia.
  - assert (Hx : x <> -1) by (intros E; apply Hno; now left).
    assert (Hxi : int_ok x = true).
    { unfold int_ok. specialize (Hint x (or_introl eq_refl)).
      apply andb_true_iff. split; apply Z.leb_le; lia. }
    cbn [map app Homework01.main]. rewrite Hxi.
    destruct (Homework01Proofs.step_defined 0 1 x x) as (mx & cur & Es);
      [unfold INT_MAX; lia | ].
    pose proof (Homework01Proofs.processed_first x mx cur Es) as Hp.
    destruct l as [ | y l].
    + cbn [map app Homework01.loop]. apply Z.eqb_neq in Hx. rewrite Hx. cbn [negb].
      rewrite Es. change (int_ok (-1)) with true. cbv iota.
      rewrite Homework01Proofs.loop_done.
      exists mx. split; [reflexivity | ]. destruct Hp. split; assumption.
    + cbn [map app Homework01.loop]. apply Z.eqb_neq in Hx. rewrite Hx. cbn [negb].
      rewrite Es.
      assert (Hyi : int_ok y = true).
      { unfold int_ok. specialize (Hint y (or_intror (or_introl eq_refl))).
        apply andb_true_iff. split; apply Z.leb_le; lia. }
      rewrite Hyi.
      destruct (Homework01Proofs.loop_result l [x] mx cur x y rest Hp)
        as (mx' & cur' & Hrun & Hp').
      { intros H. apply Hno. now right. }
      { intros z Hz. apply Hint. right. now right. }
      { exact Hlen. }
      exists mx'. split; [exact Hrun | ]. cbn [app] in Hp'. destruct Hp'.
      split; assumption.
Qed.

(** * The further properties at sample inputs *)

Lemma open_grid_loaded : loaded open_grid.
Proof. constructor; by_eval. Qed.

Lemma closed_grid_loaded : loaded closed_grid.
Proof. constructor; by_eval. Qed.

Lemma open_rows_maze_rows : maze_rows 3 open_rows.
Proof.
  intros l [<- | [<- | [<- | []]]];
    (split; [reflexivity | split; simpl; intuition discriminate]).
Qed.

Lemma open_rows_hold_S : holds open_rows "S".
Proof. exists (list_ascii_of_string "S.#"). split; simpl; auto. Qed.

Lemma open_rows_hold_E : holds open_rows "E".
Proof. exists (list_ascii_of_string "#.E"). split; simpl; auto. Qed.

Lemma open_maze_fits : forall l, In l (non_empty_lines open_maze) -> line_fits l.
Proof.
  intros l Hl. vm_compute in Hl.
  destruct Hl as [<- | [<- | [<- | []]]];
    (split; [reflexivity | simpl; intuition discriminate]).
Qed.

Lemma ragged_maze_fits : forall l, In l (non_empty_lines ragged_maze) -> line_fits l.
Proof.
  intros l Hl. vm_compute in Hl.
  destruct Hl as [<- | [<- | []]];
    (split; [reflexivity | simpl; intuition discriminate]).
Qed.


Lemma queue_push_appends_witness :
  queue_wf zero_queue /\
  queue_size zero_queue < QSIZE - 1 /\
  queue_wf (Bfs.queue_push zero_queue 1 2) /\
  queue_cells (Bfs.queue_push zero_queue 1 2) = queue_cells zero_queue ++ [(1, 2)].
Proof.
  split; [by_eval | ]. split; [by_eval | ].
  apply (queue_push_appends zero_queue 1 2); by_eval.
Defined.

Lemma queue_pop_oldest_witness :
  queue_wf one_entry_queue /\
  (Bfs.queue_empty one_entry_queue = true <-> queue_cells one_entry_queue = []) /\
  (Bfs.queue_empty one_entry_queue = false ->
   queue_wf (snd (Bfs.queue_pop one_entry_queue)) /\
   queue_cells one_entry_queue
   = fst (Bfs.queue_pop one_entry_queue) :: queue_cells (snd (Bfs.queue_pop one_entry_queue))).
Proof.
  split; [by_eval | ].
  apply (queue_pop_oldest one_entry_queue); by_eval.
Defined.

Lemma queue_push_when_full_witness :
  queue_wf full_queue /\
  queue_size full_queue = QSIZE - 1 /\
  Bfs.queue_empty (Bfs.queue_push full_queue 1 2) = true /\
  queue_cells (Bfs.queue_push full_queue 1 2) = [].
Proof.
  split; [by_eval | ]. split; [by_eval | ].
  apply (queue_push_when_full full_queue 1 2); by_eval.
Defined.

Lemma load_then_print_witness :
  open_rows <> [] /\
  (length open_rows <= Z.to_nat MAXR)%nat /\
  0 < 3 < MAXC /\
  maze_rows 3 open_rows /\
  holds open_rows "S" /\
  holds open_rows "E" /\
  exists o,
    load_maze (Some (unlines open_rows)) zero_grid = Some o /\
    load_ret o = 1 /\
    print_maze (maze (load_grid o)) (load_grid o) (mkPlayer 0 0) false = open_rows.
Proof.
  assert (H1 : open_rows <> []) by discriminate.
  assert (H2 : (length open_rows <= Z.to_nat MAXR)%nat)
    by (unfold open_rows, MAXR; simpl length; lia).
  assert (H3 : 0 < 3 < MAXC) by (unfold MAXC; lia).
  split; [exact H1 | ]. split; [exact H2 | ]. split; [exact H3 | ].
  split; [exact open_rows_maze_rows | ].
  split; [exact open_rows_hold_S | ]. split; [exact open_rows_hold_E | ].
  apply (load_then_print open_rows 3 zero_grid (mkPlayer 0 0) H1 H2 H3 open_rows_maze_rows
                         open_rows_hold_S open_rows_hold_E).
Defined.

Lemma load_maze_forgets_previous_witness :
  load_maze (Some open_maze) zero_grid = Some (loaded_from open_maze) /\
  load_maze (Some open_maze) closed_grid = Some reloaded_open /\
  load_ret (loaded_from open_maze) = load_ret reloaded_open /\
  load_msg (loaded_from open_maze) = load_msg reloaded_open /\
  (load_ret (loaded_from open_maze) = 1 ->
   same_maze (load_grid (loaded_from open_maze)) (load_grid reloaded_open) /\
   forall p b,
     print_maze (maze (load_grid (loaded_from open_maze))) (load_grid (loaded_from open_maze)) p b
     = print_maze (maze (load_grid reloaded_open)) (load_grid reloaded_open) p b).
Proof.
  split; [vm_compute; reflexivity | ]. split; [vm_compute; reflexivity | ].
  apply (load_maze_forgets_previous open_maze zero_grid closed_grid
                                    (loaded_from open_maze) reloaded_open);
    vm_compute; reflexivity.
Defined.

Lemma load_maze_blank_source_witness :
  non_empty_lines blank_source = [] /\
  load_maze (Some blank_source) zero_grid
  = Some (mkLoad 0 (Some MsgEmpty) (set_rows zero_grid 0)).
Proof.
  split; [reflexivity | ].
  apply (load_maze_blank_source blank_source zero_grid). reflexivity.
Defined.

Lemma load_maze_row_length_failure_witness :
  (forall l, In l (non_empty_lines ragged_maze) -> line_fits l) /\
  load_maze (Some ragged_maze) zero_grid = Some (loaded_from ragged_maze) /\
  load_msg (loaded_from ragged_maze) = Some MsgRowLength /\
  load_ret (loaded_from ragged_maze) = 0 /\
  exists k,
    (0 < k < length (non_empty_lines ragged_maze))%nat /\
    rows (load_grid (loaded_from ragged_maze)) = Z.of_nat k /\
    cols (load_grid (loaded_from ragged_maze)) = strlen (hd [] (non_empty_lines ragged_maze)) /\
    (forall i, (i < k)%nat ->
               strlen (nth i (non_empty_lines ragged_maze) [])
               = cols (load_grid (loaded_from ragged_maze))) /\
    strlen (nth k (non_empty_lines ragged_maze) []) <> cols (load_grid (loaded_from ragged_maze)) /\
    (forall i j, (i <= k)%nat -> 0 <= j < strlen (nth i (non_empty_lines ragged_maze) []) ->
                 maze (load_grid (loaded_from ragged_maze)) (Z.of_nat i) j
                 = nth (Z.to_nat j) (nth i (non_empty_lines ragged_maze) []) NUL).
Proof.
  split; [exact ragged_maze_fits | ].
  split; [vm_compute; reflexivity | ]. split; [reflexivity | ].
  apply (load_maze_row_length_failure ragged_maze zero_grid (loaded_from ragged_maze));
    [exact ragged_maze_fits | vm_compute; reflexivity | reflexivity].
Defined.

Lemma load_maze_message_witness :
  (forall l, In l (non_empty_lines open_maze) -> line_fits l) /\
  exists o,
    load_maze (Some open_maze) zero_grid = Some o /\
    (load_msg o = Some MsgEmpty <-> kept_lines open_maze = []) /\
    (load_msg o = Some MsgRowLength <-> ~ uniform (kept_lines open_maze)) /\
    (load_msg o = Some MsgNoMarkers <->
     kept_lines open_maze <> [] /\ uniform (kept_lines open_maze) /\
     ~ (holds (kept_lines open_maze) "S" /\ holds (kept_lines open_maze) "E")) /\
    (load_msg o = None <-> load_ret o = 1) /\
    (load_ret o = 0 \/ load_ret o = 1).
Proof.
  split; [exact open_maze_fits | ].
  apply (load_maze_message open_maze zero_grid). exact open_maze_fits.
Defined.

Lemma play_manual_walks_witness :
  passable open_grid (start_cell open_grid) /\
  play_manual open_grid winning_keys []
  = (fst (fst (fst (play_of open_grid))), snd (fst (fst (play_of open_grid))),
     snd (fst (play_of open_grid)), snd (play_of open_grid)) /\
  exists used n,
    winning_keys = used ++ snd (fst (fst (play_of open_grid))) /\
    (n <= length used)%nat /\
    walk open_grid (start_cell open_grid) n (player_cell (fst (fst (fst (play_of open_grid))))) /\
    (last_output (snd (fst (play_of open_grid))) = Some OutCongratulations <->
     player_cell (fst (fst (fst (play_of open_grid)))) = exit_cell open_grid) /\
    (snd (play_of open_grid) = AwaitingInput -> snd (fst (fst (play_of open_grid))) = []).
Proof.
  assert (Hs : passable open_grid (start_cell open_grid)).
  { apply is_valid_spec. vm_compute. reflexivity. }
  split; [exact Hs | ]. split; [vm_compute; reflexivity | ].
  apply (play_manual_walks open_grid winning_keys []
           (fst (fst (fst (play_of open_grid)))) (snd (fst (fst (play_of open_grid))))
           (snd (fst (play_of open_grid))) (snd (play_of open_grid)));
    [exact Hs | vm_compute; reflexivity].
Defined.

Lemma play_manual_frames_witness :
  passable open_grid (start_cell open_grid) /\
  play_manual open_grid winning_keys []
  = (fst (fst (fst (play_of open_grid))), snd (fst (fst (play_of open_grid))),
     snd (fst (play_of open_grid)), snd (play_of open_grid)) /\
  (forall frame, In (OutFrame frame) (snd (fst (play_of open_grid))) ->
     In (OutFrame frame) [] \/
     exists q n, walk open_grid (start_cell open_grid) n (player_cell q) /\
                 frame = print_maze (maze open_grid) open_grid q true) /\
  exists tail out1,
    snd (fst (play_of open_grid))
    = tail ++ OutFrame (print_maze (maze open_grid) open_grid
                                   (fst (fst (fst (play_of open_grid)))) true) :: out1 /\
    forall frame, ~ In (OutFrame frame) tail.
Proof.
  assert (Hs : passable open_grid (start_cell open_grid)).
  { apply is_valid_spec. vm_compute. reflexivity. }
  split; [exact Hs | ]. split; [vm_compute; reflexivity | ].
  apply (play_manual_frames open_grid winning_keys []
           (fst (fst (fst (play_of open_grid)))) (snd (fst (fst (play_of open_grid))))
           (snd (fst (play_of open_grid))) (snd (play_of open_grid)));
    [exact Hs | vm_compute; reflexivity].
Defined.

Lemma move_player_undo_witness :
  passable open_grid (player_cell (mkPlayer 0 0)) /\
  key_direction "s" = Some 1 /\
  move_player open_grid (mkPlayer 0 0) "s" = (mkPlayer 1 0, Moved) /\
  key_direction "w" = Some (opposite 1) /\
  move_player open_grid (mkPlayer 1 0) "w" = (mkPlayer 0 0, Moved).
Proof.
  assert (Hs : passable open_grid (player_cell (mkPlayer 0 0))).
  { apply is_valid_spec. vm_compute. reflexivity. }
  split; [exact Hs | ]. split; [reflexivity | ]. split; [vm_compute; reflexivity | ].
  split; [reflexivity | ].
  apply (move_player_undo open_grid (mkPlayer 0 0) (mkPlayer 1 0) "s" "w" 1);
    [exact Hs | reflexivity | vm_compute; reflexivity | reflexivity].
Defined.

Lemma bfs_marks_shortest_path_witness :
  loaded open_grid /\
  Bfs.bfs_shortest open_grid zero_queue (fun _ _ => 0) (fun _ _ => 0)
  = Some (Bfs.ShortestPath 4, snd (fst (shortest_of open_grid)), snd (shortest_of open_grid)) /\
  rows (snd (fst (shortest_of open_grid))) = rows open_grid /\
  cols (snd (fst (shortest_of open_grid))) = cols open_grid /\
  start_cell (snd (fst (shortest_of open_grid))) = start_cell open_grid /\
  exit_cell (snd (fst (shortest_of open_grid))) = exit_cell open_grid /\
  loaded (snd (fst (shortest_of open_grid))) /\
  exists l,
    simple_path open_grid (exit_cell open_grid) (start_cell open_grid) l /\
    Z.of_nat (length l) = 4 + 1 /\
    forall i j, maze (snd (fst (shortest_of open_grid))) i j = marked open_grid l i j.
Proof.
  split; [exact open_grid_loaded | ]. split; [vm_compute; reflexivity | ].
  apply (bfs_marks_shortest_path open_grid zero_queue (fun _ _ => 0) (fun _ _ => 0)
           (Bfs.ShortestPath 4) (snd (fst (shortest_of open_grid)))
           (snd (shortest_of open_grid)));
    [exact open_grid_loaded | vm_compute; reflexivity].
Defined.

Lemma bfs_length_bounds_witness :
  loaded open_grid /\
  Bfs.bfs_shortest open_grid zero_queue (fun _ _ => 0) (fun _ _ => 0)
  = Some (Bfs.ShortestPath 4, snd (fst (shortest_of open_grid)), snd (shortest_of open_grid)) /\
  1 <= 4 /\
  manhattan (start_cell open_grid) (exit_cell open_grid) <= 4 /\
  4 < rows open_grid * cols open_grid.
Proof.
  split; [exact open_grid_loaded | ]. split; [vm_compute; reflexivity | ].
  apply (bfs_length_bounds open_grid zero_queue (fun _ _ => 0) (fun _ _ => 0) 4
           (snd (fst (shortest_of open_grid))) (snd (shortest_of open_grid)));
    [exact open_grid_loaded | vm_compute; reflexivity].
Defined.

Lemma shortest_is_fewest_keys_witness :
  loaded open_grid /\
  Bfs.bfs_shortest open_grid zero_queue (fun _ _ => 0) (fun _ _ => 0)
  = Some (Bfs.ShortestPath 4, snd (fst (shortest_of open_grid)), snd (shortest_of open_grid)) /\
  (exists chars p out1,
      Z.of_nat (length chars) = 4 /\
      play_manual open_grid chars [] = (p, [], OutCongratulations :: out1, Returned 0)) /\
  (forall chars p rest out1 e,
      play_manual open_grid chars [] = (p, rest, OutCongratulations :: out1, e) ->
      4 <= Z.of_nat (length chars) - Z.of_nat (length rest)).
Proof.
  split; [exact open_grid_loaded | ]. split; [vm_compute; reflexivity | ].
  apply (shortest_is_fewest_keys open_grid zero_queue (fun _ _ => 0) (fun _ _ => 0) 4
           (snd (fst (shortest_of open_grid))) (snd (shortest_of open_grid)) []);
    [exact open_grid_loaded | vm_compute; reflexivity].
Defined.

Lemma unsolvable_never_won_witness :
  loaded closed_grid /\
  Bfs.bfs_shortest closed_grid zero_queue (fun _ _ => 0) (fun _ _ => 0)
  = Some (Bfs.NoPathExists, snd (fst (shortest_of closed_grid)),
          snd (shortest_of closed_grid)) /\
  play_manual closed_grid winning_keys []
  = (fst (fst (fst (play_of closed_grid))), snd (fst (fst (play_of closed_grid))),
     snd (fst (play_of closed_grid)), snd (play_of closed_grid)) /\
  last_output (snd (fst (play_of closed_grid))) <> Some OutCongratulations /\
  player_cell (fst (fst (fst (play_of closed_grid)))) <> exit_cell closed_grid.
Proof.
  split; [exact closed_grid_loaded | ]. split; [vm_compute; reflexivity | ].
  split; [vm_compute; reflexivity | ].
  apply (unsolvable_never_won closed_grid zero_queue (fun _ _ => 0) (fun _ _ => 0)
           (snd (fst (shortest_of closed_grid))) (snd (shortest_of closed_grid))
           winning_keys []
           (fst (fst (fst (play_of closed_grid)))) (snd (fst (fst (play_of closed_grid))))
           (snd (fst (play_of closed_grid))) (snd (play_of closed_grid)));
    [exact closed_grid_loaded | vm_compute; reflexivity | vm_compute; reflexivity].
Defined.

Lemma bfs_ignores_uninitialised_parents_witness :
  loaded open_grid /\
  Bfs.bfs_shortest open_grid zero_queue (fun _ _ => 7) (fun r c => r - c)
  = Bfs.bfs_shortest open_grid zero_queue (fun _ _ => 0) (fun _ _ => 0).
Proof.
  split; [exact open_grid_loaded | ].
  apply (bfs_ignores_uninitialised_parents open_grid zero_queue
           (fun _ _ => 0) (fun _ _ => 0) (fun _ _ => 7) (fun r c => r - c)).
  exact open_grid_loaded.
Defined.

Lemma dfs_fails_iff_unreachable_witness :
  loaded open_grid /\
  exists b st',
    Dfs.find_from_start open_grid (fun k => k) zero_dfs = Some (b, st') /\
    (b = false <-> ~ reachable open_grid (start_cell open_grid) (exit_cell open_grid)).
Proof.
  split; [exact open_grid_loaded | ].
  apply (dfs_fails_iff_unreachable open_grid (fun k => k) zero_dfs). exact open_grid_loaded.
Defined.

Lemma dfs_path_not_shorter_witness :
  loaded open_grid /\
  Bfs.bfs_shortest open_grid zero_queue (fun _ _ => 0) (fun _ _ => 0)
  = Some (Bfs.ShortestPath 4, snd (fst (shortest_of open_grid)), snd (shortest_of open_grid)) /\
  Dfs.find_from_start open_grid (fun k => k) zero_dfs = Some (true, dfs_end open_maze) /\
  (Bfs.ShortestPath 4 = Bfs.NoPathExists <-> true = false) /\
  (forall n, Bfs.ShortestPath 4 = Bfs.ShortestPath n ->
             n <= Dfs.path_len (dfs_end open_maze) - 1).
Proof.
  split; [exact open_grid_loaded | ]. split; [vm_compute; reflexivity | ].
  split; [vm_compute; reflexivity | ].
  apply (dfs_path_not_shorter open_grid zero_queue (fun _ _ => 0) (fun _ _ => 0)
           (Bfs.ShortestPath 4) (snd (fst (shortest_of open_grid)))
           (snd (shortest_of open_grid)) (fun k => k) zero_dfs true (dfs_end open_maze));
    [exact open_grid_loaded | vm_compute; reflexivity | vm_compute; reflexivity].
Defined.

Lemma shown_path_frame_witness :
  load_maze (Some open_maze) zero_grid = Some (loaded_from open_maze) /\
  load_ret (loaded_from open_maze) = 1 /\
  Dfs.find_from_start (load_grid (loaded_from open_maze)) (fun k => k) zero_dfs
  = Some (true, dfs_end open_maze) /\
  print_maze (path_overlay (load_grid (loaded_from open_maze)) (dfs_end open_maze)
                           (fun _ _ => "x"%char))
             (load_grid (loaded_from open_maze)) (mkPlayer 0 0) false
  = print_maze (with_carets (maze (load_grid (loaded_from open_maze)))
                            (inner_cells (Dfs.path_cells (dfs_end open_maze))))
               (load_grid (loaded_from open_maze)) (mkPlayer 0 0) false /\
  ~ In (start_cell (load_grid (loaded_from open_maze)))
       (inner_cells (Dfs.path_cells (dfs_end open_maze))) /\
  ~ In (exit_cell (load_grid (loaded_from open_maze)))
       (inner_cells (Dfs.path_cells (dfs_end open_maze))).
Proof.
  split; [vm_compute; reflexivity | ]. split; [reflexivity | ].
  split; [vm_compute; reflexivity | ].
  apply (shown_path_frame (Some open_maze) zero_grid (loaded_from open_maze)
           (fun k => k) zero_dfs (dfs_end open_maze) (fun _ _ => "x"%char) (mkPlayer 0 0));
    [vm_compute; reflexivity | reflexivity | vm_compute; reflexivity].
Defined.

Lemma show_some_solutions_paths_witness :
  loaded open_grid /\
  exists st' rest out' e added used k,
    show_some_solutions (fun k => k) (fun _ _ => NUL) open_grid (mkPlayer 0 0) zero_dfs
                        ["y"; "n"]%char []
    = Some (st', rest, out', e) /\
    out' = added ++ OutSearching :: [] /\
    ["y"; "n"]%char = used ++ rest /\
    (length used <= k)%nat /\
    Z.of_nat k <= MAX_PATHS_TO_SHOW /\
    map fst (shown added) = rev (map Z.of_nat (seq 1 k)) /\
    (forall c s m, In (c, s) (shown added) ->
                   distance open_grid (start_cell open_grid) (exit_cell open_grid) m ->
                   Z.of_nat m <= s) /\
    (k = O <-> ~ reachable open_grid (start_cell open_grid) (exit_cell open_grid)) /\
    (Z.of_nat k = MAX_PATHS_TO_SHOW -> last_output out' = Some OutMaxPaths) /\
    (e = AwaitingInput -> rest = []).
Proof.
  split; [exact open_grid_loaded | ].
  apply (show_some_solutions_paths (fun k => k) (fun _ _ => NUL) open_grid (mkPlayer 0 0)
           zero_dfs ["y"; "n"]%char []).
  exact open_grid_loaded.
Defined.


Lemma longest_increasing_run_witness :
  (forall x, In x [1; 2; 2; 3; 4; 0] -> INT_MIN <= x <= INT_MAX) /\
  ~ In (-1) [1; 2; 2; 3; 4; 0] /\
  Z.of_nat (length [1; 2; 2; 3; 4; 0]) <= INT_MAX /\
  exists n,
    Homework01.main (map Number [1; 2; 2; 3; 4; 0] ++ Number (-1) :: [Number 7; NoNumber])
    = Homework01.Printed n /\
    (exists r, Homework01.run_of [1; 2; 2; 3; 4; 0] r /\ Homework01.increasing r /\
               Z.of_nat (length r) = n) /\
    (forall r, Homework01.run_of [1; 2; 2; 3; 4; 0] r -> Homework01.increasing r ->
               Z.of_nat (length r) <= n).
Proof.
  assert (Hint : forall x, In x [1; 2; 2; 3; 4; 0] -> INT_MIN <= x <= INT_MAX).
  { unfold INT_MIN, INT_MAX. simpl. intros x H. lia. }
  assert (Hno : ~ In (-1) [1; 2; 2; 3; 4; 0]) by (simpl; lia).
  assert (Hlen : Z.of_nat (length [1; 2; 2; 3; 4; 0]) <= INT_MAX)
    by (unfold INT_MAX; simpl; lia).
  split; [exact Hint | ]. split; [exact Hno | ]. split; [exact Hlen | ].
  apply (longest_increasing_run [1; 2; 2; 3; 4; 0] [Number 7; NoNumber] Hint Hno Hlen).
Defined.

